(** * mini-router: route trie, request context and worker pool

    A shallow embedding of the Go package [router]
    (router/router.go, router/route.go, router/context.go, router/pool.go)
    together with the properties of its specification.

    Go objects reached through pointers live in a [Store] of heaps, one heap
    per kind of object, and a pointer is an index into its heap.  Code that
    mutates or may panic runs in the monad [M], a state monad over [Store]
    whose outcomes are a result, a panic or a goroutine blocked for ever. *)

From Stdlib Require Import Ascii String ZArith Lia.
From stdpp Require Import gmap strings list fin_maps.

Open Scope string_scope.
Open Scope list_scope.
Open Scope nat_scope.

(** ** Strings: the functions of package [strings] that the router calls *)

Module strings.

(** [strings.TrimLeft(s, cutset)] for a cutset of one byte. *)
Fixpoint TrimLeft (s : string) (c : ascii) : string :=
  match s with
  | String a s' => if Ascii.eqb a c then TrimLeft s' c else s
  | EmptyString => EmptyString
  end.

(** [strings.TrimRight(s, cutset)] for a cutset of one byte. *)
Fixpoint TrimRight (s : string) (c : ascii) : string :=
  match s with
  | EmptyString => EmptyString
  | String a s' =>
      match TrimRight s' c with
      | EmptyString => if Ascii.eqb a c then EmptyString else String a EmptyString
      | t => String a t
      end
  end.

(** [strings.Trim(s, cutset)]: every leading and trailing [c] removed. *)
Definition Trim (s : string) (c : ascii) : string :=
  TrimRight (TrimLeft s c) c.

(** [strings.Split(s, sep)] for a separator of one byte: the substrings
    between the separators; the empty string splits into one empty
    substring. *)
Fixpoint Split (s : string) (sep : ascii) : list string :=
  match s with
  | EmptyString => [EmptyString]
  | String a s' =>
      if Ascii.eqb a sep then EmptyString :: Split s' sep
      else match Split s' sep with
           | x :: xs => String a x :: xs
           | [] => [String a EmptyString]
           end
  end.

(** [strings.HasPrefix(s, ":")] together with [s[1:]]: the rest of [s]
    after a leading colon. *)
Definition CutColon (s : string) : option string :=
  match s with
  | String a s' => if Ascii.eqb a ":" then Some s' else None
  | EmptyString => None
  end.

End strings.

(** ** Handlers

    A [HandlerFunc] is user code that receives the request context.  A
    handler is modelled by the calls it makes on the exported methods of
    [APIContext], with a continuation for every result it reads.  [Sleep]
    lets the clock advance while the handler runs, [Crash] is a handler that
    panics.  [GetFromHeader], [GetFromQuery] and [Decode] read parts of the
    request that no property below speaks of and are left out. *)

Inductive Handler : Type :=
| Return
| CallWriteFailure (code : Z) (msg : string) (k : Handler)
| CallSuccessWithData (data : string) (k : Handler)
| CallWithTimeout (d : Z) (k : Handler)
| CallSet (key value : string) (k : Handler)
| CallValue (key : string) (k : option string → Handler)
| CallGetFromPath (key : string) (k : string * bool → Handler)
| CallErr (k : bool → Handler)
| CallDeadline (k : option Z → Handler)
| CallError (msg err : string) (k : Handler)
| CallInfo (msg key value : string) (k : Handler)
| Sleep (d : N) (k : Handler)
| Crash (msg : string).

(** A Go func value: [None] is the nil func. *)
Abbreviation HandlerFunc := (option Handler).

(** ** Values of the store *)

Abbreviation loc := nat.

(** A slice header: pointer to the backing array, length and capacity. *)
Record slice := Slice { array : loc; len : nat; cap : nat }.

Definition nil_slice : slice := Slice 0 0 0.

(** [type node struct] of router.go. The [handler] map of the root is nil
    ([NewRouter] makes only [children]); [None] is the nil map. *)
Module node.
Record t := mk {
  path : string;
  handler : option (gmap string slice);
  children : gmap string loc;
  isParam : bool;
  paramName : string;
}.
End node.

(** [*slog.Logger]: the attributes attached by [With]. *)
Abbreviation Logger := (list (string * string)).

Inductive Level := LevelDebug | LevelInfo | LevelError.

Record LogEntry := Log {
  log_level : Level;
  log_attrs : Logger;
  log_msg : string;
  log_key : string;
  log_value : string;
}.

(** [*http.Request]: the method and [URL.Path]. *)
Record Request := Req { Method : string; URLPath : string }.

(** What [encoding/json] produces: the marshalled [Error] struct, that is
    the object with the single member "errors", or marshalled data. *)
Inductive Body :=
| JSONError (ErrorMessage : string)
| JSONData (data : string).

(** The calls received by an [http.ResponseWriter]. *)
Inductive WriterCall :=
| HeaderSet (key value : string)
| WriteHeader (code : Z)
| Write (body : Body).

(** Package [context]: the context values the router builds. A cancellable
    context owns a cancellation cell of the store. *)
Inductive Context :=
| Background
| cancelCtx (parent : Context) (cell : loc)
| timerCtx (parent : Context) (deadline : Z) (cell : loc)
| valueCtx (parent : Context) (key val : string).

Inductive error := Canceled | DeadlineExceeded.

(** [type APIContext struct] of context.go. Nil pointers, the nil
    interface and the nil func are [None]; a nil [pathParams] map reads
    like the empty map and is never written through the context. *)
Module APIContext.
Record t := mk {
  w : option loc;
  r : option Request;
  ctx : option Context;
  cancel : option loc;
  pathParams : gmap string string;
  handlers : slice;
  log : option Logger;
  wg : option loc;
}.

(** The zero value [&APIContext{}] made by the pool's [New]. *)
Definition zero : t := mk None None None None ∅ nil_slice None None.
End APIContext.

(** [type Router struct] of router.go. [parent] is never read and
    [workersPool] is the one pool of workers of the process; both are left
    out. *)
Module Router.
Record t := mk {
  root : loc;
  middleware : slice;
  pool : loc;
  log : option Logger;
  prefix : string;
}.
End Router.

(** ** The store *)

Record Store := mkStore {
  nodes : list node.t;                    (* trie nodes *)
  arrays : list (list HandlerFunc);     (* backing arrays of slices *)
  ctxs : list APIContext.t;             (* request contexts *)
  pools : list (list loc);              (* sync.Pool: the pooled contexts *)
  writers : list (list WriterCall);     (* response writers *)
  cells : list bool;                    (* cancellation cells: fired or not *)
  wgs : list Z;                         (* sync.WaitGroup counters *)
  now : Z;                              (* the clock *)
  logs : list LogEntry;                 (* what the loggers have written *)
  invoked : list (loc * HandlerFunc);   (* ghost: handlers called, with their context *)
}.

Definition emptyStore : Store := mkStore [] [] [] [] [] [] [] 0 [] [].

Definition upd_nodes (f : list node.t → list node.t) (st : Store) : Store :=
  mkStore (f (nodes st)) (arrays st) (ctxs st) (pools st) (writers st)
          (cells st) (wgs st) (now st) (logs st) (invoked st).

Definition upd_arrays (f : list (list HandlerFunc) → list (list HandlerFunc)) (st : Store) : Store :=
  mkStore (nodes st) (f (arrays st)) (ctxs st) (pools st) (writers st)
          (cells st) (wgs st) (now st) (logs st) (invoked st).

Definition upd_ctxs (f : list APIContext.t → list APIContext.t) (st : Store) : Store :=
  mkStore (nodes st) (arrays st) (f (ctxs st)) (pools st) (writers st)
          (cells st) (wgs st) (now st) (logs st) (invoked st).

Definition upd_pools (f : list (list loc) → list (list loc)) (st : Store) : Store :=
  mkStore (nodes st) (arrays st) (ctxs st) (f (pools st)) (writers st)
          (cells st) (wgs st) (now st) (logs st) (invoked st).

Definition upd_writers (f : list (list WriterCall) → list (list WriterCall)) (st : Store) : Store :=
  mkStore (nodes st) (arrays st) (ctxs st) (pools st) (f (writers st))
          (cells st) (wgs st) (now st) (logs st) (invoked st).

Definition upd_cells (f : list bool → list bool) (st : Store) : Store :=
  mkStore (nodes st) (arrays st) (ctxs st) (pools st) (writers st)
          (f (cells st)) (wgs st) (now st) (logs st) (invoked st).

Definition upd_wgs (f : list Z → list Z) (st : Store) : Store :=
  mkStore (nodes st) (arrays st) (ctxs st) (pools st) (writers st)
          (cells st) (f (wgs st)) (now st) (logs st) (invoked st).

Definition upd_now (f : Z → Z) (st : Store) : Store :=
  mkStore (nodes st) (arrays st) (ctxs st) (pools st) (writers st)
          (cells st) (wgs st) (f (now st)) (logs st) (invoked st).

Definition upd_logs (f : list LogEntry → list LogEntry) (st : Store) : Store :=
  mkStore (nodes st) (arrays st) (ctxs st) (pools st) (writers st)
          (cells st) (wgs st) (now st) (f (logs st)) (invoked st).

Definition upd_invoked (f : list (loc * HandlerFunc) → list (loc * HandlerFunc)) (st : Store) : Store :=
  mkStore (nodes st) (arrays st) (ctxs st) (pools st) (writers st)
          (cells st) (wgs st) (now st) (logs st) (f (invoked st)).

(** ** The monad of Go code *)

Inductive panic_value :=
| NoHandlers (method path : string)   (* the error raised by [handle] *)
| NilDereference                      (* nil pointer, nil interface *)
| NilMapAssignment                    (* assignment to entry in nil map *)
| NilFuncCall                         (* call of a nil func *)
| NegativeWaitGroup                   (* sync: negative WaitGroup counter *)
| HandlerPanic (msg : string).        (* a handler panicked *)

Inductive outcome (A : Type) :=
| Ok (a : A)
| Panic (e : panic_value)
| Blocked.

Arguments Ok {A} a.
Arguments Panic {A} e.
Arguments Blocked {A}.

Definition M (A : Type) : Type := Store → outcome A * Store.

Definition ret {A} (a : A) : M A := fun st => (Ok a, st).

Definition bind {A B} (m : M A) (f : A → M B) : M B :=
  fun st => match m st with
            | (Ok a, st') => f a st'
            | (Panic e, st') => (Panic e, st')
            | (Blocked, st') => (Blocked, st')
            end.

Definition panic {A} (e : panic_value) : M A := fun st => (Panic e, st).

Definition block {A} : M A := fun st => (Blocked, st).

Definition get {A} (f : Store → A) : M A := fun st => (Ok (f st), st).

Definition modify (f : Store → Store) : M unit := fun st => (Ok tt, f st).

Notation "x <- m ;; k" := (bind m (fun x => k))
  (at level 100, m at next level, right associativity).

Notation "m ;;; k" := (bind m (fun _ => k))
  (at level 100, right associativity).

(** Dereference of a pointer into a heap: a pointer that points nowhere
    panics like the nil pointer. *)
Definition deref {A} (heap : Store → list A) (p : loc) : M A :=
  fun st => match heap st !! p with
            | Some a => (Ok a, st)
            | None => (Panic NilDereference, st)
            end.

Definition unwrap {A} (o : option A) : M A :=
  match o with Some a => ret a | None => panic NilDereference end.

(** Allocation in a heap: the new object is put at the end and its index is
    returned, so a new pointer differs from every pointer in use. *)
Definition allocNode (n : node.t) : M loc :=
  fun st => (Ok (length (nodes st)), upd_nodes (fun h => h ++ [n]) st).

Definition allocArray (a : list HandlerFunc) : M loc :=
  fun st => (Ok (length (arrays st)), upd_arrays (fun h => h ++ [a]) st).

Definition allocCtx (c : APIContext.t) : M loc :=
  fun st => (Ok (length (ctxs st)), upd_ctxs (fun h => h ++ [c]) st).

Definition allocPool : M loc :=
  fun st => (Ok (length (pools st)), upd_pools (fun h => h ++ [[]]) st).

Definition allocCell : M loc :=
  fun st => (Ok (length (cells st)), upd_cells (fun h => h ++ [false]) st).

Definition allocWaitGroup : M loc :=
  fun st => (Ok (length (wgs st)), upd_wgs (fun h => h ++ [0%Z]) st).

(** ** Slices and [append] *)

Module runtime.

(** [nextslicecap] of runtime/slice.go: the capacity asked for when a
    slice of capacity [oldCap] must hold [newLen] elements. *)
Fixpoint grow (fuel newcap newLen : nat) : nat :=
  match fuel with
  | 0 => newcap
  | S fuel' =>
      let newcap' := newcap + (newcap + 3 * 256) / 4 in
      if newLen <=? newcap' then newcap' else grow fuel' newcap' newLen
  end.

Definition nextslicecap (newLen oldCap : nat) : nat :=
  let doublecap := oldCap + oldCap in
  if doublecap <? newLen then newLen
  else if oldCap <? 256 then doublecap
  else grow newLen oldCap newLen.

(** The allocator's size classes up to 32768 bytes, in words of 8 bytes
    (a func value is one word). *)
Definition class_to_size : list nat :=
  [1; 2; 3; 4; 6; 8; 10; 12; 14; 16; 18; 20; 22; 24; 26; 28; 30; 32; 36;
   40; 44; 48; 52; 56; 60; 64; 72; 80; 88; 96; 112; 128; 144; 160; 176;
   192; 224; 256; 288; 336; 384; 400; 432; 512; 608; 640; 672; 768; 816;
   848; 864; 1024; 1184; 1216; 1280; 1360; 1536; 1696; 1792; 2048; 2304;
   2384; 2560; 2720; 3072; 3408; 3584; 4096].

(** In words: the largest small size, the header of an allocation that
    holds pointers, and the size above which such an allocation carries
    the header. *)
Definition maxSmallSize : nat := 4096.
Definition mallocHeaderSize : nat := 1.
Definition minSizeForMallocHeader : nat := 64.

(** [roundupsize] for elements that hold pointers: the size class that
    holds [n] words; above [minSizeForMallocHeader] the header is added to
    the request and taken from the class again; whole pages of 1024 words
    beyond the small sizes. *)
Definition roundupsize (n : nat) : nat :=
  if n <=? maxSmallSize - mallocHeaderSize then
    let reqSize :=
      if minSizeForMallocHeader <? n then n + mallocHeaderSize else n in
    match List.find (fun c => reqSize <=? c) class_to_size with
    | Some c => c - (reqSize - n)
    | None => n
    end
  else (n + 1023) / 1024 * 1024.

(** The capacity [growslice] gives to the new backing array. It is never
    less than [newLen]. *)
Definition growslice (newLen oldCap : nat) : nat :=
  roundupsize (nextslicecap newLen oldCap) `max` newLen.

End runtime.

(** The elements of a slice. *)
Definition elems (st : Store) (s : slice) : list HandlerFunc :=
  take (len s) (default [] (arrays st !! array s)).

(** A variadic argument list, or a composite literal: a new backing array
    that holds exactly the elements; no element gives the nil slice. *)
Definition make_slice (xs : list HandlerFunc) : M slice :=
  match xs with
  | [] => ret nil_slice
  | _ => p <- allocArray xs ;; ret (Slice p (length xs) (length xs))
  end.

(** The builtin [append(s, xs...)]. With room left in the backing array
    of [s] the elements are written in place, after the first [len s]
    elements and over whatever the array held there; otherwise the
    elements of [s] and [xs] are copied to a new, larger array. *)
Definition append (s : slice) (xs : list HandlerFunc) : M slice :=
  let n := length xs in
  if decide (len s + n ≤ cap s) then
    modify (upd_arrays (alter (fun a => take (len s) a ++ xs ++ drop (len s + n) a) (array s))) ;;;
    ret (Slice (array s) (len s + n) (cap s))
  else
    old <- get (fun st => elems st s) ;;
    let newcap := runtime.growslice (len s + n) (cap s) in
    p <- allocArray (old ++ xs ++ replicate (newcap - (len s + n)) None) ;;
    ret (Slice p (len s + n) newcap).

(** ** router.go *)

(** [NewRouter(log)]. *)
Definition NewRouter (log : option Logger) : M Router.t :=
  root <- allocNode (node.mk EmptyString None ∅ false EmptyString) ;;
  pool <- allocPool ;;
  ret (Router.mk root nil_slice pool log EmptyString).

(** [r.Group(prefix)]: the group shares the root and the middleware slice
    header of [r] and has a pool of its own. *)
Definition Group (r : Router.t) (prefix : string) : M Router.t :=
  pool <- allocPool ;;
  ret (Router.mk (Router.root r) (Router.middleware r) pool (Router.log r)
                 (Router.prefix r +:+ prefix)).

(** ** route.go: registration *)

(** [r.Use(mw)]; the router with its [middleware] field assigned is
    returned. *)
Definition Use (r : Router.t) (mw : HandlerFunc) : M Router.t :=
  s <- append (Router.middleware r) [mw] ;;
  ret (Router.mk (Router.root r) s (Router.pool r) (Router.log r) (Router.prefix r)).

(** The segments of a path: [strings.Split(strings.Trim(p, "/"), "/")]. *)
Definition segments (p : string) : list string :=
  strings.Split (strings.Trim p "/") "/".

(** The body of the loop of [handle], for the segment [part] below the
    node [current]: the child is made when it is missing; a segment that
    starts with a colon is stored under the key "*" with the name after the
    colon. The child is returned. *)
Definition handle_part (current : loc) (part : string) : M loc :=
  let '(isParam, paramName, part) :=
    match strings.CutColon part with
    | Some name => (true, name, "*")
    | None => (false, EmptyString, part)
    end in
  cur <- deref nodes current ;;
  (match node.children cur !! part with
   | Some _ => ret tt
   | None =>
       child <- allocNode (node.mk part (Some ∅) ∅ isParam paramName) ;;
       modify (upd_nodes (alter (fun n =>
         node.mk (node.path n) (node.handler n)
                 (<[part := child]> (node.children n))
                 (node.isParam n) (node.paramName n)) current))
   end) ;;;
  cur <- deref nodes current ;;
  unwrap (node.children cur !! part).

(** The loop of [handle] over the segments. *)
Fixpoint handle_loop (current : loc) (parts : list string) : M loc :=
  match parts with
  | [] => ret current
  | part :: parts' =>
      next <- handle_part current part ;;
      handle_loop next parts'
  end.

(** [r.handle(method, path, handlers...)]. *)
Definition handle (r : Router.t) (method path : string) (handlers : list HandlerFunc) : M unit :=
  if decide (length handlers = 0) then panic (NoHandlers method path)
  else
    handlers <- make_slice handlers ;;
    let fullPath := Router.prefix r +:+ path in
    current <- handle_loop (Router.root r) (segments fullPath) ;;
    handlers <-
      (if decide (0 < len (Router.middleware r)) then
         hs <- get (fun st => elems st handlers) ;;
         append (Router.middleware r) hs
       else ret handlers) ;;
    cur <- deref nodes current ;;
    match node.handler cur with
    | None => panic NilMapAssignment
    | Some hm =>
        modify (upd_nodes (alter (fun n =>
          node.mk (node.path n) (Some (<[method := handlers]> hm))
                  (node.children n) (node.isParam n) (node.paramName n)) current))
    end.

Definition POST (r : Router.t) (path : string) (handlers : list HandlerFunc) : M unit :=
  handle r "POST" path handlers.

Definition GET (r : Router.t) (path : string) (handlers : list HandlerFunc) : M unit :=
  handle r "GET" path handlers.

(** ** route.go: resolution *)

Inductive walked :=
| Reached (current : loc) (params : gmap string string)
| NoChild
| NilNode.

(** The loop of [ServeHTTP] over the segments of the request path: the
    child under the segment itself is taken first, then the child under
    "*", whose name is bound to the segment. *)
Fixpoint walk (nd : list node.t) (current : loc) (parts : list string)
    (params : gmap string string) : walked :=
  match parts with
  | [] => Reached current params
  | part :: parts' =>
      match nd !! current with
      | None => NilNode
      | Some cur =>
          match node.children cur !! part with
          | Some child => walk nd child parts' params
          | None =>
              match node.children cur !! "*" with
              | Some paramChild =>
                  match nd !! paramChild with
                  | None => NilNode
                  | Some pc => walk nd paramChild parts' (<[node.paramName pc := part]> params)
                  end
              | None => NoChild
              end
          end
      end
  end.

(** ** Package [context] *)

Module context.

(** [c.Err()]: nil until the context is done, that is until a cancel
    func of the context or of an ancestor has been called or a deadline
    on the way has passed. The library keeps the error of what happened
    first; the store does not record when a cancel func was called, and
    when both have happened [Canceled] is given here, also where the
    deadline had passed before the call. Only whether the error is nil is
    exact; the router and the handlers test nothing else. *)
Fixpoint Err (cells : list bool) (now : Z) (c : Context) : option error :=
  match c with
  | Background => None
  | cancelCtx parent cell =>
      match Err cells now parent with
      | Some e => Some e
      | None => if default false (cells !! cell) then Some Canceled else None
      end
  | timerCtx parent deadline cell =>
      match Err cells now parent with
      | Some e => Some e
      | None =>
          if default false (cells !! cell) then Some Canceled
          else if (deadline <=? now)%Z then Some DeadlineExceeded
          else None
      end
  | valueCtx parent _ _ => Err cells now parent
  end.

(** [c.Deadline()]. *)
Fixpoint Deadline (c : Context) : option Z :=
  match c with
  | Background => None
  | cancelCtx parent _ => Deadline parent
  | timerCtx _ deadline _ => Some deadline
  | valueCtx parent _ _ => Deadline parent
  end.

(** [c.Value(key)]. *)
Fixpoint Value (c : Context) (key : string) : option string :=
  match c with
  | Background => None
  | cancelCtx parent _ => Value parent key
  | timerCtx parent _ _ => Value parent key
  | valueCtx parent k v => if String.eqb k key then Some v else Value parent key
  end.

(** [context.WithCancel(parent)]: the context and its cancel func, given
    by the cell the func fires. *)
Definition WithCancel (parent : Context) : M (Context * loc) :=
  cell <- allocCell ;;
  ret (cancelCtx parent cell, cell).

(** [context.WithTimeout(parent, d)], that is [WithDeadline] at [d] from
    now: when the parent already has an earlier deadline the result is
    [WithCancel(parent)], so the parent's deadline stays. *)
Definition WithTimeout (parent : Context) (d : Z) : M (Context * loc) :=
  t <- get now ;;
  let deadline := (t + d)%Z in
  match Deadline parent with
  | Some cur =>
      if (cur <? deadline)%Z then WithCancel parent
      else cell <- allocCell ;; ret (timerCtx parent deadline cell, cell)
  | None => cell <- allocCell ;; ret (timerCtx parent deadline cell, cell)
  end.

(** [context.WithValue(parent, key, val)]. *)
Definition WithValue (parent : Context) (key val : string) : Context :=
  valueCtx parent key val.

(** Calling a cancel func. *)
Definition CancelFunc (cell : loc) : M unit :=
  modify (upd_cells (<[cell := true]>)).

End context.

(** ** context.go: the methods of [*APIContext] *)

Definition set_w v (x : APIContext.t) :=
  APIContext.mk v (APIContext.r x) (APIContext.ctx x) (APIContext.cancel x)
    (APIContext.pathParams x) (APIContext.handlers x) (APIContext.log x) (APIContext.wg x).

Definition set_r v (x : APIContext.t) :=
  APIContext.mk (APIContext.w x) v (APIContext.ctx x) (APIContext.cancel x)
    (APIContext.pathParams x) (APIContext.handlers x) (APIContext.log x) (APIContext.wg x).

Definition set_ctx v (x : APIContext.t) :=
  APIContext.mk (APIContext.w x) (APIContext.r x) v (APIContext.cancel x)
    (APIContext.pathParams x) (APIContext.handlers x) (APIContext.log x) (APIContext.wg x).

Definition set_cancel v (x : APIContext.t) :=
  APIContext.mk (APIContext.w x) (APIContext.r x) (APIContext.ctx x) v
    (APIContext.pathParams x) (APIContext.handlers x) (APIContext.log x) (APIContext.wg x).

Definition set_pathParams v (x : APIContext.t) :=
  APIContext.mk (APIContext.w x) (APIContext.r x) (APIContext.ctx x) (APIContext.cancel x)
    v (APIContext.handlers x) (APIContext.log x) (APIContext.wg x).

Definition set_handlers v (x : APIContext.t) :=
  APIContext.mk (APIContext.w x) (APIContext.r x) (APIContext.ctx x) (APIContext.cancel x)
    (APIContext.pathParams x) v (APIContext.log x) (APIContext.wg x).

Definition set_log v (x : APIContext.t) :=
  APIContext.mk (APIContext.w x) (APIContext.r x) (APIContext.ctx x) (APIContext.cancel x)
    (APIContext.pathParams x) (APIContext.handlers x) v (APIContext.wg x).

Definition set_wg v (x : APIContext.t) :=
  APIContext.mk (APIContext.w x) (APIContext.r x) (APIContext.ctx x) (APIContext.cancel x)
    (APIContext.pathParams x) (APIContext.handlers x) (APIContext.log x) v.

(** Assignment to fields of the context at [c]. *)
Definition assign (c : loc) (f : APIContext.t → APIContext.t) : M unit :=
  x <- deref ctxs c ;;
  modify (upd_ctxs (<[c := f x]>)).

(** Reading a field of the context at [c] that must not be nil. *)
Definition field {A} (c : loc) (f : APIContext.t → option A) : M A :=
  x <- deref ctxs c ;;
  unwrap (f x).

(** A call on the response writer at [wr]. *)
Definition writer_call (wr : loc) (e : WriterCall) : M unit :=
  deref writers wr ;;;
  modify (upd_writers (alter (fun l => l ++ [e]) wr)).

Definition withCancel (c : loc) : M unit :=
  p <- context.WithCancel Background ;;
  let '(ctxWithCancel, cancel) := p in
  assign c (set_ctx (Some ctxWithCancel)) ;;;
  assign c (set_cancel (Some cancel)).

Definition setCtx (c : loc) (w : loc) (r : Request) (l : option Logger) : M unit :=
  assign c (set_w (Some w)) ;;;
  assign c (set_r (Some r)) ;;;
  assign c (set_log l) ;;;
  assign c (set_handlers nil_slice) ;;;
  assign c (set_pathParams ∅) ;;;
  (p <- allocWaitGroup ;; assign c (set_wg (Some p))) ;;;
  withCancel c.

Definition setHandlers (c : loc) (h : slice) : M unit :=
  assign c (set_handlers h).

Definition setMiddleware (c : loc) (mw : slice) : M unit :=
  x <- deref ctxs c ;;
  hs <- get (fun st => elems st (APIContext.handlers x)) ;;
  s <- append mw hs ;;
  assign c (set_handlers s).

(** [ctx.Error], [ctx.Info], [ctx.Debug]: one entry written by the
    context's logger. *)
Definition log_entry (c : loc) (lv : Level) (msg key value : string) : M unit :=
  l <- field c APIContext.log ;;
  modify (upd_logs (fun ls => ls ++ [Log lv l msg key value])).

Definition Error (c : loc) (msg err : string) : M unit :=
  log_entry c LevelError msg "error" err.

Definition Debug (c : loc) (msg key value : string) : M unit :=
  log_entry c LevelDebug msg key value.

Definition Info (c : loc) (msg key value : string) : M unit :=
  log_entry c LevelInfo msg key value.

(** [ctx.WriteFailure(code, msg)]. Marshalling the [Error] struct does not
    fail, and the writers of the store accept every write, so the two
    branches that log an error are not taken. *)
Definition WriteFailure (c : loc) (code : Z) (msg : string) : M unit :=
  wr <- field c APIContext.w ;;
  writer_call wr (WriteHeader code) ;;;
  let data := JSONError msg in
  wr <- field c APIContext.w ;;
  writer_call wr (Write data) ;;;
  x <- deref ctxs c ;;
  match APIContext.cancel x with
  | Some cancel => context.CancelFunc cancel
  | None => panic NilFuncCall
  end.

(** [ctx.SuccessWithData(data)]. *)
Definition SuccessWithData (c : loc) (data : string) : M unit :=
  let jsonData := JSONData data in
  wr <- field c APIContext.w ;;
  writer_call wr (WriteHeader 200) ;;;
  wr <- field c APIContext.w ;;
  writer_call wr (Write jsonData).

(** [sync.WaitGroup]. *)
Definition WaitGroup_Add (p : loc) (delta : Z) : M unit :=
  n <- deref wgs p ;;
  if (n + delta <? 0)%Z then panic NegativeWaitGroup
  else modify (upd_wgs (<[p := (n + delta)%Z]>)).

Definition WaitGroup_Done (p : loc) : M unit := WaitGroup_Add p (-1).

Definition WaitGroup_Wait (p : loc) : M unit :=
  n <- deref wgs p ;;
  if (n =? 0)%Z then ret tt else block.

Definition reset (c : loc) : M unit :=
  assign c (set_w None) ;;;
  assign c (set_r None) ;;;
  assign c (set_handlers nil_slice) ;;;
  assign c (set_log None) ;;;
  assign c (set_ctx (Some Background)) ;;;
  (p <- allocWaitGroup ;; assign c (set_wg (Some p))) ;;;
  assign c (set_pathParams ∅).

Definition wait (c : loc) : M unit :=
  p <- field c APIContext.wg ;;
  WaitGroup_Wait p.

(** [ctx.Err()]; [ctx.Done()] is closed exactly when [Err] is not nil. *)
Definition Err (c : loc) : M (option error) :=
  cx <- field c APIContext.ctx ;;
  get (fun st => context.Err (cells st) (now st) cx).

Definition WithTimeout (c : loc) (d : Z) : M unit :=
  cx <- field c APIContext.ctx ;;
  p <- context.WithTimeout cx d ;;
  let '(ctxTimeout, cancel) := p in
  assign c (set_ctx (Some ctxTimeout)) ;;;
  assign c (set_cancel (Some cancel)).

Definition Deadline (c : loc) : M (option Z) :=
  cx <- field c APIContext.ctx ;;
  ret (context.Deadline cx).

Definition Value (c : loc) (key : string) : M (option string) :=
  cx <- field c APIContext.ctx ;;
  ret (context.Value cx key).

(** [ctx.Set(key, value)]. *)
Definition Set_ (c : loc) (key value : string) : M unit :=
  cx <- field c APIContext.ctx ;;
  assign c (set_ctx (Some (context.WithValue cx key value))).

(** [ctx.GetFromPath(key)]: the value, and whether the error
    [ErrGetPathFromPost] is returned with it. A key that is not bound reads
    as the empty string. *)
Definition GetFromPath (c : loc) (key : string) : M (string * bool) :=
  x <- deref ctxs c ;;
  req <- unwrap (APIContext.r x) ;;
  if String.eqb (Method req) "GET"
  then ret (default EmptyString (APIContext.pathParams x !! key), false)
  else ret (EmptyString, true).

(** ** Calling a handler *)

Fixpoint call (h : Handler) (c : loc) : M unit :=
  match h with
  | Return => ret tt
  | CallWriteFailure code msg k => WriteFailure c code msg ;;; call k c
  | CallSuccessWithData data k => SuccessWithData c data ;;; call k c
  | CallWithTimeout d k => WithTimeout c d ;;; call k c
  | CallSet key value k => Set_ c key value ;;; call k c
  | CallValue key k => v <- Value c key ;; call (k v) c
  | CallGetFromPath key k => v <- GetFromPath c key ;; call (k v) c
  | CallErr k => e <- Err c ;; call (k (bool_decide (e ≠ None))) c
  | CallDeadline k => d <- Deadline c ;; call (k d) c
  | CallError msg err k => Error c msg err ;;; call k c
  | CallInfo msg key value k => Info c msg key value ;;; call k c
  | Sleep d k => modify (upd_now (fun t => (t + Z.of_N d)%Z)) ;;; call k c
  | Crash msg => panic (HandlerPanic msg)
  end.

(** [h(ctx)] for a func value [h]; the call is recorded in [invoked]. *)
Definition call_func (h : HandlerFunc) (c : loc) : M unit :=
  modify (upd_invoked (fun l => l ++ [(c, h)])) ;;;
  match h with
  | Some f => call f c
  | None => panic NilFuncCall
  end.

(** ** pool.go *)

(** [type Job struct]. The [HandlerFunc] of a job is the closure
    [wrappedHandler] made by [Submit], given by the slice it captures. *)
Module Job.
Record t := mk { Context : option loc; HandlerFunc : slice }.
End Job.

(** [defer d] around [m]: [d] runs when [m] returns and when [m] panics,
    and the panic goes on after it. *)
Definition defer {A} (d : M unit) (m : M A) : M A :=
  fun st => match m st with
            | (Ok a, st') => (d ;;; ret a) st'
            | (Panic e, st') =>
                match d st' with
                | (Blocked, st'') => (Blocked, st'')
                | (_, st'') => (Panic e, st'')
                end
            | (Blocked, st') => (Blocked, st')
            end.

(** The loop of [wrappedHandler] over the handlers. *)
Fixpoint range_handlers (hs : list HandlerFunc) (c : loc) : M unit :=
  match hs with
  | [] => ret tt
  | h :: hs' =>
      e <- Err c ;;
      match e with
      | Some _ =>
          Error c "context canceled" "context timeout" ;;;
          WriteFailure c 504 "request timeout"
      | None => call_func h c ;;; range_handlers hs' c
      end
  end.

(** The closure [wrappedHandler] of [Submit]. *)
Definition wrappedHandler (handlers : slice) (c : loc) : M unit :=
  p <- field c APIContext.wg ;;
  defer (WaitGroup_Done p)
    (hs <- get (fun st => elems st handlers) ;;
     range_handlers hs c).

(** [wp.Submit(ctx, handlers)] up to the send on the channel [wp.jobs]:
    the job that is sent. *)
Definition Submit (c : loc) (handlers : slice) : M Job.t :=
  p <- field c APIContext.wg ;;
  WaitGroup_Add p 1 ;;;
  ret (Job.mk (Some c) handlers).

(** The body of the loop of a worker, for a job received from the
    channel. *)
Definition worker (job : Job.t) : M unit :=
  match Job.Context job with
  | None => ret tt
  | Some c =>
      e <- Err c ;;
      match e with
      | None => wrappedHandler (Job.HandlerFunc job) c
      | Some _ => ret tt
      end
  end.

(** ** route.go: ServeHTTP *)

(** [sync.Pool]: [Get] takes a pooled context or makes a new one with
    [New], [Put] gives one back. *)
Definition Pool_Get (p : loc) : M loc :=
  l <- deref pools p ;;
  match l with
  | c :: l' => modify (upd_pools (<[p := l']>)) ;;; ret c
  | [] => allocCtx APIContext.zero
  end.

Definition Pool_Put (p : loc) (c : loc) : M unit :=
  l <- deref pools p ;;
  modify (upd_pools (<[p := c :: l]>)).

(** The outcome of the resolution in [ServeHTTP]. *)
Inductive resolution :=
| RouteNotFound
| MethodNotAllowed
| Found (handler : slice) (params : gmap string string).

Definition resolve (rt : Router.t) (req : Request) : M resolution :=
  nd <- get nodes ;;
  match walk nd (Router.root rt) (segments (URLPath req)) ∅ with
  | NilNode => panic NilDereference
  | NoChild => ret RouteNotFound
  | Reached current params =>
      cur <- deref nodes current ;;
      match node.handler cur ≫= (.!! Method req) with
      | Some handler => ret (Found handler params)
      | None => ret MethodNotAllowed
      end
  end.

(** The statements of [ServeHTTP] before its [defer]: a context is taken
    from the pool and set up for the request, and the header of the
    response is set. *)
Definition ServeHTTP_setup (rt : Router.t) (w : loc) (req : Request) : M loc :=
  c <- Pool_Get (Router.pool rt) ;;
  setCtx c w req (Router.log rt) ;;;
  (l <- field c APIContext.log ;;
   assign c (set_log (Some (l ++ [("pattern", Method req +:+ " " +:+ URLPath req)])))) ;;;
  (wr <- field c APIContext.w ;;
   writer_call wr (HeaderSet "Content-Type" "application/json; charset=utf-8")) ;;;
  ret c.

(** The statements of [ServeHTTP] after the loop over the segments, up to
    the send of [Submit]: the context and, unless a failure was written,
    the job to send. *)
Definition ServeHTTP_continue (rt : Router.t) (c : loc) (res : resolution) : M (loc * option Job.t) :=
  match res with
  | RouteNotFound =>
      Error c "handler not found" "handler not found" ;;;
      WriteFailure c 400 "bad gateway" ;;;
      ret (c, None)
  | MethodNotAllowed =>
      Error c "method not allowed" "method not allowed" ;;;
      WriteFailure c 405 "method not allowed" ;;;
      ret (c, None)
  | Found handler params =>
      assign c (set_pathParams params) ;;;
      setHandlers c handler ;;;
      setMiddleware c (Router.middleware rt) ;;;
      job <- Submit c handler ;;
      ret (c, Some job)
  end.

(** [ServeHTTP] from its first statement to the send of [Submit]. *)
Definition ServeHTTP_dispatch (rt : Router.t) (w : loc) (req : Request) : M (loc * option Job.t) :=
  c <- ServeHTTP_setup rt w req ;;
  res <- resolve rt req ;;
  ServeHTTP_continue rt c res.

(** The deferred func of [ServeHTTP]. *)
Definition ServeHTTP_deferred (rt : Router.t) (c : loc) : M unit :=
  wait c ;;;
  reset c ;;;
  Pool_Put (Router.pool rt) c.

(** [ServeHTTP] when the job it sends is received and run by a worker
    before anything else happens. The deferred func runs when the body
    returns and when it panics. *)
Definition ServeHTTP (rt : Router.t) (w : loc) (req : Request) : M unit :=
  c <- ServeHTTP_setup rt w req ;;
  defer (ServeHTTP_deferred rt c)
    (res <- resolve rt req ;;
     p <- ServeHTTP_continue rt c res ;;
     match snd p with
     | Some job => worker job
     | None => ret tt
     end).

(** A new response writer, for a request that arrives. *)
Definition newWriter : M loc :=
  fun st => (Ok (length (writers st)), upd_writers (fun h => h ++ [[]]) st).

(** * Predicates of the properties *)

(** ** The trie *)

(** The key under which [handle] stores a segment. *)
Definition canon (part : string) : string :=
  match strings.CutColon part with
  | Some _ => "*"
  | None => part
  end.

(** [c] points to a node whose [handler] map was made. *)
Definition valid_child (nd : list node.t) (c : loc) : Prop :=
  ∃ n, nd !! c = Some n ∧ node.handler n ≠ None.

(** Every child pointer of the trie points to a node made by [handle]. *)
Definition wf_nodes (nd : list node.t) : Prop :=
  ∀ l n k c, nd !! l = Some n → node.children n !! k = Some c → valid_child nd c.

(** [nd'] has the nodes of [nd], with the same names and at least the
    same children, and with a [handler] map where [nd] has one. *)
Definition nodes_ext (nd nd' : list node.t) : Prop :=
  ∀ l n, nd !! l = Some n →
    ∃ n', nd' !! l = Some n' ∧ (node.handler n ≠ None → node.handler n' ≠ None) ∧
          node.paramName n' = node.paramName n ∧
          node.children n ⊆ node.children n'.

(** [final] is the node under the keys [keys] below [current]. *)
Fixpoint path_in (nd : list node.t) (current : loc) (keys : list string) (final : loc) : Prop :=
  match keys with
  | [] => final = current
  | k :: keys' =>
      ∃ cur next, nd !! current = Some cur ∧ node.children cur !! k = Some next ∧
                  path_in nd next keys' final
  end.

(** ** Slices *)

(** The backing array of [s] holds the elements of [s]. *)
Definition slice_ok (st : Store) (s : slice) : Prop :=
  (len s = 0 ∧ cap s = 0) ∨ ∃ a, arrays st !! array s = Some a ∧ len s ≤ length a.

(** ** Registration *)

(** The trie and the middleware slice of a router are in order. *)
Definition wf_router (st : Store) (rt : Router.t) : Prop :=
  wf_nodes (nodes st) ∧ is_Some (nodes st !! Router.root rt) ∧
  slice_ok st (Router.middleware rt).

Definition set_handler (method : string) (s : slice) (hm : gmap string slice) (n : node.t) : node.t :=
  node.mk (node.path n) (Some (<[method := s]> hm)) (node.children n)
          (node.isParam n) (node.paramName n).

(** The bindings that a request whose segments are [reqparts] gives to the
    captures of the registered segments [parts], in the order of the
    segments. *)
Fixpoint bindings (parts reqparts : list string) (params : gmap string string)
    : gmap string string :=
  match parts, reqparts with
  | part :: parts', seg :: reqparts' =>
      bindings parts' reqparts'
        (match strings.CutColon part with
         | Some name => <[name := seg]> params
         | None => params
         end)
  | _, _ => params
  end.

(** The request segments [reqparts] are the registered segments [parts]
    with a segment in the place of every capture, read along the trie below
    [current]: a segment that is not a capture is the same in both; the
    segment in the place of a capture is not a key of a child at its level,
    and the child under "*" at that level carries the name of the
    capture. *)
Fixpoint instance_of (nd : list node.t) (current : loc)
    (parts reqparts : list string) : Prop :=
  match parts, reqparts with
  | [], [] => True
  | part :: parts', seg :: reqparts' =>
      ∃ cur next,
        nd !! current = Some cur ∧ node.children cur !! canon part = Some next ∧
        match strings.CutColon part with
        | None => seg = part
        | Some name =>
            node.children cur !! seg = None ∧
            ∃ pc, nd !! next = Some pc ∧ node.paramName pc = name
        end ∧
        instance_of nd next parts' reqparts'
  | _, _ => False
  end.

(** The handlers of the examples: a middleware and two handlers. *)
Definition mw_log : HandlerFunc := Some (CallInfo "request" "step" "middleware" Return).

Definition h_user : HandlerFunc :=
  Some (CallGetFromPath "id" (fun v => CallSuccessWithData (fst v) Return)).

Definition h_me : HandlerFunc := Some (CallSuccessWithData "me" Return).


(** The trie after [GET /users/:id] and [GET /users/me] on a new router. *)
Definition users_routes : outcome Router.t * Store :=
  (rt <- NewRouter (Some []) ;;
   GET rt "/users/:id" [h_user] ;;;
   GET rt "/users/me" [h_me] ;;;
   ret rt) emptyStore.

Definition rt_new : Router.t := Router.mk 0 nil_slice 0 (Some []) EmptyString.

(** A new router with three middleware: the slice has length 3 and
    capacity 4. *)
Definition three_middleware : outcome Router.t * Store :=
  (rt <- NewRouter (Some []) ;;
   rt <- Use rt mw_log ;;
   rt <- Use rt mw_log ;;
   Use rt mw_log) emptyStore.

Definition rt_three : Router.t := Router.mk 0 (Slice 2 3 4) 0 (Some []) EmptyString.

(** [GET /users/:id] on that router, and [GET /users/me] after it. *)
Definition first_route : outcome unit * Store :=
  GET rt_three "/users/:id" [h_user] (snd three_middleware).

Definition second_route : outcome unit * Store :=
  GET rt_three "/users/me" [h_me] (snd first_route).

(** [GET /users/:id] and then [GET /users/:name/posts] on a new router. *)
Definition named_routes : outcome Router.t * Store :=
  (rt <- NewRouter (Some []) ;;
   GET rt "/users/:id" [h_user] ;;;
   GET rt "/users/:name/posts" [h_me] ;;;
   ret rt) emptyStore.

(** ** Panics of registration *)

(** Every panic of [m] is one of [E]. *)
Definition panics_only {A} (E : panic_value → Prop) (m : M A) : Prop :=
  ∀ st e st', m st = (Panic e, st') → E e.

Definition nil_panic (e : panic_value) : Prop :=
  e = NilDereference ∨ e = NilMapAssignment.

(** ** The request context *)

(** The context at [c] shows a handler no value, no deadline, no path
    parameter and no chain. *)
Definition observes_nothing (st : Store) (c : loc) : Prop :=
  (∀ key, Value c key st = (Ok None, st)) ∧
  Deadline c st = (Ok None, st) ∧
  ∃ x, ctxs st !! c = Some x ∧ APIContext.pathParams x = ∅ ∧
       APIContext.handlers x = nil_slice.

(** A context with values, a deadline and a fired cancellation, as a
    request may leave it. *)
Definition used_context : APIContext.t :=
  APIContext.mk (Some 0) (Some (Req "GET" "/users/42"))
    (Some (valueCtx (timerCtx (cancelCtx Background 0) 5 1) "user" "42"))
    (Some 1) (<["id" := "42"]> ∅) nil_slice (Some []) (Some 0).

Definition used_store : Store :=
  mkStore [] [] [used_context] [[]] [[WriteHeader 200]] [true; true] [0%Z] 7 [] [].

(** ** Deadlines *)

(** The cancellation signal of the context at [c] has fired at the time
    [t] exactly when [deadline ≤ t]. *)
Definition fires_at (st : Store) (c : loc) (deadline : Z) : Prop :=
  ∀ t, ∃ e, Err c (upd_now (fun _ => t) st) = (Ok e, upd_now (fun _ => t) st) ∧
            (e ≠ None ↔ (deadline ≤ t)%Z).

(** A context as [setCtx] leaves it, at time 0. *)
Definition fresh_context : APIContext.t :=
  APIContext.mk (Some 0) (Some (Req "GET" "/")) (Some (cancelCtx Background 0))
    (Some 0) ∅ nil_slice (Some []) (Some 0).

Definition fresh_store : Store :=
  mkStore [] [] [fresh_context] [[]] [[]] [false] [0%Z] 0 [] [].

(** ** What a handler can do to the store *)

(** [cx'] is [cx] or is derived from it. *)
Fixpoint descends (cx cx' : Context) : Prop :=
  cx' = cx ∨
  match cx' with
  | Background => False
  | cancelCtx parent _ => descends cx parent
  | timerCtx parent _ _ => descends cx parent
  | valueCtx parent _ _ => descends cx parent
  end.

(** Every cell fired in [cs] is fired in [cs']. *)
Definition cells_le (cs cs' : list bool) : Prop :=
  ∀ i, cs !! i = Some true → cs' !! i = Some true.

(** The store [st'] comes from [st] by calls on the context at [c]: the
    trie, the slices, the pools and the WaitGroups are the same, the other
    contexts are the same, the context at [c] has the same WaitGroup and a
    [ctx] derived from the one it had, no fired cell is reset and the clock
    has not gone back. *)
Record evolves (c : loc) (st st' : Store) : Prop := {
  ev_nodes : nodes st' = nodes st;
  ev_arrays : arrays st' = arrays st;
  ev_pools : pools st' = pools st;
  ev_wgs : wgs st' = wgs st;
  ev_len : length (ctxs st') = length (ctxs st);
  ev_other : ∀ c', c' ≠ c → ctxs st' !! c' = ctxs st !! c';
  ev_ctx : ∀ x, ctxs st !! c = Some x →
    ∃ x', ctxs st' !! c = Some x' ∧ APIContext.wg x' = APIContext.wg x ∧
          ∀ cx, APIContext.ctx x = Some cx →
            ∃ cx', APIContext.ctx x' = Some cx' ∧ descends cx cx';
  ev_cells : cells_le (cells st) (cells st');
  ev_now : (now st ≤ now st')%Z;
}.

(** Code that a handler may run on the context at [c]: it calls no
    handler and does not block. *)
Definition handler_code {A} (c : loc) (m : M A) : Prop :=
  ∀ st o st', m st = (o, st') →
    evolves c st st' ∧ invoked st' = invoked st ∧ o ≠ Blocked.

(** ** Cancellation *)

(** The cancellation signal of the context at [c] has fired. *)
Definition is_done (st : Store) (c : loc) : Prop :=
  ∃ e, Err c st = (Ok (Some e), st).

(** ** Responses *)

(** [cell] is the cancellation cell of [cx] or of an ancestor of [cx]. *)
Fixpoint covers (cx : Context) (cell : loc) : Prop :=
  match cx with
  | Background => False
  | cancelCtx parent c => c = cell ∨ covers parent cell
  | timerCtx parent _ c => c = cell ∨ covers parent cell
  | valueCtx parent _ _ => covers parent cell
  end.

(** The context at [c] is set up for a request: it has a response writer,
    and a cancel func that fires a cell of its own [ctx]. *)
Definition live (st : Store) (c : loc) : Prop :=
  ∃ x wr ws cx cell,
    ctxs st !! c = Some x ∧ APIContext.w x = Some wr ∧ writers st !! wr = Some ws ∧
    APIContext.ctx x = Some cx ∧ APIContext.cancel x = Some cell ∧
    covers cx cell ∧ cell < length (cells st).

(** [P] holds of the result and of the store when [m] returns. *)
Definition returns {A} (m : M A) (P : A → Store → Prop) (st : Store) : Prop :=
  match m st with
  | (Ok a, st') => P a st'
  | _ => False
  end.

(** The call [h(ctx)] on the context at [c], started on [st], comes to a
    call of [ctx.WriteFailure]: the calls before it return. *)
Fixpoint calls_WriteFailure (h : Handler) (c : loc) (st : Store) : Prop :=
  match h with
  | Return => False
  | CallWriteFailure _ _ _ => True
  | CallSuccessWithData data k =>
      returns (SuccessWithData c data) (fun _ => calls_WriteFailure k c) st
  | CallWithTimeout d k =>
      returns (WithTimeout c d) (fun _ => calls_WriteFailure k c) st
  | CallSet key value k =>
      returns (Set_ c key value) (fun _ => calls_WriteFailure k c) st
  | CallValue key k =>
      returns (Value c key) (fun v => calls_WriteFailure (k v) c) st
  | CallGetFromPath key k =>
      returns (GetFromPath c key) (fun v => calls_WriteFailure (k v) c) st
  | CallErr k =>
      returns (Err c) (fun e => calls_WriteFailure (k (bool_decide (e ≠ None))) c) st
  | CallDeadline k =>
      returns (Deadline c) (fun d => calls_WriteFailure (k d) c) st
  | CallError msg err k =>
      returns (Error c msg err) (fun _ => calls_WriteFailure k c) st
  | CallInfo msg key value k =>
      returns (Info c msg key value) (fun _ => calls_WriteFailure k c) st
  | Sleep d k =>
      returns (modify (upd_now (fun t => (t + Z.of_N d)%Z)))
        (fun _ => calls_WriteFailure k c) st
  | Crash _ => False
  end.

(** A handler that sets a timeout, reads a value and then fails the
    request. *)
Definition h_fail : HandlerFunc :=
  Some (CallWithTimeout 3
          (CallValue "user" (fun _ => CallWriteFailure 403 "forbidden" Return))).

(** The calls received so far by the response writer of the context. *)
Definition response (st : Store) (c : loc) : option (list WriterCall) :=
  x ← ctxs st !! c; wr ← APIContext.w x; writers st !! wr.

(** A context set up for a request whose chain has one handler, in the
    backing array 0. *)
Definition one_handler_store : Store :=
  mkStore [] [[h_me]] [fresh_context] [[]] [[]] [false] [0%Z] 0 [] [].

(** ** The dispatcher *)

(** The router can serve a request on the writer [wr]: its pool exists
    and the context it would give is allocated, the writer exists, and the
    router has a logger. *)
Definition ready (st : Store) (rt : Router.t) (wr : loc) : Prop :=
  ∃ l ws lg,
    pools st !! Router.pool rt = Some l ∧
    (∀ c, head l = Some c → is_Some (ctxs st !! c)) ∧
    writers st !! wr = Some ws ∧
    Router.log rt = Some lg.

Definition content_type : WriterCall :=
  HeaderSet "Content-Type" "application/json; charset=utf-8".

(** [ServeHTTP] answers the request with the failure [code], [msg] and
    submits no job. *)
Definition answers_failure (st : Store) (rt : Router.t) (wr : loc) (req : Request)
    (code : Z) (msg : string) : Prop :=
  (∃ c st',
     ServeHTTP_dispatch rt wr req st = (Ok (c, None), st') ∧
     writers st' !! wr =
       (fun ws => ws ++ [content_type; WriteHeader code; Write (JSONError msg)])
         <$> writers st !! wr) ∧
  ∃ st'',
    ServeHTTP rt wr req st = (Ok tt, st'') ∧
    writers st'' !! wr =
      (fun ws => ws ++ [content_type; WriteHeader code; Write (JSONError msg)])
        <$> writers st !! wr.

(** [ServeHTTP] submits the job for the chain [handler] and writes no
    failure itself. *)
Definition submits (st : Store) (rt : Router.t) (wr : loc) (req : Request)
    (handler : slice) : Prop :=
  ∃ c st',
    ServeHTTP_dispatch rt wr req st = (Ok (c, Some (Job.mk (Some c) handler)), st') ∧
    writers st' !! wr = (fun ws => ws ++ [content_type]) <$> writers st !! wr.

(** The context at [c] is set up on the writer [wr], which has received
    [ws], and no job is counted on its WaitGroup. *)
Definition dispatched (st : Store) (rt : Router.t) (c wr : loc) (ws : list WriterCall) : Prop :=
  ∃ x cell p lg l,
    ctxs st !! c = Some x ∧ APIContext.w x = Some wr ∧ writers st !! wr = Some ws ∧
    APIContext.cancel x = Some cell ∧ APIContext.log x = Some lg ∧
    APIContext.wg x = Some p ∧ wgs st !! p = Some 0%Z ∧
    pools st !! Router.pool rt = Some l.

(** A new router with the two routes of [users_routes], a writer, and a
    request to serve. *)
Definition serving_store : Store :=
  upd_writers (fun _ => [[]]) (snd users_routes).

(** ** The dispatchers and the workers, running together *)

(** A goroutine inside [ServeHTTP]: at the send of [Submit] on the channel
    [wp.jobs], or in the deferred func at [ctx.wait()]. *)
Inductive thread :=
| Sending (rt : Router.t) (c : loc) (job : Job.t)
| Waiting (rt : Router.t) (c : loc).

Definition thread_ctx (t : thread) : loc :=
  match t with
  | Sending _ c _ => c
  | Waiting _ c => c
  end.

Record System := mkSystem {
  store : Store;
  jobs : list Job.t;               (* the buffer of the channel [wp.jobs] *)
  workers : list (option Job.t);   (* for each worker, the job it has received *)
  threads : list thread;           (* the goroutines inside [ServeHTTP] *)
}.

(** The steps of the system, for a channel made with [queueSize]: a
    request arrives and is dispatched; a job is sent to the buffer when
    there is room, or handed to a worker that is receiving; a worker
    receives a job from the buffer; a worker is through with its job; a
    dispatcher returns from [wait], resets the context and puts it into the
    pool; time passes. A goroutine that panics takes no further step. *)
Inductive step (queueSize : nat) : System → System → Prop :=
| step_arrive s rt wr req c oj st' :
    ready (store s) rt wr →
    ServeHTTP_dispatch rt wr req (store s) = (Ok (c, oj), st') →
    step queueSize s
      (mkSystem st' (jobs s) (workers s)
         (threads s ++ [match oj with
                        | Some job => Sending rt c job
                        | None => Waiting rt c
                        end]))
| step_send s i rt c job :
    threads s !! i = Some (Sending rt c job) →
    length (jobs s) < queueSize →
    step queueSize s
      (mkSystem (store s) (jobs s ++ [job]) (workers s)
         (<[i := Waiting rt c]> (threads s)))
| step_hand s i k rt c job :
    threads s !! i = Some (Sending rt c job) →
    jobs s = [] → workers s !! k = Some None →
    step queueSize s
      (mkSystem (store s) [] (<[k := Some job]> (workers s))
         (<[i := Waiting rt c]> (threads s)))
| step_receive s k job rest :
    workers s !! k = Some None → jobs s = job :: rest →
    step queueSize s
      (mkSystem (store s) rest (<[k := Some job]> (workers s)) (threads s))
| step_finish s k job st' :
    workers s !! k = Some (Some job) →
    worker job (store s) = (Ok tt, st') →
    step queueSize s
      (mkSystem st' (jobs s) (<[k := None]> (workers s)) (threads s))
| step_release s i rt c st' :
    threads s !! i = Some (Waiting rt c) →
    ServeHTTP_deferred rt c (store s) = (Ok tt, st') →
    step queueSize s
      (mkSystem st' (jobs s) (workers s) (delete i (threads s)))
| step_tick s d :
    step queueSize s
      (mkSystem (upd_now (fun t => (t + Z.of_N d)%Z) (store s))
         (jobs s) (workers s) (threads s)).

(** At the start no request is being served: the buffer is empty, the
    workers are receiving, and the pools hold allocated contexts, each one
    once. *)
Definition initial (s : System) : Prop :=
  jobs s = [] ∧ threads s = [] ∧ Forall (fun w => w = None) (workers s) ∧
  NoDup (mjoin (pools (store s))) ∧
  ∀ c, c ∈ mjoin (pools (store s)) → c < length (ctxs (store s)).

Inductive reachable (queueSize : nat) : System → Prop :=
| reachable_initial s : initial s → reachable queueSize s
| reachable_step s s' : reachable queueSize s → step queueSize s s' → reachable queueSize s'.

(** The context at [c] is in a pool. *)
Definition pooled (st : Store) (c : loc) : Prop := c ∈ mjoin (pools st).


(** The number of elements of [l] for which [f] holds. *)
Fixpoint count {A} (f : A → bool) (l : list A) : nat :=
  match l with
  | [] => 0
  | x :: l' => (if f x then 1 else 0) + count f l'
  end.

Definition job_for (c : loc) (job : Job.t) : bool :=
  bool_decide (Job.Context job = Some c).

Definition worker_for (c : loc) (w : option Job.t) : bool :=
  match w with
  | Some job => job_for c job
  | None => false
  end.

(** The number of jobs for the context at [c] in the buffer and with the
    workers. *)
Definition queued (s : System) (c : loc) : nat :=
  count (job_for c) (jobs s) + count (worker_for c) (workers s).

(** The count that [Submit] puts on the WaitGroup. *)
Definition counted (oj : option Job.t) : Z :=
  match oj with
  | Some _ => 1%Z
  | None => 0%Z
  end.

(** What the dispatch of a request does to the store: the context at [c]
    comes out of the pool at [p], or is new; the other contexts are as they
    were; the context has a new WaitGroup, the last of the store, whose
    counter is [k]. *)
Definition arrived (st st' : Store) (p c : loc) (k : Z) : Prop :=
  ((mjoin (pools st) ≡ₚ mjoin (pools st') ∧ length (ctxs st) ≤ c) ∨
   mjoin (pools st) ≡ₚ c :: mjoin (pools st')) ∧
  length (ctxs st) ≤ length (ctxs st') ∧
  (∀ c', c' ≠ c → ctxs st' !! c' = ctxs st !! c') ∧
  ∃ x, ctxs st' !! c = Some x ∧ APIContext.wg x = Some (length (wgs st)) ∧
       wgs st' = wgs st ++ [k].

(** *** The invariant *)

(** What holds of the context of a goroutine inside [ServeHTTP]: it is
    in no pool; while the job is about to be sent the counter of its
    WaitGroup is 1 and no job for it is in the buffer or with a worker;
    afterwards the counter is at least the number of such jobs. *)
Definition owns (s : System) (t : thread) : Prop :=
  (thread_ctx t ∉ mjoin (pools (store s))) ∧
  ∃ x p n,
    ctxs (store s) !! thread_ctx t = Some x ∧ APIContext.wg x = Some p ∧
    wgs (store s) !! p = Some n ∧
    match t with
    | Sending _ c job => Job.Context job = Some c ∧ n = 1%Z ∧ queued s c = 0
    | Waiting _ c => (Z.of_nat (queued s c) ≤ n)%Z
    end.

Record inv (s : System) : Prop := {
  inv_threads : NoDup (thread_ctx <$> threads s);
  inv_pools : NoDup (mjoin (pools (store s)));
  inv_alloc : ∀ c, c ∈ mjoin (pools (store s)) → c < length (ctxs (store s));
  inv_owned : ∀ t, t ∈ threads s → owns s t;
  inv_wgs : ∀ t1 t2 x1 x2,
    t1 ∈ threads s → t2 ∈ threads s →
    ctxs (store s) !! thread_ctx t1 = Some x1 →
    ctxs (store s) !! thread_ctx t2 = Some x2 →
    APIContext.wg x1 = APIContext.wg x2 → thread_ctx t1 = thread_ctx t2;
  inv_free : ∀ c, c ∉ thread_ctx <$> threads s → queued s c = 0;
}.

(** One request served from start to end on [serving_store], with a
    single worker: [GET /users/me] is dispatched, its job is sent to the
    buffer and received by the worker, the worker runs it, and the
    dispatcher puts the context back into the pool. *)
Definition request_me : Request := Req "GET" "/users/me".

Definition job_me : Job.t := Job.mk (Some 0) (Slice 1 1 1).

Definition system_start : System := mkSystem serving_store [] [None] [].

Definition system_dispatched : System :=
  mkSystem (snd (ServeHTTP_dispatch rt_new 0 request_me serving_store))
    [] [None] [Sending rt_new 0 job_me].

Definition system_sent : System :=
  mkSystem (store system_dispatched) [job_me] [None] [Waiting rt_new 0].

Definition system_running : System :=
  mkSystem (store system_dispatched) [] [Some job_me] [Waiting rt_new 0].




(** * Predicates of the further properties *)

(** ** Paths *)

(** The byte [c] occurs in [s]. *)
Fixpoint contains (c : ascii) (s : string) : bool :=
  match s with
  | EmptyString => false
  | String a s' => Ascii.eqb a c || contains c s'
  end.

(** ** Chains of handlers *)

(** The context at [c] is set up for a request and has a logger and a
    request. *)
Definition attended (st : Store) (c : loc) : Prop :=
  live st c ∧
  ∃ x lg req, ctxs st !! c = Some x ∧ APIContext.log x = Some lg ∧ APIContext.r x = Some req.

(** What the chain writes when it stops on a cancellation. *)
Definition timeout_response : list WriterCall :=
  [WriteHeader 504; Write (JSONError "request timeout")].

(** A handler that neither answers with a failure, nor arms a timeout,
    nor panics, whatever it reads from the context. *)
Fixpoint quiet (h : Handler) : Prop :=
  match h with
  | Return => True
  | CallSuccessWithData _ k => quiet k
  | CallSet _ _ k => quiet k
  | CallValue _ k => ∀ v, quiet (k v)
  | CallGetFromPath _ k => ∀ v, quiet (k v)
  | CallErr k => ∀ b, quiet (k b)
  | CallDeadline k => ∀ d, quiet (k d)
  | CallError _ _ k => quiet k
  | CallInfo _ _ _ k => quiet k
  | Sleep _ k => quiet k
  | CallWriteFailure _ _ _ => False
  | CallWithTimeout _ _ => False
  | Crash _ => False
  end.

(** A func value that is not nil and whose code is quiet. *)
Definition quiet_func (h : HandlerFunc) : Prop :=
  match h with
  | Some f => quiet f
  | None => False
  end.

(** The context at [c] is set up for a request, has no deadline and is
    not cancelled. *)
Definition calm (st : Store) (c : loc) : Prop :=
  ∃ x wr ws cx cell lg req,
    ctxs st !! c = Some x ∧ APIContext.w x = Some wr ∧ writers st !! wr = Some ws ∧
    APIContext.r x = Some req ∧ APIContext.log x = Some lg ∧
    APIContext.ctx x = Some cx ∧ APIContext.cancel x = Some cell ∧
    covers cx cell ∧ cell < length (cells st) ∧
    context.Deadline cx = None ∧ context.Err (cells st) (now st) cx = None.

(** ** The trie under registration *)

(** The node [n] with the child [child] under [key]. *)
Definition add_child (key : string) (child : loc) (n : node.t) : node.t :=
  node.mk (node.path n) (node.handler n) (<[key := child]> (node.children n))
          (node.isParam n) (node.paramName n).

(** The node that [handle] makes for the segment [part]. *)
Definition new_node (part : string) : node.t :=
  match strings.CutColon part with
  | Some name => node.mk "*" (Some ∅) ∅ true name
  | None => node.mk part (Some ∅) ∅ false EmptyString
  end.

(** [nd'] has the nodes of [nd] with the same chains and names, and at
    least the same children. *)
Definition nodes_keep (nd nd' : list node.t) : Prop :=
  ∀ l n, nd !! l = Some n →
    ∃ n', nd' !! l = Some n' ∧ node.handler n' = node.handler n ∧
          node.paramName n' = node.paramName n ∧
          node.children n ⊆ node.children n'.

(** The nodes form trees: every node can be given the list of the keys
    that lead to it, so that no node is reached under two lists of keys
    from the same root. *)
Definition labelled (nd : list node.t) : Prop :=
  ∃ lab : loc → list string,
    ∀ l n k c, nd !! l = Some n → node.children n !! k = Some c → lab c = lab l ++ [k].

(** Every array of [ar] is in [ar'], at the same place and at least as
    long. *)
Definition arrays_grow (ar ar' : list (list HandlerFunc)) : Prop :=
  ∀ i a, ar !! i = Some a → ∃ a', ar' !! i = Some a' ∧ length a ≤ length a'.

(** The trie and the middleware slice of a router are in order, and the
    nodes form trees. *)
Definition router_ok (st : Store) (rt : Router.t) : Prop :=
  wf_router st rt ∧ labelled (nodes st).

(** The slice that [handle] stores for [n] handlers when the middleware
    slice is [mw]: the handlers themselves without middleware, else the
    result of [append], in the array of [mw] when it has room. *)
Definition chain_slice (st : Store) (mw : slice) (n : nat) : slice :=
  if decide (0 < len mw) then
    if decide (len mw + n ≤ cap mw) then Slice (array mw) (len mw + n) (cap mw)
    else Slice (S (length (arrays st))) (len mw + n) (runtime.growslice (len mw + n) (cap mw))
  else Slice (length (arrays st)) n n.

(** The arrays after [handle] has stored the handlers [hs]. *)
Definition chain_arrays (st : Store) (mw : slice) (hs : list HandlerFunc)
    : list (list HandlerFunc) :=
  let n := length hs in
  if decide (0 < len mw) then
    if decide (len mw + n ≤ cap mw) then
      alter (fun a => take (len mw) a ++ hs ++ drop (len mw + n) a) (array mw) (arrays st ++ [hs])
    else
      arrays st ++
        [hs; elems st mw ++ hs ++
               replicate (runtime.growslice (len mw + n) (cap mw) - (len mw + n)) None]
  else arrays st ++ [hs].

(** ** Requests *)

(** The arrays after [append(s, xs...)]. *)
Definition appended (st : Store) (s : slice) (xs : list HandlerFunc)
    : list (list HandlerFunc) :=
  let n := length xs in
  if decide (len s + n ≤ cap s) then
    alter (fun a => take (len s) a ++ xs ++ drop (len s + n) a) (array s) (arrays st)
  else
    arrays st ++
      [elems st s ++ xs ++ replicate (runtime.growslice (len s + n) (cap s) - (len s + n)) None].

(** The context as the first statements of [ServeHTTP] set it up in the
    store [st], for the request [req] on the writer [wr], with the logger
    [lg] of the router. *)
Definition served_context (st : Store) (wr : loc) (req : Request) (lg : Logger)
    : APIContext.t :=
  APIContext.mk (Some wr) (Some req)
    (Some (cancelCtx Background (length (cells st)))) (Some (length (cells st)))
    ∅ nil_slice
    (Some (lg ++ [("pattern", Method req +:+ " " +:+ URLPath req)]))
    (Some (length (wgs st))).

(** The context as [reset] leaves it. *)
Definition reset_context (st : Store) (x : APIContext.t) : APIContext.t :=
  APIContext.mk None None (Some Background) (APIContext.cancel x) ∅ nil_slice None
    (Some (length (wgs st))).

(** A router with a route registered before its three middleware and a
    route registered after them, and a writer for a request. *)
Definition mixed_routes : outcome Router.t * Store :=
  (rt <- NewRouter (Some []) ;;
   GET rt "/x" [h_user] ;;;
   rt <- Use rt mw_log ;;
   rt <- Use rt mw_log ;;
   rt <- Use rt mw_log ;;
   GET rt "/y" [h_me] ;;;
   w <- newWriter ;;
   ret rt) emptyStore.

Definition rt_mixed : Router.t := Router.mk 0 (Slice 3 3 4) 0 (Some []) EmptyString.

(** * Properties *)

(** ** The monad *)

Lemma bind_Ok {A B} (m : M A) (f : A → M B) st a st' :
  m st = (Ok a, st') → bind m f st = f a st'.
Proof. intros H. unfold bind. by rewrite H. Qed.

Lemma bind_Panic {A B} (m : M A) (f : A → M B) st e st' :
  m st = (Panic e, st') → bind m f st = (Panic e, st').
Proof. intros H. unfold bind. by rewrite H. Qed.

Lemma deref_Ok {A} (heap : Store → list A) p st a :
  heap st !! p = Some a → deref heap p st = (Ok a, st).
Proof. intros H. unfold deref. by rewrite H. Qed.

Lemma upd_nodes_id st : upd_nodes (fun _ => nodes st) st = st.
Proof. by destruct st. Qed.

Lemma nodes_ext_refl nd : nodes_ext nd nd.
Proof. intros l n H. exists n. done. Qed.

Lemma nodes_ext_trans nd1 nd2 nd3 :
  nodes_ext nd1 nd2 → nodes_ext nd2 nd3 → nodes_ext nd1 nd3.
Proof.
  intros H12 H23 l n Hl.
  destruct (H12 l n Hl) as (n2 & Hl2 & Hh2 & Hp2 & Hc2).
  destruct (H23 l n2 Hl2) as (n3 & Hl3 & Hh3 & Hp3 & Hc3).
  exists n3. repeat split; [done|tauto|congruence|by etrans].
Qed.

Lemma path_in_ext nd nd' keys : ∀ current final,
  nodes_ext nd nd' → path_in nd current keys final → path_in nd' current keys final.
Proof.
  induction keys as [|k keys IH]; intros current final Hext; simpl; [done|].
  intros (cur & next & Hcur & Hk & Hp).
  destruct (Hext _ _ Hcur) as (cur' & Hcur' & _ & _ & Hsub).
  exists cur', next. split; [done|]. split; [|by apply IH].
  by eapply lookup_weaken.
Qed.

Lemma valid_child_ext nd nd' c :
  nodes_ext nd nd' → valid_child nd c → valid_child nd' c.
Proof.
  intros Hext (n & Hn & Hh). destruct (Hext _ _ Hn) as (n' & Hn' & Hh' & _).
  exists n'. split; [done|]. tauto.
Qed.

Lemma handle_part_spec current part st cur :
  wf_nodes (nodes st) → nodes st !! current = Some cur →
  ∃ next nd',
    handle_part current part st = (Ok next, upd_nodes (fun _ => nd') st) ∧
    nodes_ext (nodes st) nd' ∧ wf_nodes nd' ∧
    (∃ cur', nd' !! current = Some cur' ∧ node.children cur' !! canon part = Some next) ∧
    valid_child nd' next ∧
    (∀ name, strings.CutColon part = Some name → node.children cur !! "*" = None →
       ∃ pc, nd' !! next = Some pc ∧ node.paramName pc = name).
Proof.
  intros Hwf Hcur. unfold handle_part, canon.
  set (triple := match strings.CutColon part with
                 | Some name => (true, name, "*")
                 | None => (false, EmptyString, part) end).
  assert (Hkey : triple.2 = match strings.CutColon part with Some _ => "*" | None => part end)
    by (subst triple; by destruct (strings.CutColon part)).
  assert (Hname : ∀ name, strings.CutColon part = Some name → triple.1.2 = name)
    by (subst triple; intros name ->; done).
  destruct triple as [[isP pN] key]. simpl in Hkey, Hname. rewrite <- Hkey.
  rewrite (bind_Ok _ _ _ _ _ (deref_Ok nodes current st cur Hcur)).
  destruct (node.children cur !! key) as [next|] eqn:Hk.
  - exists next, (nodes st). rewrite upd_nodes_id.
    split.
    { unfold bind at 1. simpl. rewrite (bind_Ok _ _ _ _ _ (deref_Ok nodes current st cur Hcur)).
      by rewrite Hk. }
    split; [apply nodes_ext_refl|]. split; [done|].
    split; [by exists cur|]. split; [by eapply Hwf|].
    intros name Hc Hs. rewrite Hc in Hkey. congruence.
  - set (child := length (nodes st)).
    set (newn := node.mk key (Some ∅) ∅ isP pN).
    set (cur' := node.mk (node.path cur) (node.handler cur)
                   (<[key := child]> (node.children cur)) (node.isParam cur) (node.paramName cur)).
    assert (Hlt : current < length (nodes st)) by (by eapply lookup_lt_Some).
    set (nd' := alter (fun n => node.mk (node.path n) (node.handler n)
                   (<[key := child]> (node.children n)) (node.isParam n) (node.paramName n))
                   current (nodes st ++ [newn])).
    assert (Hcur' : nd' !! current = Some cur').
    { subst nd'. rewrite list_lookup_alter_eq, lookup_app_l, Hcur by done. done. }
    assert (Hchild : nd' !! child = Some newn).
    { subst nd'. rewrite list_lookup_alter_ne by (subst child; lia).
      by apply list_lookup_middle. }
    assert (Hother : ∀ l n, l ≠ current → nodes st !! l = Some n → nd' !! l = Some n).
    { intros l n Hne Hl. subst nd'. rewrite list_lookup_alter_ne by done.
      rewrite lookup_app_l; [done|by eapply lookup_lt_Some]. }
    assert (Hext : nodes_ext (nodes st) nd').
    { intros l n Hl. destruct (decide (l = current)) as [->|Hne].
      - exists cur'. assert (n = cur) as -> by congruence.
        repeat split; try done. simpl. by apply insert_subseteq.
      - exists n. split; [by apply Hother|done]. }
    exists child, nd'. split.
    { unfold bind at 1. unfold allocNode, modify, bind at 1. simpl.
      unfold bind, deref. simpl. fold newn. fold child. fold nd'. rewrite Hcur'. simpl.
      rewrite lookup_insert_eq. done. }
    split; [done|]. split.
    { intros l n k c Hl Hc.
      destruct (decide (l = current)) as [->|Hne].
      + assert (n = cur') as -> by congruence. simpl in Hc.
        destruct (decide (k = key)) as [->|Hnk].
        * rewrite lookup_insert_eq in Hc. injection Hc as <-. by exists newn.
        * rewrite lookup_insert_ne in Hc by done.
          eapply valid_child_ext; [done|]. by eapply Hwf.
      + destruct (decide (l = child)) as [->|Hnc].
        * assert (n = newn) as -> by congruence. simpl in Hc. by rewrite lookup_empty in Hc.
        * assert (Hl' : nodes st !! l = Some n).
          { subst nd'. rewrite list_lookup_alter_ne in Hl by done.
            rewrite lookup_app_l in Hl; [done|].
            apply lookup_lt_Some in Hl. rewrite length_app in Hl. simpl in Hl. subst child. lia. }
          eapply valid_child_ext; [done|]. by eapply Hwf. }
    split; [exists cur'; split; [done|]; simpl; apply lookup_insert_eq|].
    split; [by exists newn|].
    intros name Hc _. exists newn. split; [done|]. simpl. by apply Hname.
Qed.

Lemma handle_loop_spec parts : ∀ current st,
  wf_nodes (nodes st) → is_Some (nodes st !! current) →
  ∃ final nd',
    handle_loop current parts st = (Ok final, upd_nodes (fun _ => nd') st) ∧
    nodes_ext (nodes st) nd' ∧ wf_nodes nd' ∧
    path_in nd' current (canon <$> parts) final ∧
    (parts ≠ [] → valid_child nd' final).
Proof.
  induction parts as [|part parts IH]; intros current st Hwf [cur Hcur].
  - exists current, (nodes st). rewrite upd_nodes_id.
    repeat split; [apply nodes_ext_refl|done|done].
  - destruct (handle_part_spec current part st cur Hwf Hcur)
      as (next & nd1 & Hrun & Hext1 & Hwf1 & (cur1 & Hcur1 & Hk1) & Hv1 & _).
    destruct (IH next (upd_nodes (fun _ => nd1) st) Hwf1)
      as (final & nd2 & Hrun2 & Hext2 & Hwf2 & Hpath & Hv2).
    { destruct Hv1 as (n & Hn & _). by exists n. }
    exists final, nd2. simpl handle_loop. rewrite (bind_Ok _ _ _ _ _ Hrun).
    split; [exact Hrun2|]. split; [by eapply nodes_ext_trans|]. split; [done|].
    split.
    + simpl. destruct (Hext2 _ _ Hcur1) as (cur2 & Hcur2 & _ & _ & Hsub).
      exists cur2, next. split; [done|]. split; [by eapply lookup_weaken|done].
    + intros _. destruct parts as [|part' parts'].
      * simpl in Hpath. subst final. by eapply valid_child_ext.
      * by apply Hv2.
Qed.

Lemma segments_not_nil p : segments p ≠ [].
Proof.
  unfold segments. generalize (strings.Trim p "/"). intros s.
  induction s as [|a s IH]; simpl; [done|].
  destruct (Ascii.eqb a "/"); [done|]. by destruct (strings.Split s "/").
Qed.

Lemma upd_arrays_id st : upd_arrays (fun _ => arrays st) st = st.
Proof. by destruct st. Qed.

Lemma make_slice_spec hs st :
  hs ≠ [] →
  make_slice hs st =
    (Ok (Slice (length (arrays st)) (length hs) (length hs)),
     upd_arrays (fun a => a ++ [hs]) st).
Proof. by destruct hs. Qed.

Lemma elems_alloc st s a :
  slice_ok st s → elems (upd_arrays (fun h => h ++ [a]) st) s = elems st s.
Proof.
  intros [[Hl _]|(b & Hb & _)]; unfold elems; simpl.
  - by rewrite Hl.
  - rewrite lookup_app_l by (by eapply lookup_lt_Some). done.
Qed.

Lemma append_spec s xs st :
  slice_ok st s →
  ∃ s' ar',
    append s xs st = (Ok s', upd_arrays (fun _ => ar') st) ∧
    elems (upd_arrays (fun _ => ar') st) s' = elems st s ++ xs.
Proof.
  intros Hok. unfold append. case_decide as Hroom.
  - eexists _, _. split; [reflexivity|].
    unfold elems. simpl.
    destruct Hok as [[Hl Hc]|(a & Ha & Hle)].
    + rewrite Hl, Hc in *. assert (xs = []) as -> by (destruct xs; [done|simpl in Hroom; lia]).
      done.
    + rewrite list_lookup_alter_eq, Ha. simpl.
      rewrite take_app_ge by (rewrite length_take; lia).
      rewrite length_take, Nat.min_l by done.
      replace (len s + length xs - len s) with (length xs + 0) by lia.
      by rewrite take_app_add, take_0, app_nil_r.
  - eexists _, _. split; [reflexivity|].
    unfold elems at 1. simpl. rewrite list_lookup_middle by done. simpl.
    assert (Hlen : length (elems st s) = len s).
    { destruct Hok as [[Hl _]|(a & Ha & Hle)]; unfold elems.
      - by rewrite Hl.
      - rewrite Ha. simpl. rewrite length_take. lia. }
    rewrite app_assoc.
    rewrite take_app_le by (rewrite length_app; lia).
    rewrite take_ge by (rewrite length_app; lia). done.
Qed.

Lemma set_handler_ext nd final method s hm :
  nodes_ext nd (alter (set_handler method s hm) final nd).
Proof.
  intros l n Hl. destruct (decide (l = final)) as [->|Hne].
  - exists (set_handler method s hm n). rewrite list_lookup_alter_eq, Hl. done.
  - exists n. by rewrite list_lookup_alter_ne.
Qed.

Lemma set_handler_wf nd final method s hm :
  wf_nodes nd → wf_nodes (alter (set_handler method s hm) final nd).
Proof.
  intros Hwf l n k c Hl Hc.
  eapply valid_child_ext; [apply set_handler_ext|].
  destruct (decide (l = final)) as [->|Hne].
  - rewrite list_lookup_alter_eq in Hl. destruct (nd !! final) as [n0|] eqn:Hn0; [|done].
    simpl in Hl. injection Hl as <-. by eapply Hwf.
  - rewrite list_lookup_alter_ne in Hl by done. by eapply Hwf.
Qed.

Lemma handle_spec rt method p hs st :
  wf_router st rt → hs ≠ [] →
  ∃ st' final n hm s,
    handle rt method p hs st = (Ok tt, st') ∧
    path_in (nodes st') (Router.root rt)
            (canon <$> segments (Router.prefix rt +:+ p)) final ∧
    nodes st' !! final = Some n ∧ node.handler n = Some hm ∧ hm !! method = Some s ∧
    elems st' s = elems st (Router.middleware rt) ++ hs ∧
    nodes_ext (nodes st) (nodes st') ∧ wf_nodes (nodes st').
Proof.
  intros (Hwf & Hroot & Hmw) Hhs. unfold handle.
  case_decide as Hz; [by destruct hs|].
  rewrite (bind_Ok _ _ _ _ _ (make_slice_spec hs st Hhs)).
  set (st1 := upd_arrays (fun a => a ++ [hs]) st).
  set (hsl := Slice (length (arrays st)) (length hs) (length hs)).
  assert (Hhsl : elems st1 hsl = hs).
  { unfold elems, st1, hsl. simpl. rewrite list_lookup_middle by done. simpl.
    by rewrite firstn_all. }
  destruct (handle_loop_spec (segments (Router.prefix rt +:+ p)) (Router.root rt) st1)
    as (final & nd' & Hloop & Hext & Hwf' & Hpath & Hvalid); [done|done|].
  rewrite (bind_Ok _ _ _ _ _ Hloop).
  set (st2 := upd_nodes (fun _ => nd') st1).
  destruct (Hvalid (segments_not_nil _)) as (n & Hn & Hh).
  destruct (node.handler n) as [hm|] eqn:Hhm; [|done].
  assert (Hfin : ∀ s st3, nodes st3 = nd' →
     (cur <- deref nodes final ;;
      match node.handler cur with
      | None => panic NilMapAssignment
      | Some hm0 =>
          modify (upd_nodes (alter (fun n0 =>
            node.mk (node.path n0) (Some (<[method := s]> hm0))
                    (node.children n0) (node.isParam n0) (node.paramName n0)) final))
      end) st3 = (Ok tt, upd_nodes (alter (set_handler method s hm) final) st3)).
  { intros s st3 H3. rewrite (bind_Ok _ _ _ _ _ (deref_Ok nodes final st3 n ltac:(by rewrite H3))).
    by rewrite Hhm. }
  assert (Hres : ∀ s st3, nodes st3 = nd' →
     path_in (nodes (upd_nodes (alter (set_handler method s hm) final) st3)) (Router.root rt)
        (canon <$> segments (Router.prefix rt +:+ p)) final ∧
     nodes (upd_nodes (alter (set_handler method s hm) final) st3) !! final
        = Some (set_handler method s hm n) ∧
     nodes_ext (nodes st) (nodes (upd_nodes (alter (set_handler method s hm) final) st3)) ∧
     wf_nodes (nodes (upd_nodes (alter (set_handler method s hm) final) st3))).
  { intros s st3 H3. simpl. rewrite H3. split.
    - eapply path_in_ext; [apply set_handler_ext|done].
    - split; [by rewrite list_lookup_alter_eq, Hn|].
      split; [|by apply set_handler_wf].
      eapply nodes_ext_trans; [exact Hext|apply set_handler_ext]. }
  case_decide as Hlen.
  - destruct (append_spec (Router.middleware rt) hs st2) as (s' & ar' & Happ & Hel).
    { destruct Hmw as [[Hl _]|(a & Ha & Hle)]; [lia|]. right. exists a. split; [|done].
      unfold st2, st1. simpl. rewrite lookup_app_l; [done|by eapply lookup_lt_Some]. }
    set (st3 := upd_arrays (fun _ => ar') st2) in *.
    assert (Hinner : (hs0 <- get (fun st0 => elems st0 hsl) ;;
                      append (Router.middleware rt) hs0) st2 = (Ok s', st3)).
    { unfold bind, get. change (elems st2 hsl) with (elems st1 hsl). by rewrite Hhsl. }
    rewrite (bind_Ok _ _ _ _ _ Hinner).
    rewrite (Hfin s' st3 eq_refl).
    destruct (Hres s' st3 eq_refl) as (R1 & R2 & R3 & R4).
    eexists _, final, _, _, s'. split; [reflexivity|].
    split; [exact R1|]. split; [exact R2|]. split; [reflexivity|].
    split; [by rewrite lookup_insert_eq|].
    split; [|done].
    change (elems st3 s' = elems st (Router.middleware rt) ++ hs). rewrite Hel.
    f_equal. change (elems st2 (Router.middleware rt)) with (elems st1 (Router.middleware rt)).
    by apply elems_alloc.
  - rewrite (bind_Ok _ _ st2 hsl st2 eq_refl).
    rewrite (Hfin hsl st2 eq_refl).
    destruct (Hres hsl st2 eq_refl) as (R1 & R2 & R3 & R4).
    eexists _, final, _, _, hsl. split; [reflexivity|].
    split; [exact R1|]. split; [exact R2|]. split; [reflexivity|].
    split; [by rewrite lookup_insert_eq|].
    split; [|done].
    change (elems st1 hsl = elems st (Router.middleware rt) ++ hs). rewrite Hhsl.
    assert (elems st (Router.middleware rt) = []) as ->; [|done].
    unfold elems. replace (len (Router.middleware rt)) with 0 by lia. done.
Qed.

(** ** Resolution *)

Lemma walk_app nd pre : ∀ current params parts cur' params',
  walk nd current pre params = Reached cur' params' →
  walk nd current (pre ++ parts) params = walk nd cur' parts params'.
Proof.
  induction pre as [|part pre IH]; intros current params parts cur' params' H; simpl in *.
  - by injection H as -> ->.
  - destruct (nd !! current) as [cur|]; [|done].
    destruct (node.children cur !! part) as [child|]; [by apply IH|].
    destruct (node.children cur !! "*") as [pc|]; [|done].
    destruct (nd !! pc); [by apply IH|done].
Qed.

Lemma walk_instance nd parts : ∀ reqparts current params final,
  instance_of nd current parts reqparts →
  path_in nd current (canon <$> parts) final →
  walk nd current reqparts params = Reached final (bindings parts reqparts params).
Proof.
  induction parts as [|part parts IH]; intros [|seg reqparts] current params final;
    simpl; try done.
  - by intros _ ->.
  - intros (cur & next & Hcur & Hnext & Hseg & Hrest) (cur0 & next0 & Hcur0 & Hnext0 & Hpath).
    assert (cur0 = cur) as -> by congruence.
    assert (next0 = next) as -> by congruence.
    rewrite Hcur. unfold canon in Hnext.
    destruct (strings.CutColon part) as [name|].
    + destruct Hseg as (Hnone & pc & Hpc & Hname).
      rewrite Hnone, Hnext, Hpc, Hname. by apply IH.
    + subst seg. rewrite Hnext. by apply IH.
Qed.

Lemma resolve_Found rt req st final params n hm s :
  walk (nodes st) (Router.root rt) (segments (URLPath req)) ∅ = Reached final params →
  nodes st !! final = Some n → node.handler n = Some hm → hm !! Method req = Some s →
  resolve rt req st = (Ok (Found s params), st).
Proof.
  intros Hw Hn Hh Hm. unfold resolve, bind, get. rewrite Hw.
  unfold deref. rewrite Hn, Hh. simpl. by rewrite Hm.
Qed.

(** C1, the code at the failing input. On a router with three middleware
    the route [GET /users/:id] is registered: the request [GET /users/42]
    resolves to the middleware followed by the handler of the route, with
    "id" bound to "42". Then [GET /users/me] is registered on the same
    router. [append(r.middleware, handlers...)] has put the chain of the
    first route into the array of the middleware, which has room for one
    more func, and puts the chain of the second route into the same place:
    [GET /users/42] now resolves to the middleware followed by the handler
    of [/users/me], where the chain registered for it ends with the handler
    of [/users/:id]. And on a new router with [GET /users/:id] and
    [GET /users/:name/posts], the request [GET /users/42/posts] resolves to
    the chain of the second route with "42" bound to "id", the name of the
    capture of the first route, where the route registered calls the
    capture "name": the node of a capture keeps the name it was made
    with. *)
Theorem C1_later_registration_changes_a_route :
  fst three_middleware = Ok rt_three ∧
  fst first_route = Ok tt ∧ fst second_route = Ok tt ∧
  (∃ handler,
     resolve rt_three (Req "GET" "/users/42") (snd first_route) =
       (Ok (Found handler (<["id" := "42"]> ∅)), snd first_route) ∧
     elems (snd first_route) handler = [mw_log; mw_log; mw_log; h_user]) ∧
  (∃ handler,
     resolve rt_three (Req "GET" "/users/42") (snd second_route) =
       (Ok (Found handler (<["id" := "42"]> ∅)), snd second_route) ∧
     elems (snd second_route) handler = [mw_log; mw_log; mw_log; h_me]) ∧
  fst named_routes = Ok rt_new ∧
  ∃ handler,
    resolve rt_new (Req "GET" "/users/42/posts") (snd named_routes) =
      (Ok (Found handler (<["id" := "42"]> ∅)), snd named_routes) ∧
    elems (snd named_routes) handler = [h_me].
Proof.
  split; [reflexivity|]. split; [by vm_compute|]. split; [by vm_compute|].
  split; [eexists; split; by vm_compute|].
  split; [eexists; split; by vm_compute|].
  split; [by vm_compute|].
  eexists; split; by vm_compute.
Qed.

(** C4. At every level of the trie the child under the segment itself is
    taken before the child under "*": when the node reached after the
    segments [pre] has both a child under [part] and a wildcard child,
    resolution of a path that goes on with [part] continues below the child
    under [part], and the bindings made so far are passed on without a
    binding for [part]. *)
Theorem C4_literal_child_wins nd root pre part parts params current params' cur child wild :
  walk nd root pre params = Reached current params' →
  nd !! current = Some cur →
  node.children cur !! part = Some child →
  node.children cur !! "*" = Some wild →
  walk nd root (pre ++ part :: parts) params = walk nd child parts params'.
Proof.
  intros Hpre Hcur Hchild _.
  rewrite (walk_app _ _ _ _ _ _ _ Hpre). simpl. by rewrite Hcur, Hchild.
Qed.

(** The example of C4: with [/users/:id] and [/users/me] registered,
    [GET /users/me] finds the handler of [/users/me] and binds nothing. *)
Lemma C4_literal_child_wins_witness :
  ∃ handler,
    resolve rt_new (Req "GET" "/users/me") (snd users_routes) =
      (Ok (Found handler ∅), snd users_routes) ∧
    elems (snd users_routes) handler = [h_me].
Proof.
  assert (Hw : walk (nodes (snd users_routes)) 0 (["users"] ++ "me" :: []) ∅
               = walk (nodes (snd users_routes)) 3 [] ∅).
  { eapply (C4_literal_child_wins _ 0 ["users"] "me" [] ∅ 1 ∅ _ 3 2);
      [vm_compute; reflexivity|vm_compute; reflexivity|vm_compute; reflexivity
      |vm_compute; reflexivity]. }
  exists (Slice 1 1 1). split; [|vm_compute; reflexivity].
  eapply resolve_Found; [exact Hw|vm_compute; reflexivity|reflexivity|vm_compute; reflexivity].
Defined.

(** ** Registration without handlers *)

Lemma panics_only_bind {A B} E (m : M A) (f : A → M B) :
  panics_only E m → (∀ a, panics_only E (f a)) → panics_only E (bind m f).
Proof.
  intros Hm Hf st e st' H. unfold bind in H.
  destruct (m st) as [[a|e0|] st1] eqn:Hm1.
  - by eapply Hf.
  - injection H as <- <-. by eapply Hm.
  - done.
Qed.

Lemma panics_only_ret {A} E (a : A) : panics_only E (ret a).
Proof. by intros st e st' H. Qed.

Lemma panics_only_get {A} E (f : Store → A) : panics_only E (get f).
Proof. by intros st e st' H. Qed.

Lemma panics_only_modify E f : panics_only E (modify f).
Proof. by intros st e st' H. Qed.

Lemma panics_only_deref {A} (E : panic_value → Prop) (heap : Store → list A) p :
  E NilDereference → panics_only E (deref heap p).
Proof.
  intros HE st e st' H. unfold deref in H. destruct (heap st !! p); [done|].
  by injection H as <- <-.
Qed.

Lemma panics_only_unwrap {A} (E : panic_value → Prop) (o : option A) :
  E NilDereference → panics_only E (unwrap o).
Proof.
  intros HE st e st' H. destruct o; [done|]. by injection H as <- <-.
Qed.

Lemma panics_only_panic {A} (E : panic_value → Prop) e :
  E e → panics_only E (@panic A e).
Proof. intros HE st e' st' H. by injection H as <- <-. Qed.

Lemma panics_only_append E s xs : panics_only E (append s xs).
Proof.
  unfold append. case_decide as Hroom.
  - apply panics_only_bind; [apply panics_only_modify|intros; apply panics_only_ret].
  - apply panics_only_bind; [apply panics_only_get|intros].
    apply panics_only_bind; [by intros st e st' H|intros; apply panics_only_ret].
Qed.

Lemma panics_only_handle_part current part : panics_only nil_panic (handle_part current part).
Proof.
  unfold handle_part.
  destruct (match strings.CutColon part with
            | Some name => (true, name, "*")
            | None => (false, EmptyString, part) end) as [[isP pN] key].
  apply panics_only_bind; [apply panics_only_deref; by left|intros cur].
  apply panics_only_bind.
  { destruct (node.children cur !! key); [apply panics_only_ret|].
    apply panics_only_bind; [by intros st e st' H|intros; apply panics_only_modify]. }
  intros _. apply panics_only_bind; [apply panics_only_deref; by left|intros].
  apply panics_only_unwrap. by left.
Qed.

Lemma panics_only_handle_loop parts : ∀ current,
  panics_only nil_panic (handle_loop current parts).
Proof.
  induction parts as [|part parts IH]; intros current; simpl.
  - apply panics_only_ret.
  - apply panics_only_bind; [apply panics_only_handle_part|done].
Qed.

(** C10. Registration with no handler panics with the error that names
    the method and the path, and the store is as it was: no route is
    stored. Registration with at least one handler never panics with that
    error. *)
Theorem C10_registration_without_handlers_panics rt method p st :
  handle rt method p [] st = (Panic (NoHandlers method p), st) ∧
  ∀ h hs method' p', fst (handle rt method p (h :: hs) st) ≠ Panic (NoHandlers method' p').
Proof.
  split; [reflexivity|].
  intros h hs method' p' H.
  destruct (handle rt method p (h :: hs) st) as [o st'] eqn:Hrun. simpl in H. subst o.
  assert (Hp : panics_only nil_panic (handle rt method p (h :: hs))).
  { unfold handle. case_decide as Hd; [done|].
    apply panics_only_bind; [by destruct hs; intros st0 e st0' H0|intros s].
    apply panics_only_bind; [apply panics_only_handle_loop|intros current].
    apply panics_only_bind.
    { case_decide as Hd'; [|apply panics_only_ret].
      apply panics_only_bind; [apply panics_only_get|intros; apply panics_only_append]. }
    intros s'. apply panics_only_bind; [apply panics_only_deref; by left|intros cur].
    destruct (node.handler cur); [apply panics_only_modify|].
    apply panics_only_panic. by right. }
  by destruct (Hp _ _ _ Hrun).
Qed.

(** ** Running code of the monad *)

Lemma bind_assoc {A B C} (m : M A) (f : A → M B) (g : B → M C) st :
  bind (bind m f) g st = bind m (fun a => bind (f a) g) st.
Proof. unfold bind. by destruct (m st) as [[a|e|] st']. Qed.

Lemma assign_Ok c f st x :
  ctxs st !! c = Some x → assign c f st = (Ok tt, upd_ctxs (<[c := f x]>) st).
Proof. intros H. unfold assign. by rewrite (bind_Ok _ _ _ _ _ (deref_Ok ctxs c st x H)). Qed.

Lemma field_Ok {A} c (f : APIContext.t → option A) st x a :
  ctxs st !! c = Some x → f x = Some a → field c f st = (Ok a, st).
Proof.
  intros H Hf. unfold field. rewrite (bind_Ok _ _ _ _ _ (deref_Ok ctxs c st x H)).
  by rewrite Hf.
Qed.

Lemma unwrap_Ok {A} (o : option A) a st : o = Some a → unwrap o st = (Ok a, st).
Proof. by intros ->. Qed.

(** Lookups in a store that was updated. *)
Ltac lookup_solver :=
  simpl;
  repeat first
    [ eassumption
    | reflexivity
    | rewrite list_lookup_insert_eq by (rewrite ?length_insert, ?length_app; simpl;
                                       eauto using lookup_lt_Some with lia)
    | rewrite list_lookup_alter_eq
    | match goal with
      | H : ?l !! ?i = Some _ |- context [?l !! ?i] => rewrite H
      end
    | rewrite lookup_app_l by (rewrite ?length_insert, ?length_app; simpl;
                               eauto using lookup_lt_Some with lia)
    | rewrite list_lookup_middle by (rewrite ?length_insert, ?length_alter; reflexivity)
    | progress simpl ].

Create HintDb mspec.

#[local] Hint Resolve assign_Ok deref_Ok field_Ok unwrap_Ok : mspec.

#[local] Hint Extern 1 (_ !! _ = Some _) => lookup_solver : mspec.

#[local] Hint Extern 1 (_ = Some _) => lookup_solver : mspec.

(** One step of the code at the head of the goal. *)
Ltac mstep :=
  first
    [ rewrite bind_assoc
    | erewrite bind_Ok by first [ reflexivity | solve [eauto 3 with mspec] ] ];
  cbn beta iota.

Ltac mrun := repeat mstep.

Lemma store_eq a b :
  nodes a = nodes b → arrays a = arrays b → ctxs a = ctxs b → pools a = pools b →
  writers a = writers b → cells a = cells b → wgs a = wgs b → now a = now b →
  logs a = logs b → invoked a = invoked b → a = b.
Proof. destruct a, b. simpl. by intros -> -> -> -> -> -> -> -> -> ->. Qed.

(** Two stores built by updates are equal. *)
Ltac store_eq :=
  f_equal; apply store_eq; simpl; rewrite ?list_insert_insert_eq; try reflexivity.

(** ** The request context *)

Lemma setCtx_spec c wr req l st x :
  ctxs st !! c = Some x →
  setCtx c wr req l st =
    (Ok tt,
     upd_ctxs (<[c := APIContext.mk (Some wr) (Some req)
                        (Some (cancelCtx Background (length (cells st))))
                        (Some (length (cells st))) ∅ nil_slice l
                        (Some (length (wgs st)))]>)
       (upd_cells (fun h => h ++ [false]) (upd_wgs (fun h => h ++ [0%Z]) st))).
Proof.
  intros Hx. unfold setCtx, withCancel, context.WithCancel.
  mrun. erewrite assign_Ok by lookup_solver. store_eq.
Qed.

Lemma reset_spec c st x :
  ctxs st !! c = Some x →
  reset c st =
    (Ok tt,
     upd_ctxs (<[c := APIContext.mk None None (Some Background) (APIContext.cancel x)
                        ∅ nil_slice None (Some (length (wgs st)))]>)
       (upd_wgs (fun h => h ++ [0%Z]) st)).
Proof.
  intros Hx. unfold reset.
  mrun. erewrite assign_Ok by lookup_solver. store_eq.
Qed.

#[local] Hint Resolve setCtx_spec reset_spec : mspec.

(** C7. A context that is reset, put back into the pool, taken again and
    set up for a new request shows nothing of the request before: there are
    no path parameters, [Value] returns nothing for every key, there is no
    deadline, and the cancellation state is a new one: the context is
    [WithCancel(Background)] on a cell allocated by this [setCtx], the
    cancel func of the context fires that cell, the cell has not fired and
    never fires by the passing of time, calling the cancel func cancels
    the context, and calling any cancel func made before, that of the
    request before among them, does not. The same holds, for parameters,
    values and deadline, as soon as the context is reset. *)
Theorem C7_reset_clears_context st c x p l wr req lg :
  ctxs st !! c = Some x → pools st !! p = Some l →
  ∃ st1 st2,
    reset c st = (Ok tt, st1) ∧ observes_nothing st1 c ∧
    (Pool_Put p c ;;; c' <- Pool_Get p ;; setCtx c' wr req lg ;;; ret c') st1 = (Ok c, st2) ∧
    observes_nothing st2 c ∧
    (∀ key, ∃ e, GetFromPath c key st2 = (Ok (EmptyString, e), st2)) ∧
    (∀ t, Err c (upd_now (fun _ => t) st2) = (Ok None, upd_now (fun _ => t) st2)) ∧
    ∃ x2 cell,
      ctxs st2 !! c = Some x2 ∧ APIContext.w x2 = Some wr ∧
      APIContext.r x2 = Some req ∧ APIContext.log x2 = lg ∧
      APIContext.ctx x2 = Some (cancelCtx Background cell) ∧
      APIContext.cancel x2 = Some cell ∧
      length (cells st) ≤ cell ∧
      cells st2 !! cell = Some false ∧
      (∀ t, is_done (upd_now (fun _ => t) (snd (context.CancelFunc cell st2))) c) ∧
      (∀ old t, old < length (cells st) →
         Err c (upd_now (fun _ => t) (snd (context.CancelFunc old st2))) =
           (Ok None, upd_now (fun _ => t) (snd (context.CancelFunc old st2)))).
Proof.
  intros Hx Hp.
  assert (Hlt : c < length (ctxs st)) by (by eapply lookup_lt_Some).
  eexists _, _. split; [by apply reset_spec|].
  split.
  { split; [|split].
    - intros key. unfold Value. by mrun.
    - unfold Deadline. by mrun.
    - eexists. split; [lookup_solver|]. done. }
  split.
  { unfold Pool_Put, Pool_Get. mrun. reflexivity. }
  split.
  { split; [|split].
    - intros key. unfold Value. by mrun.
    - unfold Deadline. by mrun.
    - eexists. split; [lookup_solver|]. done. }
  split.
  { intros key. unfold GetFromPath. mrun.
    destruct (String.eqb (Method req) "GET"); eexists; reflexivity. }
  split.
  { intros t. unfold Err. mrun. unfold get. simpl.
    rewrite lookup_app_r by done. by rewrite Nat.sub_diag. }
  eexists _, (length (cells st)).
  split; [lookup_solver|].
  do 6 (split; [done|]).
  split.
  { simpl. rewrite lookup_app_r by done. by rewrite Nat.sub_diag. }
  split.
  { intros t. eexists. unfold Err. mrun. unfold get. simpl.
    rewrite list_lookup_insert_eq by (rewrite length_app; simpl; lia).
    reflexivity. }
  intros old t Hold. unfold Err. mrun. unfold get. simpl.
  rewrite list_lookup_insert_ne by lia.
  rewrite lookup_app_r by done. by rewrite Nat.sub_diag.
Qed.

Lemma C7_reset_clears_context_witness :
  ∃ st1 st2,
    reset 0 used_store = (Ok tt, st1) ∧ observes_nothing st1 0 ∧
    (Pool_Put 0 0 ;;; c' <- Pool_Get 0 ;; setCtx c' 0 (Req "GET" "/") (Some []) ;;; ret c') st1
      = (Ok 0, st2) ∧
    observes_nothing st2 0 ∧
    (∀ key, ∃ e, GetFromPath 0 key st2 = (Ok (EmptyString, e), st2)) ∧
    (∀ t, Err 0 (upd_now (fun _ => t) st2) = (Ok None, upd_now (fun _ => t) st2)) ∧
    ∃ x2 cell,
      ctxs st2 !! 0 = Some x2 ∧ APIContext.w x2 = Some 0 ∧
      APIContext.r x2 = Some (Req "GET" "/") ∧ APIContext.log x2 = Some [] ∧
      APIContext.ctx x2 = Some (cancelCtx Background cell) ∧
      APIContext.cancel x2 = Some cell ∧
      length (cells used_store) ≤ cell ∧
      cells st2 !! cell = Some false ∧
      (∀ t, is_done (upd_now (fun _ => t) (snd (context.CancelFunc cell st2))) 0) ∧
      (∀ old t, old < length (cells used_store) →
         Err 0 (upd_now (fun _ => t) (snd (context.CancelFunc old st2))) =
           (Ok None, upd_now (fun _ => t) (snd (context.CancelFunc old st2)))).
Proof.
  exact (C7_reset_clears_context used_store 0 used_context 0 [] 0 (Req "GET" "/") (Some [])
           eq_refl eq_refl).
Defined.

(** ** Deadlines *)

Lemma Err_alloc cs t cx : context.Err (cs ++ [false]) t cx = context.Err cs t cx.
Proof.
  assert (H : ∀ i, default false ((cs ++ [false]) !! i) = default false (cs !! i)).
  { intros i. destruct (decide (i < length cs)) as [Hlt|Hge].
    - by rewrite lookup_app_l.
    - rewrite lookup_app_r by lia. rewrite (lookup_ge_None_2 cs i) by lia.
      by destruct (i - length cs) as [|[|]]. }
  induction cx as [|parent IH cell|parent IH deadline cell|parent IH key val]; simpl;
    rewrite ?IH, ?H; done.
Qed.

Lemma Err_no_deadline cs t t' cx :
  context.Deadline cx = None → context.Err cs t cx = context.Err cs t' cx.
Proof.
  induction cx as [|parent IH cell|parent IH deadline cell|parent IH key val]; simpl;
    intros Hd; try done.
  - by rewrite IH.
  - by apply IH.
Qed.

Lemma WithTimeout_spec c d st x cx :
  ctxs st !! c = Some x → APIContext.ctx x = Some cx →
  WithTimeout c d st =
    (Ok tt,
     upd_ctxs (<[c := set_cancel (Some (length (cells st)))
                        (set_ctx (Some
                           (match context.Deadline cx with
                            | Some cur =>
                                if (cur <? now st + d)%Z
                                then cancelCtx cx (length (cells st))
                                else timerCtx cx (now st + d) (length (cells st))
                            | None => timerCtx cx (now st + d) (length (cells st))
                            end)) x)]>)
       (upd_cells (fun h => h ++ [false]) st)).
Proof.
  intros Hx Hcx. unfold WithTimeout, context.WithTimeout, context.WithCancel.
  mrun. destruct (context.Deadline cx) as [cur|].
  - destruct (cur <? now st + d)%Z; mrun; erewrite assign_Ok by lookup_solver; store_eq.
  - mrun. erewrite assign_Ok by lookup_solver. store_eq.
Qed.

(** C8 (amended). On a context without deadline whose cancellation signal
    has not fired, the signal fires once [d] has elapsed after
    [WithTimeout(d)]. A second [WithTimeout(d2)] derives from the state that
    carries the first deadline: the signal then fires at the earlier of the
    first deadline and of [d2] after the second call, so that a later call
    can bring the deadline forward and cannot put it off. *)
Theorem C8_WithTimeout_keeps_earlier_deadline st c x cx :
  ctxs st !! c = Some x → APIContext.ctx x = Some cx →
  context.Deadline cx = None → context.Err (cells st) (now st) cx = None →
  (∀ d, ∃ st1, WithTimeout c d st = (Ok tt, st1) ∧ fires_at st1 c (now st + d)) ∧
  (∀ d1 e d2, ∃ st2,
     (WithTimeout c d1 ;;; modify (upd_now (fun t => (t + Z.of_N e)%Z)) ;;;
      WithTimeout c d2) st = (Ok tt, st2) ∧
     fires_at st2 c (Z.min (now st + d1) (now st + Z.of_N e + d2))).
Proof.
  intros Hx Hcx Hdl Herr.
  assert (Hlt : c < length (ctxs st)) by (by eapply lookup_lt_Some).
  assert (Herr1 : ∀ t, context.Err (cells st ++ [false]) t cx = None).
  { intros t. rewrite Err_alloc, (Err_no_deadline _ t (now st)); done. }
  assert (Herr2 : ∀ t, context.Err ((cells st ++ [false]) ++ [false]) t cx = None).
  { intros t. by rewrite Err_alloc. }
  split.
  - intros d. eexists. split; [by eapply WithTimeout_spec|].
    intros t. unfold Err. mrun. unfold get. simpl. eexists. split; [reflexivity|].
    rewrite Hdl. simpl. rewrite Herr1.
    rewrite lookup_app_r by done. rewrite Nat.sub_diag. simpl.
    destruct (Z.leb_spec (now st + d) t); split; (done || lia).
  - intros d1 e d2. eexists. split.
    { erewrite bind_Ok by (eapply WithTimeout_spec; eassumption). mstep.
      eapply WithTimeout_spec; lookup_solver. }
    intros t. unfold Err. mrun. unfold get. simpl. eexists. split; [reflexivity|].
    rewrite Hdl. simpl.
    rewrite !length_app. simpl.
    destruct (Z.ltb_spec (now st + d1) (now st + Z.of_N e + d2)); simpl.
    + rewrite Herr2.
      rewrite (lookup_app_l _ [false]) by (rewrite length_app; simpl; lia).
      rewrite lookup_app_r by done. rewrite Nat.sub_diag. simpl.
      rewrite lookup_app_r by (rewrite length_app; simpl; lia).
      rewrite length_app. simpl. replace (length (cells st) + 1 - (length (cells st) + 1)) with 0 by lia.
      simpl. destruct (Z.leb_spec (now st + d1) t); split; (done || lia).
    + rewrite Herr2.
      rewrite (lookup_app_l _ [false]) by (rewrite length_app; simpl; lia).
      rewrite lookup_app_r by done. rewrite Nat.sub_diag. simpl.
      destruct (Z.leb_spec (now st + d1) t); [split; (done || lia)|].
      rewrite lookup_app_r by (rewrite length_app; simpl; lia).
      rewrite length_app. simpl. replace (length (cells st) + 1 - (length (cells st) + 1)) with 0 by lia.
      simpl. destruct (Z.leb_spec (now st + Z.of_N e + d2) t); split; (done || lia).
Qed.

Lemma C8_WithTimeout_keeps_earlier_deadline_witness :
  (∀ d, ∃ st1, WithTimeout 0 d fresh_store = (Ok tt, st1) ∧
               fires_at st1 0 (now fresh_store + d)) ∧
  (∀ d1 e d2, ∃ st2,
     (WithTimeout 0 d1 ;;; modify (upd_now (fun t => (t + Z.of_N e)%Z)) ;;;
      WithTimeout 0 d2) fresh_store = (Ok tt, st2) ∧
     fires_at st2 0 (Z.min (now fresh_store + d1) (now fresh_store + Z.of_N e + d2))).
Proof.
  exact (C8_WithTimeout_keeps_earlier_deadline fresh_store 0 fresh_context
           (cancelCtx Background 0) eq_refl eq_refl eq_refl eq_refl).
Defined.

(** C8, counterexample. On a new context at time 0, [WithTimeout(1)]
    followed at once by [WithTimeout(10)]: was the second deadline the only
    one, the signal would fire exactly from time 10 on; it has fired at
    time 5. *)
Lemma C8_counterexample :
  ¬ fires_at (snd ((WithTimeout 0 1 ;;; WithTimeout 0 10) fresh_store)) 0 (0 + 10).
Proof.
  intros H. destruct (H 5%Z) as (e & He & Hiff).
  vm_compute in He. injection He as <-.
  destruct Hiff as [H1 _]. specialize (H1 ltac:(done)). lia.
Qed.

(** ** The frame of a handler *)

Lemma descends_refl cx : descends cx cx.
Proof. destruct cx; by left. Qed.

Lemma descends_trans cx1 cx2 cx3 :
  descends cx1 cx2 → descends cx2 cx3 → descends cx1 cx3.
Proof.
  intros H12. induction cx3 as [|p IH cell|p IH d cell|p IH k v]; simpl;
    (intros [<-|H23]; [exact H12|]); try done; right; by apply IH.
Qed.

Lemma cells_le_refl cs : cells_le cs cs.
Proof. by intros i Hi. Qed.

(** A change that leaves the contexts as they are. *)
Lemma evolves_frame c st st' :
  nodes st' = nodes st → arrays st' = arrays st → pools st' = pools st →
  wgs st' = wgs st → ctxs st' = ctxs st →
  cells_le (cells st) (cells st') → (now st ≤ now st')%Z →
  evolves c st st'.
Proof.
  intros Hn Ha Hp Hw Hc Hle Ht. split; try done.
  - by rewrite Hc.
  - intros c' _. by rewrite Hc.
  - intros x Hx. exists x. rewrite Hc. split; [done|]. split; [done|].
    intros cx Hcx. exists cx. split; [done|apply descends_refl].
Qed.

Lemma evolves_refl c st : evolves c st st.
Proof. apply evolves_frame; try done. apply cells_le_refl. Qed.

Lemma evolves_trans c st1 st2 st3 :
  evolves c st1 st2 → evolves c st2 st3 → evolves c st1 st3.
Proof.
  intros [] []. split; try congruence.
  - intros c' Hc'. rewrite ev_other1, ev_other0; done.
  - intros x Hx. destruct (ev_ctx0 x Hx) as (x2 & Hx2 & Hwg2 & Hd2).
    destruct (ev_ctx1 x2 Hx2) as (x3 & Hx3 & Hwg3 & Hd3).
    exists x3. split; [done|]. split; [congruence|].
    intros cx Hcx. destruct (Hd2 cx Hcx) as (cx2 & Hcx2 & Hdesc2).
    destruct (Hd3 cx2 Hcx2) as (cx3 & Hcx3 & Hdesc3).
    exists cx3. split; [done|]. by eapply descends_trans.
  - intros i Hi. by apply ev_cells1, ev_cells0.
  - lia.
Qed.

Lemma hc_ret {A} c (a : A) : handler_code c (ret a).
Proof. intros st o st' H. injection H as <- <-. split; [apply evolves_refl|by split]. Qed.

Lemma hc_panic {A} c e : handler_code c (@panic A e).
Proof. intros st o st' H. injection H as <- <-. split; [apply evolves_refl|by split]. Qed.

Lemma hc_get {A} c (f : Store → A) : handler_code c (get f).
Proof. intros st o st' H. injection H as <- <-. split; [apply evolves_refl|by split]. Qed.

Lemma hc_deref {A} c (heap : Store → list A) p : handler_code c (deref heap p).
Proof.
  intros st o st' H. unfold deref in H.
  destruct (heap st !! p); injection H as <- <-; (split; [apply evolves_refl|by split]).
Qed.

Lemma hc_unwrap {A} c (o : option A) : handler_code c (unwrap o).
Proof. destruct o; [apply hc_ret|apply hc_panic]. Qed.

Lemma hc_bind {A B} c (m : M A) (f : A → M B) :
  handler_code c m → (∀ a, handler_code c (f a)) → handler_code c (bind m f).
Proof.
  intros Hm Hf st o st' H. unfold bind in H.
  destruct (m st) as [[a|e|] st1] eqn:Hm1.
  - destruct (Hm _ _ _ Hm1) as (Hev & Hi & _).
    destruct (Hf a _ _ _ H) as (Hev' & Hi' & Hnb).
    split; [by eapply evolves_trans|]. split; [congruence|done].
  - injection H as <- <-. destruct (Hm _ _ _ Hm1) as (Hev & Hi & _).
    split; [done|]. by split.
  - by destruct (Hm _ _ _ Hm1) as (_ & _ & ?).
Qed.

Lemma hc_field {A} c (f : APIContext.t → option A) : handler_code c (field c f).
Proof. apply hc_bind; [apply hc_deref|intros; apply hc_unwrap]. Qed.

Lemma hc_modify c (f : Store → Store) :
  (∀ st, evolves c st (f st)) → (∀ st, invoked (f st) = invoked st) →
  handler_code c (modify f).
Proof. intros Hf Hi st o st' H. injection H as <- <-. split; [done|]. by split. Qed.

Lemma hc_writer_call c wr e : handler_code c (writer_call wr e).
Proof.
  apply hc_bind; [apply hc_deref|intros _].
  apply hc_modify; [|done]. intros st. apply evolves_frame; try done. apply cells_le_refl.
Qed.

Lemma hc_log_entry c lv msg key value : handler_code c (log_entry c lv msg key value).
Proof.
  apply hc_bind; [apply hc_field|intros l].
  apply hc_modify; [|done]. intros st. apply evolves_frame; try done. apply cells_le_refl.
Qed.

Lemma cells_le_fire cs cell : cells_le cs (<[cell := true]> cs).
Proof.
  intros i Hi. destruct (decide (cell = i)) as [->|Hne].
  - apply list_lookup_insert_eq. by eapply lookup_lt_Some.
  - by rewrite list_lookup_insert_ne.
Qed.

Lemma hc_CancelFunc c cell : handler_code c (context.CancelFunc cell).
Proof.
  apply hc_modify; [|done]. intros st. apply evolves_frame; try done. apply cells_le_fire.
Qed.

Lemma hc_WriteFailure c code msg : handler_code c (WriteFailure c code msg).
Proof.
  unfold WriteFailure.
  apply hc_bind; [apply hc_field|intros wr].
  apply hc_bind; [apply hc_writer_call|intros _].
  apply hc_bind; [apply hc_field|intros wr'].
  apply hc_bind; [apply hc_writer_call|intros _].
  apply hc_bind; [apply hc_deref|intros x].
  destruct (APIContext.cancel x); [apply hc_CancelFunc|apply hc_panic].
Qed.

Lemma hc_SuccessWithData c data : handler_code c (SuccessWithData c data).
Proof.
  unfold SuccessWithData.
  apply hc_bind; [apply hc_field|intros wr].
  apply hc_bind; [apply hc_writer_call|intros _].
  apply hc_bind; [apply hc_field|intros wr'].
  apply hc_writer_call.
Qed.

(** A change of the context at [c] that derives its [ctx]. *)
Lemma evolves_derive c st st' x x' cx cx' :
  nodes st' = nodes st → arrays st' = arrays st → pools st' = pools st →
  wgs st' = wgs st →
  ctxs st !! c = Some x → ctxs st' = <[c := x']> (ctxs st) →
  APIContext.wg x' = APIContext.wg x →
  APIContext.ctx x = Some cx → APIContext.ctx x' = Some cx' → descends cx cx' →
  cells_le (cells st) (cells st') → (now st ≤ now st')%Z →
  evolves c st st'.
Proof.
  intros Hn Ha Hp Hw Hx Hc Hwg Hcx Hcx' Hd Hle Ht.
  assert (Hlt : c < length (ctxs st)) by (by eapply lookup_lt_Some).
  split; try done; rewrite Hc.
  - by rewrite length_insert.
  - intros c' Hc'. by rewrite list_lookup_insert_ne.
  - intros x0 Hx0. assert (x0 = x) as -> by congruence.
    exists x'. split; [by apply list_lookup_insert_eq|]. split; [done|].
    intros cx0 Hcx0. assert (cx0 = cx) as -> by congruence.
    exists cx'. by split.
Qed.

Lemma cells_le_alloc cs more : cells_le cs (cs ++ more).
Proof. intros i Hi. rewrite lookup_app_l; [done|by eapply lookup_lt_Some]. Qed.

Lemma hc_WithTimeout c d : handler_code c (WithTimeout c d).
Proof.
  intros st o st' H.
  destruct (ctxs st !! c) as [x|] eqn:Hx.
  - destruct (APIContext.ctx x) as [cx|] eqn:Hcx.
    + rewrite (WithTimeout_spec c d st x cx Hx Hcx) in H. injection H as <- <-.
      split; [|done].
      eapply (evolves_derive c st _ x _ cx); try done.
      * destruct (context.Deadline cx) as [cur|]; [destruct (cur <? now st + d)%Z|];
          simpl; right; apply descends_refl.
      * simpl. apply cells_le_alloc.
    + unfold WithTimeout, field, bind, deref, unwrap in H. rewrite Hx, Hcx in H.
      injection H as <- <-. split; [apply evolves_refl|done].
  - unfold WithTimeout, field, bind, deref in H. rewrite Hx in H.
    injection H as <- <-. split; [apply evolves_refl|done].
Qed.

Lemma Set_spec c key value st x cx :
  ctxs st !! c = Some x → APIContext.ctx x = Some cx →
  Set_ c key value st =
    (Ok tt, upd_ctxs (<[c := set_ctx (Some (valueCtx cx key value)) x]>) st).
Proof.
  intros Hx Hcx. unfold Set_, context.WithValue. mrun. by erewrite assign_Ok.
Qed.

Lemma hc_Set c key value : handler_code c (Set_ c key value).
Proof.
  intros st o st' H.
  destruct (ctxs st !! c) as [x|] eqn:Hx.
  - destruct (APIContext.ctx x) as [cx|] eqn:Hcx.
    + rewrite (Set_spec c key value st x cx Hx Hcx) in H. injection H as <- <-.
      split; [|done].
      eapply (evolves_derive c st _ x _ cx); try done.
      * simpl. right. apply descends_refl.
      * apply cells_le_refl.
    + unfold Set_, field, bind, deref, unwrap in H. rewrite Hx, Hcx in H.
      injection H as <- <-. split; [apply evolves_refl|done].
  - unfold Set_, field, bind, deref in H. rewrite Hx in H.
    injection H as <- <-. split; [apply evolves_refl|done].
Qed.

Lemma hc_Sleep c d : handler_code c (modify (upd_now (fun t => (t + Z.of_N d)%Z))).
Proof.
  apply hc_modify; [|done]. intros st. apply evolves_frame; try done.
  - apply cells_le_refl.
  - simpl. lia.
Qed.

Lemma hc_call h : ∀ c, handler_code c (call h c).
Proof.
  induction h as [|code msg k IH|data k IH|d k IH|key value k IH|key k IH|key k IH
                  |k IH|k IH|msg err k IH|msg key value k IH|d k IH|msg];
    intros c; simpl.
  - apply hc_ret.
  - apply hc_bind; [apply hc_WriteFailure|done].
  - apply hc_bind; [apply hc_SuccessWithData|done].
  - apply hc_bind; [apply hc_WithTimeout|done].
  - apply hc_bind; [apply hc_Set|done].
  - apply hc_bind; [|done]. apply hc_bind; [apply hc_field|intros; apply hc_ret].
  - apply hc_bind; [|done]. unfold GetFromPath.
    apply hc_bind; [apply hc_deref|intros x].
    apply hc_bind; [apply hc_unwrap|intros req].
    destruct (String.eqb (Method req) "GET"); apply hc_ret.
  - apply hc_bind; [|done]. apply hc_bind; [apply hc_field|intros; apply hc_get].
  - apply hc_bind; [|done]. apply hc_bind; [apply hc_field|intros; apply hc_ret].
  - apply hc_bind; [apply hc_log_entry|done].
  - apply hc_bind; [apply hc_log_entry|done].
  - apply hc_bind; [apply hc_Sleep|done].
  - apply hc_panic.
Qed.

Lemma Err_inv c st o st' :
  Err c st = (o, st') →
  st' = st ∧
  (∀ oe, o = Ok oe →
     ∃ x cx, ctxs st !! c = Some x ∧ APIContext.ctx x = Some cx ∧
             oe = context.Err (cells st) (now st) cx).
Proof.
  unfold Err, field, bind, deref, unwrap, get, ret, panic.
  destruct (ctxs st !! c) as [x|] eqn:Hx.
  - destruct (APIContext.ctx x) as [cx|] eqn:Hcx; intros H; injection H as <- <-;
      (split; [done|]); intros oe Hoe; [|done].
    injection Hoe as <-. by exists x, cx.
  - intros H; injection H as <- <-. split; [done|]. by intros oe Hoe.
Qed.

Lemma Err_Ok c st x cx :
  ctxs st !! c = Some x → APIContext.ctx x = Some cx →
  Err c st = (Ok (context.Err (cells st) (now st) cx), st).
Proof. intros Hx Hcx. unfold Err. by mrun. Qed.

Lemma Err_mono cs cs' t t' cx :
  cells_le cs cs' → (t ≤ t')%Z →
  context.Err cs t cx ≠ None → context.Err cs' t' cx ≠ None.
Proof.
  intros Hle Ht.
  assert (Hcell : ∀ i, default false (cs !! i) = true → default false (cs' !! i) = true).
  { intros i Hi. destruct (cs !! i) as [[]|] eqn:Hi'; try done. by rewrite (Hle i Hi'). }
  induction cx as [|p IH cell|p IH d cell|p IH k v]; simpl; try done.
  - destruct (context.Err cs t p).
    + destruct (context.Err cs' t' p); [done|]. by exfalso; apply IH.
    + destruct (context.Err cs' t' p); [done|].
      destruct (default false (cs !! cell)) eqn:Hc; [|done]. by rewrite (Hcell _ Hc).
  - destruct (context.Err cs t p).
    + destruct (context.Err cs' t' p); [done|]. by exfalso; apply IH.
    + destruct (context.Err cs' t' p); [done|].
      destruct (default false (cs !! cell)) eqn:Hc; [by rewrite (Hcell _ Hc)|].
      destruct (default false (cs' !! cell)); [done|].
      destruct (Z.leb_spec d t); [|done]. destruct (Z.leb_spec d t'); [done|lia].
Qed.

Lemma Err_descends cs t cx cx' :
  descends cx cx' → context.Err cs t cx ≠ None → context.Err cs t cx' ≠ None.
Proof.
  intros Hd Hne. induction cx' as [|p IH cell|p IH d cell|p IH k v]; simpl in *;
    destruct Hd as [<-|Hd]; try done.
  - specialize (IH Hd). by destruct (context.Err cs t p).
  - specialize (IH Hd). by destruct (context.Err cs t p).
  - by apply IH.
Qed.

Lemma is_done_evolves c st st' : evolves c st st' → is_done st c → is_done st' c.
Proof.
  intros Hev [e He]. destruct (Err_inv _ _ _ _ He) as [_ Hinv].
  destruct (Hinv _ eq_refl) as (x & cx & Hx & Hcx & Heq).
  destruct (ev_ctx _ _ _ Hev x Hx) as (x' & Hx' & _ & Hd).
  destruct (Hd cx Hcx) as (cx' & Hcx' & Hdesc).
  assert (Hne : context.Err (cells st') (now st') cx' ≠ None).
  { eapply Err_descends; [done|].
    eapply Err_mono; [apply (ev_cells _ _ _ Hev)|apply (ev_now _ _ _ Hev)|]. by rewrite <- Heq. }
  destruct (context.Err (cells st') (now st') cx') as [e'|] eqn:He'; [|done].
  exists e'. rewrite (Err_Ok c st' x' cx' Hx' Hcx'). by rewrite He'.
Qed.

(** ** The chain of handlers *)

Lemma hc_failure c code msg lmsg lerr :
  handler_code c (Error c lmsg lerr ;;; WriteFailure c code msg).
Proof. apply hc_bind; [apply hc_log_entry|intros; apply hc_WriteFailure]. Qed.

Lemma range_handlers_done hs c st o st' :
  is_done st c → range_handlers hs c st = (o, st') → invoked st' = invoked st.
Proof.
  intros [e He] H. destruct hs as [|h hs]; simpl in H.
  - by injection H as <- <-.
  - rewrite (bind_Ok _ _ _ _ _ He) in H.
    by destruct (hc_failure c 504 "request timeout" "context canceled" "context timeout"
                   _ _ _ H) as (_ & Hi & _).
Qed.

Lemma call_func_invoked h c st o st' :
  call_func h c st = (o, st') →
  invoked st' = invoked st ++ [(c, h)] ∧
  evolves c (upd_invoked (fun l => l ++ [(c, h)]) st) st' ∧ o ≠ Blocked.
Proof.
  unfold call_func. intros H.
  rewrite (bind_Ok _ _ st tt (upd_invoked (fun l => l ++ [(c, h)]) st) eq_refl) in H.
  destruct h as [f|].
  - destruct (hc_call f c _ _ _ H) as (Hev & Hi & Hnb). split; [|done].
    by rewrite Hi.
  - injection H as <- <-. split; [done|]. split; [apply evolves_refl|done].
Qed.

Lemma range_handlers_prefix hs : ∀ c st o st',
  range_handlers hs c st = (o, st') → ∃ more, invoked st' = invoked st ++ more.
Proof.
  induction hs as [|h hs IH]; intros c st o st' H; simpl in H.
  - injection H as <- <-. exists []. by rewrite app_nil_r.
  - unfold bind at 1 in H. destruct (Err c st) as [[oe|e|] st1] eqn:He;
      destruct (Err_inv _ _ _ _ He) as [-> _].
    + destruct oe as [e|].
      * destruct (hc_failure c 504 "request timeout" "context canceled" "context timeout"
                    _ _ _ H) as (_ & Hi & _).
        exists []. by rewrite app_nil_r.
      * unfold bind at 1 in H.
        destruct (call_func h c st) as [[[]|e|] st2] eqn:Hc;
          destruct (call_func_invoked _ _ _ _ _ Hc) as (Hinv & _ & Hnb); try done.
        -- destruct (IH _ _ _ _ H) as [more Hmore]. exists ((c, h) :: more).
           rewrite Hmore, Hinv. by rewrite <- app_assoc.
        -- injection H as <- <-. by exists [(c, h)].
    + injection H as <- <-. exists []. by rewrite app_nil_r.
    + injection H as <- <-. exists []. by rewrite app_nil_r.
Qed.

Lemma range_handlers_stops h rest c st o st' :
  Err c st = (Ok None, st) →
  (∀ o1 st1, call_func h c st = (o1, st1) → is_done st1 c) →
  range_handlers (h :: rest) c st = (o, st') →
  invoked st' = invoked st ++ [(c, h)].
Proof.
  intros He Hdone H. simpl in H. rewrite (bind_Ok _ _ _ _ _ He) in H.
  unfold bind at 1 in H.
  destruct (call_func h c st) as [[[]|e|] st1] eqn:Hc;
    destruct (call_func_invoked _ _ _ _ _ Hc) as (Hinv & _ & Hnb); try done.
  - rewrite (range_handlers_done _ _ _ _ _ (Hdone _ _ eq_refl) H). done.
  - by injection H as <- <-.
Qed.

Lemma Err_covers cs t cx cell :
  covers cx cell → cs !! cell = Some true → context.Err cs t cx ≠ None.
Proof.
  intros Hc Hf. induction cx as [|p IH c|p IH d c|p IH k v]; simpl in *; try done.
  - destruct (context.Err cs t p); [done|]. destruct Hc as [->|Hc].
    + by rewrite Hf.
    + by exfalso; apply IH.
  - destruct (context.Err cs t p); [done|]. destruct Hc as [->|Hc].
    + by rewrite Hf.
    + by exfalso; apply IH.
  - by apply IH.
Qed.

Lemma writer_call_Ok wr e st ws :
  writers st !! wr = Some ws →
  writer_call wr e st = (Ok tt, upd_writers (alter (fun l => l ++ [e]) wr) st).
Proof. intros H. unfold writer_call. by mrun. Qed.

#[local] Hint Resolve writer_call_Ok : mspec.

Lemma WriteFailure_spec c code msg st x wr ws cell :
  ctxs st !! c = Some x → APIContext.w x = Some wr → writers st !! wr = Some ws →
  APIContext.cancel x = Some cell →
  WriteFailure c code msg st =
    (Ok tt,
     upd_cells (<[cell := true]>)
       (upd_writers (<[wr := ws ++ [WriteHeader code; Write (JSONError msg)]]>) st)).
Proof.
  intros Hx Hw Hws Hc. unfold WriteFailure. mrun. rewrite Hc.
  unfold context.CancelFunc, modify. f_equal. apply store_eq; simpl; try reflexivity.
  apply list_eq. intros i. destruct (decide (i = wr)) as [->|Hne].
  - rewrite !list_lookup_alter_eq, Hws. simpl.
    rewrite list_lookup_insert_eq by (by eapply lookup_lt_Some).
    by rewrite <- app_assoc.
  - rewrite !list_lookup_alter_ne by done. by rewrite list_lookup_insert_ne.
Qed.

Lemma SuccessWithData_spec c data st x wr ws :
  ctxs st !! c = Some x → APIContext.w x = Some wr → writers st !! wr = Some ws →
  SuccessWithData c data st =
    (Ok tt, upd_writers (<[wr := ws ++ [WriteHeader 200; Write (JSONData data)]]>) st).
Proof.
  intros Hx Hw Hws. unfold SuccessWithData. mrun.
  erewrite writer_call_Ok by lookup_solver. f_equal. apply store_eq; simpl; try reflexivity.
  apply list_eq. intros i. destruct (decide (i = wr)) as [->|Hne].
  - rewrite !list_lookup_alter_eq, Hws. simpl.
    rewrite list_lookup_insert_eq by (by eapply lookup_lt_Some).
    by rewrite <- app_assoc.
  - rewrite !list_lookup_alter_ne by done. by rewrite list_lookup_insert_ne.
Qed.

Lemma fired_is_done c st x cx cell :
  ctxs st !! c = Some x → APIContext.ctx x = Some cx → covers cx cell →
  cells st !! cell = Some true → is_done st c.
Proof.
  intros Hx Hcx Hcov Hcell.
  assert (Hne : context.Err (cells st) (now st) cx ≠ None) by (by eapply Err_covers).
  destruct (context.Err (cells st) (now st) cx) as [e|] eqn:He; [|done].
  exists e. rewrite (Err_Ok c st x cx Hx Hcx). by rewrite He.
Qed.

Lemma Value_Ok c key st x cx :
  ctxs st !! c = Some x → APIContext.ctx x = Some cx →
  Value c key st = (Ok (context.Value cx key), st).
Proof. intros Hx Hcx. unfold Value. by mrun. Qed.

Lemma Deadline_Ok c st x cx :
  ctxs st !! c = Some x → APIContext.ctx x = Some cx →
  Deadline c st = (Ok (context.Deadline cx), st).
Proof. intros Hx Hcx. unfold Deadline. by mrun. Qed.

Lemma GetFromPath_Ok c key st x req :
  ctxs st !! c = Some x → APIContext.r x = Some req →
  GetFromPath c key st =
    (Ok (if String.eqb (Method req) "GET"
         then (default EmptyString (APIContext.pathParams x !! key), false)
         else (EmptyString, true)), st).
Proof.
  intros Hx Hr. unfold GetFromPath. mrun. by destruct (String.eqb (Method req) "GET").
Qed.

Lemma GetFromPath_nil c key st x :
  ctxs st !! c = Some x → APIContext.r x = None →
  GetFromPath c key st = (Panic NilDereference, st).
Proof. intros Hx Hr. unfold GetFromPath, bind, deref. by rewrite Hx, Hr. Qed.

Lemma log_entry_some c lv msg key value st x lg :
  ctxs st !! c = Some x → APIContext.log x = Some lg →
  log_entry c lv msg key value st =
    (Ok tt, upd_logs (fun ls => ls ++ [Log lv lg msg key value]) st).
Proof. intros Hx Hl. unfold log_entry. by mrun. Qed.

Lemma log_entry_nil c lv msg key value st x :
  ctxs st !! c = Some x → APIContext.log x = None →
  log_entry c lv msg key value st = (Panic NilDereference, st).
Proof. intros Hx Hl. unfold log_entry, field, bind, deref. by rewrite Hx, Hl. Qed.

(** A handler leaves the context set up, and when it comes to a call of
    [WriteFailure] it leaves the context cancelled. The record of the
    calls has no part in it. *)
Lemma call_live h : ∀ c st l o st',
  live st c → call h c (upd_invoked (fun _ => l) st) = (o, st') →
  live st' c ∧ (calls_WriteFailure h c st → is_done st' c).
Proof.
  induction h as [|code msg k IH|data k IH|d k IH|key value k IH|key k IH|key k IH
                  |k IH|k IH|msg err k IH|msg key value k IH|d k IH|msg];
    intros c st l o st' Hlive Hcall;
    pose proof Hlive as (x & wr & ws & cx & cell & Hx & Hw & Hws & Hcx & Hcancel & Hcov & Hcell);
    simpl in Hcall.
  - injection Hcall as <- <-. split; [exact Hlive|done].
  - rewrite (bind_Ok _ _ _ _ _
               (WriteFailure_spec c code msg (upd_invoked (fun _ => l) st)
                  x wr ws cell Hx Hw Hws Hcancel)) in Hcall.
    assert (Hlive1 : live
              (upd_cells (<[cell := true]>)
                 (upd_writers (<[wr := ws ++ [WriteHeader code; Write (JSONError msg)]]>) st)) c).
    { exists x, wr, (ws ++ [WriteHeader code; Write (JSONError msg)]), cx, cell.
      repeat split; try done.
      - simpl. apply list_lookup_insert_eq. by eapply lookup_lt_Some.
      - simpl. by rewrite length_insert. }
    destruct (IH c _ l o st' Hlive1 Hcall) as [Hl _]. split; [exact Hl|]. intros _.
    destruct (hc_call k c _ _ _ Hcall) as [Hev _].
    eapply is_done_evolves; [exact Hev|].
    eapply (fired_is_done c _ x cx cell); try done.
    simpl. by apply list_lookup_insert_eq.
  - rewrite (bind_Ok _ _ _ _ _
               (SuccessWithData_spec c data (upd_invoked (fun _ => l) st) x wr ws Hx Hw Hws))
      in Hcall.
    assert (Hlive1 : live
              (upd_writers (<[wr := ws ++ [WriteHeader 200; Write (JSONData data)]]>) st) c).
    { exists x, wr, (ws ++ [WriteHeader 200; Write (JSONData data)]), cx, cell.
      repeat split; try done.
      simpl. apply list_lookup_insert_eq. by eapply lookup_lt_Some. }
    destruct (IH c _ l o st' Hlive1 Hcall) as [Hl Hd]. split; [exact Hl|].
    intros Hc. apply Hd. simpl in Hc. unfold returns in Hc.
    by rewrite (SuccessWithData_spec c data st x wr ws Hx Hw Hws) in Hc.
  - rewrite (bind_Ok _ _ _ _ _
               (WithTimeout_spec c d (upd_invoked (fun _ => l) st) x cx Hx Hcx)) in Hcall.
    assert (Hlt : c < length (ctxs st)) by (by eapply lookup_lt_Some).
    match type of (WithTimeout_spec c d st x cx Hx Hcx) with
    | _ = (_, ?S) => assert (Hlive1 : live S c)
    end.
    { eexists _, wr, ws, _, (length (cells st)).
      split; [simpl; by apply list_lookup_insert_eq|].
      repeat split; try done.
      - simpl. destruct (context.Deadline cx) as [cur|];
          [destruct (cur <? now st + d)%Z|]; simpl; by left.
      - simpl. rewrite length_app. simpl. lia. }
    destruct (IH c _ l o st' Hlive1 Hcall) as [Hl Hd]. split; [exact Hl|].
    intros Hc. apply Hd. simpl in Hc. unfold returns in Hc.
    by rewrite (WithTimeout_spec c d st x cx Hx Hcx) in Hc.
  - rewrite (bind_Ok _ _ _ _ _
               (Set_spec c key value (upd_invoked (fun _ => l) st) x cx Hx Hcx)) in Hcall.
    assert (Hlt : c < length (ctxs st)) by (by eapply lookup_lt_Some).
    assert (Hlive1 : live
              (upd_ctxs (<[c := set_ctx (Some (valueCtx cx key value)) x]>) st) c).
    { eexists _, wr, ws, _, cell.
      split; [simpl; by apply list_lookup_insert_eq|].
      repeat split; done. }
    destruct (IH c _ l o st' Hlive1 Hcall) as [Hl Hd]. split; [exact Hl|].
    intros Hc. apply Hd. simpl in Hc. unfold returns in Hc.
    by rewrite (Set_spec c key value st x cx Hx Hcx) in Hc.
  - rewrite (bind_Ok _ _ _ _ _
               (Value_Ok c key (upd_invoked (fun _ => l) st) x cx Hx Hcx)) in Hcall.
    destruct (IH _ c st l o st' Hlive Hcall) as [Hl Hd]. split; [exact Hl|].
    intros Hc. apply Hd. simpl in Hc. unfold returns in Hc.
    by rewrite (Value_Ok c key st x cx Hx Hcx) in Hc.
  - destruct (APIContext.r x) as [req|] eqn:Hr.
    + rewrite (bind_Ok _ _ _ _ _
                 (GetFromPath_Ok c key (upd_invoked (fun _ => l) st) x req Hx Hr)) in Hcall.
      destruct (IH _ c st l o st' Hlive Hcall) as [Hl Hd]. split; [exact Hl|].
      intros Hc. apply Hd. simpl in Hc. unfold returns in Hc.
      by rewrite (GetFromPath_Ok c key st x req Hx Hr) in Hc.
    + rewrite (bind_Panic _ _ _ _ _
                 (GetFromPath_nil c key (upd_invoked (fun _ => l) st) x Hx Hr)) in Hcall.
      injection Hcall as <- <-. split; [exact Hlive|].
      intros Hc. simpl in Hc. unfold returns in Hc.
      by rewrite (GetFromPath_nil c key st x Hx Hr) in Hc.
  - rewrite (bind_Ok _ _ _ _ _ (Err_Ok c (upd_invoked (fun _ => l) st) x cx Hx Hcx))
      in Hcall.
    destruct (IH _ c st l o st' Hlive Hcall) as [Hl Hd]. split; [exact Hl|].
    intros Hc. apply Hd. simpl in Hc. unfold returns in Hc.
    by rewrite (Err_Ok c st x cx Hx Hcx) in Hc.
  - rewrite (bind_Ok _ _ _ _ _
               (Deadline_Ok c (upd_invoked (fun _ => l) st) x cx Hx Hcx)) in Hcall.
    destruct (IH _ c st l o st' Hlive Hcall) as [Hl Hd]. split; [exact Hl|].
    intros Hc. apply Hd. simpl in Hc. unfold returns in Hc.
    by rewrite (Deadline_Ok c st x cx Hx Hcx) in Hc.
  - unfold Error in Hcall. destruct (APIContext.log x) as [lg|] eqn:Hlog.
    + rewrite (bind_Ok _ _ _ _ _
                 (log_entry_some c LevelError msg "error" err (upd_invoked (fun _ => l) st)
                    x lg Hx Hlog)) in Hcall.
      destruct (IH c (upd_logs (fun ls => ls ++ [Log LevelError lg msg "error" err]) st)
                  l o st' Hlive Hcall) as [Hl Hd].
      split; [exact Hl|].
      intros Hc. apply Hd. simpl in Hc. unfold returns, Error in Hc.
      by rewrite (log_entry_some c LevelError msg "error" err st x lg Hx Hlog) in Hc.
    + rewrite (bind_Panic _ _ _ _ _
                 (log_entry_nil c LevelError msg "error" err (upd_invoked (fun _ => l) st)
                    x Hx Hlog)) in Hcall.
      injection Hcall as <- <-. split; [exact Hlive|].
      intros Hc. simpl in Hc. unfold returns, Error in Hc.
      by rewrite (log_entry_nil c LevelError msg "error" err st x Hx Hlog) in Hc.
  - unfold Info in Hcall. destruct (APIContext.log x) as [lg|] eqn:Hlog.
    + rewrite (bind_Ok _ _ _ _ _
                 (log_entry_some c LevelInfo msg key value (upd_invoked (fun _ => l) st)
                    x lg Hx Hlog)) in Hcall.
      destruct (IH c (upd_logs (fun ls => ls ++ [Log LevelInfo lg msg key value]) st)
                  l o st' Hlive Hcall) as [Hl Hd].
      split; [exact Hl|].
      intros Hc. apply Hd. simpl in Hc. unfold returns, Info in Hc.
      by rewrite (log_entry_some c LevelInfo msg key value st x lg Hx Hlog) in Hc.
    + rewrite (bind_Panic _ _ _ _ _
                 (log_entry_nil c LevelInfo msg key value (upd_invoked (fun _ => l) st)
                    x Hx Hlog)) in Hcall.
      injection Hcall as <- <-. split; [exact Hlive|].
      intros Hc. simpl in Hc. unfold returns, Info in Hc.
      by rewrite (log_entry_nil c LevelInfo msg key value st x Hx Hlog) in Hc.
  - change (call k c (upd_invoked (fun _ => l) (upd_now (fun t => (t + Z.of_N d)%Z) st))
            = (o, st')) in Hcall.
    destruct (IH c (upd_now (fun t => (t + Z.of_N d)%Z) st) l o st' Hlive Hcall) as [Hl Hd].
    split; [exact Hl|]. intros Hc. by apply Hd.
  - injection Hcall as <- <-. split; [exact Hlive|done].
Qed.

Lemma call_func_live h c st o st' :
  live st c → call_func h c st = (o, st') →
  live st' c ∧
  ∀ f, h = Some f → calls_WriteFailure f c st → is_done st' c.
Proof.
  intros Hlive Hc. unfold call_func in Hc.
  rewrite (bind_Ok _ _ st tt (upd_invoked (fun _ => invoked st ++ [(c, h)]) st) eq_refl)
    in Hc.
  destruct h as [f|].
  - destruct (call_live f c st _ o st' Hlive Hc) as [Hl Hd].
    split; [exact Hl|]. by intros ? [= <-].
  - injection Hc as <- <-. split; [exact Hlive|done].
Qed.

(** The handlers [pre] have returned and the context is not cancelled:
    the loop goes on with the handlers after them. *)
Lemma range_handlers_app pre : ∀ rest c st st1,
  live st c →
  range_handlers pre c st = (Ok tt, st1) → Err c st1 = (Ok None, st1) →
  live st1 c ∧ range_handlers (pre ++ rest) c st = range_handlers rest c st1.
Proof.
  induction pre as [|h pre IH]; intros rest c st st1 Hlive Hr He.
  - injection Hr as <-. done.
  - simpl in Hr. simpl. unfold bind at 1 in Hr. unfold bind at 1.
    destruct (Err c st) as [[oe|e|] s0] eqn:Herr;
      destruct (Err_inv _ _ _ _ Herr) as [-> _]; try done.
    destruct oe as [e|].
    + destruct (hc_failure c 504 "request timeout" "context canceled" "context timeout"
                  _ _ _ Hr) as (Hev & _ & _).
      assert (Hd : is_done st1 c).
      { eapply is_done_evolves; [exact Hev|]. by exists e. }
      destruct Hd as [e' He']. congruence.
    + unfold bind at 1 in Hr. unfold bind at 1.
      destruct (call_func h c st) as [[[]|e|] s1] eqn:Hc; try done.
      destruct (call_func_live h c st _ _ Hlive Hc) as [Hl _].
      by apply IH.
Qed.

(** C6. On a context set up for a request, [WriteFailure(code, msg)]
    writes the status [code] and the payload with the member "errors" set
    to [msg], and fires the cancellation signal of the context. The signal
    stays fired whatever the handler does next, and a handler whose turn
    comes when the signal has fired is not called, nor is any handler after
    it. So when a handler of the chain, at whatever place in the chain,
    comes to a call of [WriteFailure], at whatever place in its body, also
    after [WithTimeout] or [Set] have replaced the [ctx] of the context, it
    is the last handler of the chain that is called. A handler leaves the
    context set up. [SuccessWithData(data)] writes the status 200 and the
    payload and leaves the cancellation state as it is, so that the next
    handler of the chain is called. *)
Theorem C6_WriteFailure_stops_the_chain st c :
  live st c →
  (∀ code msg, ∃ st',
     WriteFailure c code msg st = (Ok tt, st') ∧
     response st' c =
       (fun ws => ws ++ [WriteHeader code; Write (JSONError msg)]) <$> response st c ∧
     is_done st' c) ∧
  (∀ k o st', is_done st c → call k c st = (o, st') → is_done st' c) ∧
  (∀ hs o st', is_done st c → range_handlers hs c st = (o, st') →
     invoked st' = invoked st) ∧
  (∀ h o st', call h c st = (o, st') →
     live st' c ∧ (calls_WriteFailure h c st → is_done st' c)) ∧
  (∀ h rest o st',
     Err c st = (Ok None, st) → calls_WriteFailure h c st →
     range_handlers (Some h :: rest) c st = (o, st') →
     invoked st' = invoked st ++ [(c, Some h)]) ∧
  (∀ pre h rest st1 o st',
     range_handlers pre c st = (Ok tt, st1) → Err c st1 = (Ok None, st1) →
     calls_WriteFailure h c st1 →
     range_handlers (pre ++ Some h :: rest) c st = (o, st') →
     invoked st' = invoked st1 ++ [(c, Some h)]) ∧
  (∀ data, ∃ st',
     SuccessWithData c data st = (Ok tt, st') ∧
     response st' c =
       (fun ws => ws ++ [WriteHeader 200; Write (JSONData data)]) <$> response st c ∧
     ∀ t, fst (Err c (upd_now (fun _ => t) st')) = fst (Err c (upd_now (fun _ => t) st))) ∧
  (∀ data h rest o st',
     Err c st = (Ok None, st) →
     range_handlers (Some (CallSuccessWithData data Return) :: h :: rest) c st = (o, st') →
     (c, h) ∈ invoked st').
Proof.
  intros Hlive.
  pose proof Hlive as (x & wr & ws & cx & cell & Hx & Hw & Hws & Hcx & Hcancel & Hcov & Hcell).
  assert (Hresp : response st c = Some ws).
  { unfold response. rewrite Hx. simpl. rewrite Hw. simpl. done. }
  assert (Hstop : ∀ s h rest o st',
            live s c → Err c s = (Ok None, s) → calls_WriteFailure h c s →
            range_handlers (Some h :: rest) c s = (o, st') →
            invoked st' = invoked s ++ [(c, Some h)]).
  { intros s h rest o st' Hl He Hc Hr.
    eapply range_handlers_stops; [done| |done].
    intros o1 st1 Hcf.
    destruct (call_func_live _ _ _ _ _ Hl Hcf) as [_ Hd]. by eapply Hd. }
  split; [|split; [|split; [|split; [|split; [|split; [|split]]]]]].
  - intros code msg. eexists. split; [by eapply WriteFailure_spec|].
    split.
    + unfold response. simpl. rewrite Hx. simpl. rewrite Hw. simpl.
      rewrite list_lookup_insert_eq by (by eapply lookup_lt_Some). by rewrite Hws.
    + eapply (fired_is_done c _ x cx cell); try done.
      simpl. by apply list_lookup_insert_eq.
  - intros k o st' Hd Hk. eapply is_done_evolves; [|done].
    by destruct (hc_call k c _ _ _ Hk).
  - intros hs o st' Hd Hr. by eapply range_handlers_done.
  - intros h o st' Hcall.
    apply (call_live h c st (invoked st) o st' Hlive).
    by replace (upd_invoked (fun _ => invoked st) st) with st by (by destruct st).
  - intros h rest o st'. by apply Hstop.
  - intros pre h rest st1 o st' Hpre He Hc Hr.
    destruct (range_handlers_app pre (Some h :: rest) c st st1 Hlive Hpre He) as [Hl Heq].
    rewrite Heq in Hr. by eapply Hstop.
  - intros data. eexists. split; [by eapply SuccessWithData_spec|].
    split.
    + unfold response. simpl. rewrite Hx. simpl. rewrite Hw. simpl.
      rewrite list_lookup_insert_eq by (by eapply lookup_lt_Some). by rewrite Hws.
    + intros t. by rewrite !(Err_Ok c _ x cx) by done.
  - intros data h rest o st' He Hr.
    simpl in Hr. rewrite (bind_Ok _ _ _ _ _ He) in Hr.
    unfold call_func at 1 in Hr.
    rewrite bind_assoc in Hr.
    rewrite (bind_Ok _ _ st tt
               (upd_invoked (fun l => l ++ [(c, Some (CallSuccessWithData data Return))]) st)
               eq_refl) in Hr.
    simpl in Hr. rewrite bind_assoc in Hr.
    rewrite (bind_Ok _ _ _ _ _
               (SuccessWithData_spec c data
                  (upd_invoked (fun l => l ++ [(c, Some (CallSuccessWithData data Return))]) st)
                  x wr ws Hx Hw Hws)) in Hr.
    rewrite (bind_Ok _ _ _ tt _ eq_refl) in Hr.
    match type of Hr with (bind _ _ ?S = _) => set (st1 := S) in * end.
    assert (He1 : Err c st1 = (Ok None, st1)).
    { destruct (Err_inv _ _ _ _ He) as [_ Hinv].
      destruct (Hinv _ eq_refl) as (x' & cx' & Hx' & Hcx' & Heq).
      rewrite (Err_Ok c st1 x' cx') by done. simpl. by rewrite <- Heq. }
    rewrite (bind_Ok _ _ _ _ _ He1) in Hr.
    unfold bind at 1 in Hr.
    destruct (call_func h c st1) as [[[]|e|] st2] eqn:Hc;
      destruct (call_func_invoked _ _ _ _ _ Hc) as (Hinv & _ & Hnb); try done.
    + destruct (range_handlers_prefix _ _ _ _ _ Hr) as [more Hmore].
      rewrite Hmore, Hinv. set_solver.
    + injection Hr as <- <-. rewrite Hinv. set_solver.
Qed.

Lemma live_fresh : live fresh_store 0.
Proof.
  exists fresh_context, 0, [], (cancelCtx Background 0), 0.
  repeat split; try reflexivity. { simpl. by left. } simpl. lia.
Qed.

Lemma C6_WriteFailure_stops_the_chain_witness :
  live fresh_store 0 ∧
  ∃ st1,
    range_handlers [mw_log; h_me] 0 fresh_store = (Ok tt, st1) ∧
    Err 0 st1 = (Ok None, st1) ∧
    ∀ rest o st',
      range_handlers ([mw_log; h_me] ++ h_fail :: rest) 0 fresh_store = (o, st') →
      invoked st' = invoked st1 ++ [(0, h_fail)].
Proof.
  split; [exact live_fresh|].
  eexists. split; [vm_compute; reflexivity|]. split; [vm_compute; reflexivity|].
  intros rest o st'.
  refine (proj1 (proj2 (proj2 (proj2 (proj2 (proj2
            (C6_WriteFailure_stops_the_chain fresh_store 0 live_fresh))))))
            [mw_log; h_me] _ rest _ o st' _ _ _).
  - vm_compute. reflexivity.
  - vm_compute. reflexivity.
  - vm_compute. exact I.
Defined.

(** ** A job whose context is already cancelled *)

Lemma worker_skips c handlers st :
  is_done st c → worker (Job.mk (Some c) handlers) st = (Ok tt, st).
Proof. intros [e He]. unfold worker. simpl. by rewrite (bind_Ok _ _ _ _ _ He). Qed.

(** C2, the code at the failing input. The cancel func of a context is
    called, then a job for the context is submitted and received by a
    worker. The worker skips the job and leaves the store as it is: no
    handler is called, but no response is written either, and the WaitGroup
    counter of the context stays at 1, so that [wait] blocks for ever. Had
    the worker called the closure of the job, the closure would have written
    the one 504 response and brought the counter back to 0. *)
Theorem C2_cancelled_job_is_skipped :
  ∃ job st,
    (context.CancelFunc 0 ;;; Submit 0 (Slice 0 1 1)) one_handler_store = (Ok job, st) ∧
    is_done st 0 ∧
    worker job st = (Ok tt, st) ∧
    invoked st = [] ∧ response st 0 = Some [] ∧ wgs st !! 0 = Some 1%Z ∧
    wait 0 st = (Blocked, st) ∧
    ∃ st',
      wrappedHandler (Job.HandlerFunc job) 0 st = (Ok tt, st') ∧
      invoked st' = [] ∧
      response st' 0 = Some [WriteHeader 504; Write (JSONError "request timeout")] ∧
      wgs st' !! 0 = Some 0%Z.
Proof.
  eexists _, _. split; [reflexivity|].
  split; [by exists Canceled|].
  split; [reflexivity|].
  repeat (split; [reflexivity|]).
  eexists. split; [reflexivity|]. by repeat split.
Qed.

(** ** The dispatcher *)

Lemma resolve_nodes rt req st st' :
  nodes st' = nodes st → fst (resolve rt req st') = fst (resolve rt req st).
Proof.
  intros Hn. unfold resolve, bind, get. rewrite Hn.
  destruct (walk (nodes st) (Router.root rt) (segments (URLPath req)) ∅); try done.
  unfold deref. rewrite Hn. destruct (nodes st !! current); [|done].
  by destruct (node.handler t ≫= _).
Qed.

Lemma resolve_state rt req st : snd (resolve rt req st) = st.
Proof.
  unfold resolve, bind, get.
  destruct (walk (nodes st) (Router.root rt) (segments (URLPath req)) ∅); try done.
  unfold deref. destruct (nodes st !! current); [|done].
  by destruct (node.handler t ≫= _).
Qed.

Lemma resolve_at rt req st st' res :
  nodes st' = nodes st → fst (resolve rt req st) = Ok res →
  resolve rt req st' = (Ok res, st').
Proof.
  intros Hn Hr. rewrite <- (resolve_nodes rt req st st' Hn) in Hr.
  rewrite <- (resolve_state rt req st') at 2. rewrite <- Hr. by destruct (resolve rt req st').
Qed.

Lemma log_entry_Ok c lv msg key value st x lg :
  ctxs st !! c = Some x → APIContext.log x = Some lg →
  log_entry c lv msg key value st =
    (Ok tt, upd_logs (fun ls => ls ++ [Log lv lg msg key value]) st).
Proof. intros Hx Hl. unfold log_entry. by mrun. Qed.

#[local] Hint Resolve log_entry_Ok WriteFailure_spec : mspec.

Lemma walk_NoChild nd root pre part post cur n params :
  walk nd root pre ∅ = Reached cur params → nd !! cur = Some n →
  node.children n !! part = None → node.children n !! "*" = None →
  walk nd root (pre ++ part :: post) ∅ = NoChild.
Proof.
  intros Hpre Hn Hp Hs. rewrite (walk_app _ _ _ _ _ _ _ Hpre). simpl.
  by rewrite Hn, Hp, Hs.
Qed.

Lemma set_up_spec rt wr req st ws :
  ready st rt wr → writers st !! wr = Some ws →
  ∃ c st1,
    ServeHTTP_setup rt wr req st = (Ok c, st1) ∧ nodes st1 = nodes st ∧
    arrays st1 = arrays st ∧
    dispatched st1 rt c wr (ws ++ [content_type]).
Proof.
  intros (l & ws0 & lg & Hp & Hhead & Hws0 & Hlog) Hws.
  destruct rt as [root mw pool lg0 prefix]. simpl in *. subst lg0.
  assert (Hwlt : wr < length (writers st)) by (by eapply lookup_lt_Some).
  assert (Hplt : pool < length (pools st)) by (by eapply lookup_lt_Some).
  unfold ServeHTTP_setup, Pool_Get. simpl.
  destruct l as [|c l].
  - eexists _, _. split; [mrun; reflexivity|].
    split; [reflexivity|]. split; [reflexivity|].
    eexists _, _, _, _, _. split; [lookup_solver|]. simpl.
    split; [reflexivity|]. split; [by rewrite list_lookup_alter_eq, Hws|].
    split; [reflexivity|]. split; [reflexivity|]. split; [reflexivity|].
    split; [by apply list_lookup_middle|]. exact Hp.
  - destruct (Hhead c eq_refl) as [x Hx].
    assert (Hclt : c < length (ctxs st)) by (by eapply lookup_lt_Some).
    eexists _, _. split; [mrun; reflexivity|].
    split; [reflexivity|]. split; [reflexivity|].
    eexists _, _, _, _, _. split; [lookup_solver|]. simpl.
    split; [reflexivity|]. split; [by rewrite list_lookup_alter_eq, Hws|].
    split; [reflexivity|]. split; [reflexivity|]. split; [reflexivity|].
    split; [by apply list_lookup_middle|]. by apply list_lookup_insert_eq.
Qed.

Lemma failure_spec rt c wr ws st code msg lmsg lerr :
  dispatched st rt c wr ws →
  ∃ st',
    (Error c lmsg lerr ;;; WriteFailure c code msg ;;; ret (c, @None Job.t)) st
      = (Ok (c, None), st') ∧
    writers st' !! wr = Some (ws ++ [WriteHeader code; Write (JSONError msg)]) ∧
    ∃ st2, ServeHTTP_deferred rt c st' = (Ok tt, st2) ∧ writers st2 = writers st'.
Proof.
  intros (x & cell & p & lg & l & Hx & Hw & Hws & Hc & Hl & Hwg & Hp & Hpool).
  assert (Hwlt : wr < length (writers st)) by (by eapply lookup_lt_Some).
  assert (Hplt : Router.pool rt < length (pools st)) by (by eapply lookup_lt_Some).
  unfold Error.
  eexists. split; [mrun; reflexivity|].
  split; [simpl; by apply list_lookup_insert_eq|].
  unfold ServeHTTP_deferred, wait, WaitGroup_Wait, Pool_Put.
  eexists. split; [mrun; reflexivity|]. reflexivity.
Qed.

Lemma append_Ok s xs st :
  ∃ s' f, append s xs st = (Ok s', upd_arrays f st).
Proof.
  unfold append. case_decide as Hroom.
  - eexists _, _. reflexivity.
  - eexists _, _. unfold bind, get, allocArray, ret. reflexivity.
Qed.

Lemma found_spec rt c wr ws st handler params :
  dispatched st rt c wr ws →
  ∃ st',
    ServeHTTP_continue rt c (Found handler params) st
      = (Ok (c, Some (Job.mk (Some c) handler)), st') ∧
    writers st' = writers st.
Proof.
  intros (x & cell & p & lg & l & Hx & Hw & Hws & Hc & Hl & Hwg & Hp & Hpool).
  assert (Hplt : p < length (wgs st)) by (by eapply lookup_lt_Some).
  unfold ServeHTTP_continue, setHandlers, setMiddleware, Submit, WaitGroup_Add.
  mstep. mstep. mstep. mstep. mstep. mstep. rewrite ?bind_assoc.
  match goal with |- context [bind (append ?s ?xs) _ ?S] =>
    destruct (append_Ok s xs S) as (s' & f & Happ) end.
  rewrite (bind_Ok _ _ _ _ _ Happ).
  mrun. eexists. split; [reflexivity|]. reflexivity.
Qed.

(** C5. A request is answered by the dispatcher with exactly one of two
    failures, or its job is submitted. When some segment of the path has,
    at its level of the trie, no child under the segment and no child under
    "*", the response has status 400 with the message "bad gateway". When
    every segment resolves and the node reached has no chain under the
    method of the request, the response has status 405 with the message
    "method not allowed". When every segment resolves and the node reached
    has a chain under the method, the job with that chain is submitted and
    the dispatcher writes no failure. *)
Theorem C5_resolution_failures st rt wr req :
  ready st rt wr →
  (∀ pre part post cur n params,
     segments (URLPath req) = pre ++ part :: post →
     walk (nodes st) (Router.root rt) pre ∅ = Reached cur params →
     nodes st !! cur = Some n →
     node.children n !! part = None → node.children n !! "*" = None →
     answers_failure st rt wr req 400 "bad gateway") ∧
  (∀ cur n params,
     walk (nodes st) (Router.root rt) (segments (URLPath req)) ∅ = Reached cur params →
     nodes st !! cur = Some n →
     node.handler n ≫= (.!! Method req) = None →
     answers_failure st rt wr req 405 "method not allowed") ∧
  (∀ cur n params handler,
     walk (nodes st) (Router.root rt) (segments (URLPath req)) ∅ = Reached cur params →
     nodes st !! cur = Some n →
     node.handler n ≫= (.!! Method req) = Some handler →
     submits st rt wr req handler).
Proof.
  intros Hready.
  assert (Hws : ∃ ws, writers st !! wr = Some ws)
    by (destruct Hready as (l & ws & lg & _ & _ & Hws & _); by exists ws).
  destruct Hws as [ws Hws].
  destruct (set_up_spec rt wr req st ws Hready Hws)
    as (c & st1 & Hset & Hnodes & Harrays & Hdisp).
  assert (Hfail : ∀ res code msg lmsg,
    fst (resolve rt req st) = Ok res →
    ServeHTTP_continue rt c res = (Error c lmsg lmsg ;;; WriteFailure c code msg ;;; ret (c, None)) →
    answers_failure st rt wr req code msg).
  { intros res code msg lmsg Hres Hcont.
    destruct (failure_spec rt c wr _ st1 code msg lmsg lmsg Hdisp)
      as (st2 & Hrun & Hwr & st3 & Hdef & Hwr3).
    assert (Hd : ServeHTTP_dispatch rt wr req st = (Ok (c, None), st2)).
    { unfold ServeHTTP_dispatch. rewrite (bind_Ok _ _ _ _ _ Hset).
      rewrite (bind_Ok _ _ _ _ _ (resolve_at rt req st st1 res Hnodes Hres)).
      by rewrite Hcont. }
    split.
    - exists c, st2. split; [done|]. rewrite Hwr, Hws. simpl. by rewrite <- app_assoc.
    - exists st3. unfold ServeHTTP. rewrite (bind_Ok _ _ _ _ _ Hset).
      assert (Hbody : ServeHTTP_continue rt c res st1 = (Ok (c, None), st2))
        by (by rewrite Hcont).
      unfold defer.
      rewrite (bind_Ok _ _ _ _ _ (resolve_at rt req st st1 res Hnodes Hres)).
      rewrite (bind_Ok _ _ _ _ _ Hbody). simpl. unfold ret at 1.
      rewrite (bind_Ok _ _ _ _ _ Hdef). split; [done|].
      rewrite Hwr3, Hwr, Hws. simpl. by rewrite <- app_assoc. }
  split; [|split].
  - intros pre part post cur n params Hseg Hpre Hn Hpart Hstar.
    apply (Hfail RouteNotFound 400%Z "bad gateway" "handler not found"); [|done].
    unfold resolve, bind, get. rewrite Hseg.
    by rewrite (walk_NoChild _ _ _ _ _ _ _ _ Hpre Hn Hpart Hstar).
  - intros cur n params Hwalk Hn Hnone.
    apply (Hfail MethodNotAllowed 405%Z "method not allowed" "method not allowed"); [|done].
    unfold resolve, bind, get. rewrite Hwalk. unfold deref. rewrite Hn. by rewrite Hnone.
  - intros cur n params handler Hwalk Hn Hsome.
    assert (Hres : fst (resolve rt req st) = Ok (Found handler params)).
    { unfold resolve, bind, get. rewrite Hwalk. unfold deref. rewrite Hn. by rewrite Hsome. }
    destruct (found_spec rt c wr _ st1 handler params Hdisp) as (st2 & Hrun & Hwr).
    exists c, st2. split.
    + unfold ServeHTTP_dispatch. rewrite (bind_Ok _ _ _ _ _ Hset).
      by rewrite (bind_Ok _ _ _ _ _ (resolve_at rt req st st1 _ Hnodes Hres)).
    + rewrite Hwr. destruct Hdisp as (x & cell & p & lg & l & _ & _ & Hws1 & _).
      by rewrite Hws1, Hws.
Qed.

Lemma ready_serving : ready serving_store rt_new 0.
Proof.
  exists [], [], []. repeat split; try reflexivity. intros c Hc. done.
Qed.

Lemma C5_resolution_failures_witness :
  answers_failure serving_store rt_new 0 (Req "GET" "/missing") 400 "bad gateway" ∧
  answers_failure serving_store rt_new 0 (Req "POST" "/users/42") 405 "method not allowed" ∧
  submits serving_store rt_new 0 (Req "GET" "/users/42") (Slice 0 1 1).
Proof.
  split; [|split].
  - eapply (proj1 (C5_resolution_failures serving_store rt_new 0 (Req "GET" "/missing")
                     ready_serving) [] "missing" [] 0);
      [reflexivity|reflexivity|reflexivity|vm_compute; reflexivity|vm_compute; reflexivity].
  - eapply (proj1 (proj2 (C5_resolution_failures serving_store rt_new 0
                            (Req "POST" "/users/42") ready_serving)) 2);
      [vm_compute; reflexivity|reflexivity|vm_compute; reflexivity].
  - eapply (proj2 (proj2 (C5_resolution_failures serving_store rt_new 0
                            (Req "GET" "/users/42") ready_serving)) 2);
      [vm_compute; reflexivity|reflexivity|vm_compute; reflexivity].
Defined.

(** ** Dispatchers and workers *)

Lemma count_app {A} (f : A → bool) l1 l2 : count f (l1 ++ l2) = count f l1 + count f l2.
Proof. induction l1 as [|x l1 IH]; simpl; [done|]. rewrite IH. lia. Qed.

Lemma count_insert {A} (f : A → bool) l i x y :
  l !! i = Some x →
  count f (<[i := y]> l) + (if f x then 1 else 0) = count f l + (if f y then 1 else 0).
Proof.
  revert i. induction l as [|z l IH]; intros [|i] H; simpl in *; try done.
  - injection H as ->. lia.
  - specialize (IH i H). lia.
Qed.


Lemma count_None l c : Forall (fun w => w = None) l → count (worker_for c) l = 0.
Proof. induction 1 as [|w l -> _ IH]; simpl; [done|]. by rewrite IH. Qed.

Lemma pools_insert_perm (ps : list (list loc)) p l c :
  ps !! p = Some l → mjoin (<[p := c :: l]> ps) ≡ₚ c :: mjoin ps.
Proof.
  revert p. induction ps as [|l0 ps IH]; intros [|p] H; simpl in *; try done.
  - by injection H as ->.
  - rewrite (IH p H). by rewrite Permutation_middle.
Qed.

Lemma pools_remove_perm (ps : list (list loc)) p l c :
  ps !! p = Some (c :: l) → mjoin ps ≡ₚ c :: mjoin (<[p := l]> ps).
Proof.
  intros H. rewrite <- (pools_insert_perm (<[p := l]> ps) p l c).
  - rewrite list_insert_insert_eq. by rewrite list_insert_id.
  - apply list_lookup_insert_eq. by eapply lookup_lt_Some.
Qed.

(** What a job does to the store. *)

Lemma evolves_upd_invoked c f st : evolves c st (upd_invoked f st).
Proof. apply evolves_frame; try done. apply cells_le_refl. Qed.

Lemma hc_Err c : handler_code c (Err c).
Proof. apply hc_bind; [apply hc_field|intros; apply hc_get]. Qed.

Lemma range_handlers_evolves hs : ∀ c st o st',
  range_handlers hs c st = (o, st') → evolves c st st' ∧ o ≠ Blocked.
Proof.
  induction hs as [|h hs IH]; intros c st o st' H; simpl in H.
  - injection H as <- <-. split; [apply evolves_refl|done].
  - unfold bind at 1 in H. destruct (Err c st) as [[oe|e|] st1] eqn:He;
      destruct (Err_inv _ _ _ _ He) as [-> _].
    + destruct oe as [e|].
      * destruct (hc_failure c 504 "request timeout" "context canceled" "context timeout"
                    _ _ _ H) as (Hev & _ & Hnb). by split.
      * unfold bind at 1 in H.
        destruct (call_func h c st) as [[[]|e|] st2] eqn:Hc;
          destruct (call_func_invoked _ _ _ _ _ Hc) as (_ & Hev & Hnb); try done.
        -- destruct (IH _ _ _ _ H) as [Hev' Hnb'].
           split; [|done].
           eapply evolves_trans; [apply evolves_upd_invoked|].
           by eapply evolves_trans.
        -- injection H as <- <-. split; [|done].
           eapply evolves_trans; [apply evolves_upd_invoked|done].
    + injection H as <- <-. split; [apply evolves_refl|done].
    + by destruct (hc_Err c _ _ _ He) as (_ & _ & ?).
Qed.

(** The closure of a job whose chain is run decrements the WaitGroup of
    the context by one when the chain returns, be it at its end or at the
    handler where the cancellation was seen. *)
Lemma wrappedHandler_frame handlers c st st' x p n :
  ctxs st !! c = Some x → APIContext.wg x = Some p → wgs st !! p = Some n →
  (1 ≤ n)%Z →
  wrappedHandler handlers c st = (Ok tt, st') →
  ∃ st1, evolves c st st1 ∧ st' = upd_wgs (<[p := (n - 1)%Z]>) st1.
Proof.
  intros Hx Hwg Hn Hge H. unfold wrappedHandler in H.
  rewrite (bind_Ok _ _ _ _ _ (field_Ok c APIContext.wg st x p Hx Hwg)) in H.
  unfold defer in H.
  change ((hs <- get (fun st0 => elems st0 handlers) ;; range_handlers hs c) st)
    with (range_handlers (elems st handlers) c st) in H.
  destruct (range_handlers (elems st handlers) c st) as [[[]|e|] st1] eqn:Hr;
    destruct (range_handlers_evolves _ _ _ _ _ Hr) as [Hev Hnb]; try done.
  - exists st1. split; [done|].
    unfold WaitGroup_Done, WaitGroup_Add in H.
    assert (Hn1 : wgs st1 !! p = Some n) by (by rewrite (ev_wgs _ _ _ Hev)).
    rewrite bind_assoc in H.
    rewrite (bind_Ok _ _ _ _ _ (deref_Ok wgs p st1 n Hn1)) in H.
    destruct (Z.ltb_spec (n + -1) 0); [lia|].
    replace (n + -1)%Z with (n - 1)%Z in H by lia.
    by injection H as <-.
  - by destruct (WaitGroup_Done p st1) as [[[]|e'|] st2].
Qed.

Lemma worker_frame job c st st' x p n :
  Job.Context job = Some c →
  ctxs st !! c = Some x → APIContext.wg x = Some p → wgs st !! p = Some n →
  (1 ≤ n)%Z →
  worker job st = (Ok tt, st') →
  st' = st ∨ ∃ st1, evolves c st st1 ∧ st' = upd_wgs (<[p := (n - 1)%Z]>) st1.
Proof.
  intros Hc Hx Hwg Hn Hge H. unfold worker in H. rewrite Hc in H.
  unfold bind at 1 in H. destruct (Err c st) as [[oe|e|] st1] eqn:He;
    destruct (Err_inv _ _ _ _ He) as [-> _]; try done.
  destruct oe as [e|].
  - left. by injection H as <-.
  - right. by eapply wrappedHandler_frame.
Qed.

(** The deferred func returns only when the counter is zero. *)
Lemma deferred_frame rt c st st' x p n :
  ctxs st !! c = Some x → APIContext.wg x = Some p → wgs st !! p = Some n →
  ServeHTTP_deferred rt c st = (Ok tt, st') →
  n = 0%Z ∧
  ∃ l x',
    pools st !! Router.pool rt = Some l ∧
    pools st' = <[Router.pool rt := c :: l]> (pools st) ∧
    ctxs st' = <[c := x']> (ctxs st) ∧
    wgs st' = wgs st ++ [0%Z].
Proof.
  intros Hx Hwg Hn H. unfold ServeHTTP_deferred, wait, WaitGroup_Wait in H.
  rewrite bind_assoc in H.
  rewrite (bind_Ok _ _ _ _ _ (field_Ok c APIContext.wg st x p Hx Hwg)) in H.
  rewrite bind_assoc in H.
  rewrite (bind_Ok _ _ _ _ _ (deref_Ok wgs p st n Hn)) in H.
  destruct (Z.eqb_spec n 0) as [->|Hne]; [|done]. split; [done|].
  rewrite (bind_Ok _ _ st tt st eq_refl) in H.
  rewrite (bind_Ok _ _ _ _ _ (reset_spec c st x Hx)) in H.
  unfold Pool_Put, bind, deref in H. simpl in H.
  destruct (pools st !! Router.pool rt) as [l|] eqn:Hl; [|done].
  injection H as <-. by eexists _, _.
Qed.

Lemma set_up_frame rt wr req st ws :
  ready st rt wr → writers st !! wr = Some ws →
  ∃ c st1,
    ServeHTTP_setup rt wr req st = (Ok c, st1) ∧ nodes st1 = nodes st ∧
    dispatched st1 rt c wr (ws ++ [content_type]) ∧
    arrived st st1 (Router.pool rt) c 0.
Proof.
  intros (l & ws0 & lg & Hp & Hhead & Hws0 & Hlog) Hws.
  destruct rt as [root mw pool lg0 prefix]. simpl in *. subst lg0.
  assert (Hwlt : wr < length (writers st)) by (by eapply lookup_lt_Some).
  assert (Hplt : pool < length (pools st)) by (by eapply lookup_lt_Some).
  unfold ServeHTTP_setup, Pool_Get. simpl.
  destruct l as [|c l].
  - eexists _, _. split; [mrun; reflexivity|].
    split; [reflexivity|]. split.
    { eexists _, _, _, _, _. split; [lookup_solver|]. simpl.
      split; [reflexivity|]. split; [by rewrite list_lookup_alter_eq, Hws|].
      split; [reflexivity|]. split; [reflexivity|]. split; [reflexivity|].
      split; [by apply list_lookup_middle|]. exact Hp. }
    split; [left; simpl; by split|].
    split; [simpl; rewrite !length_insert, length_app; lia|].
    split.
    { intros c' Hne. simpl. rewrite !list_lookup_insert_ne by done.
      destruct (decide (c' < length (ctxs st))) as [Hlt|Hge].
      - by rewrite lookup_app_l.
      - rewrite lookup_ge_None_2 by (rewrite length_app; simpl; lia).
        by rewrite lookup_ge_None_2 by lia. }
    eexists. split; [lookup_solver|]. by split.
  - destruct (Hhead c eq_refl) as [x Hx].
    assert (Hclt : c < length (ctxs st)) by (by eapply lookup_lt_Some).
    eexists _, _. split; [mrun; reflexivity|].
    split; [reflexivity|]. split.
    { eexists _, _, _, _, _. split; [lookup_solver|]. simpl.
      split; [reflexivity|]. split; [by rewrite list_lookup_alter_eq, Hws|].
      split; [reflexivity|]. split; [reflexivity|]. split; [reflexivity|].
      split; [by apply list_lookup_middle|]. by apply list_lookup_insert_eq. }
    split; [right; simpl; by apply pools_remove_perm|].
    split; [simpl; rewrite !length_insert; lia|].
    split; [intros c' Hne; simpl; by rewrite !list_lookup_insert_ne by done|].
    eexists. split; [lookup_solver|]. by split.
Qed.

Lemma failure_frame rt c wr ws st code msg lmsg lerr :
  dispatched st rt c wr ws →
  ∃ st',
    (Error c lmsg lerr ;;; WriteFailure c code msg ;;; ret (c, @None Job.t)) st
      = (Ok (c, None), st') ∧
    ctxs st' = ctxs st ∧ wgs st' = wgs st ∧ pools st' = pools st.
Proof.
  intros (x & cell & p & lg & l & Hx & Hw & Hws & Hc & Hl & Hwg & Hp & Hpool).
  unfold Error. eexists. split; [mrun; reflexivity|]. done.
Qed.

Lemma found_frame rt c wr ws st handler params :
  dispatched st rt c wr ws →
  ∃ st' x x' p,
    ServeHTTP_continue rt c (Found handler params) st
      = (Ok (c, Some (Job.mk (Some c) handler)), st') ∧
    pools st' = pools st ∧
    ctxs st !! c = Some x ∧ ctxs st' = <[c := x']> (ctxs st) ∧
    APIContext.wg x' = APIContext.wg x ∧ APIContext.wg x = Some p ∧
    wgs st' = <[p := 1%Z]> (wgs st).
Proof.
  intros (x & cell & p & lg & l & Hx & Hw & Hws & Hc & Hl & Hwg & Hp & Hpool).
  assert (Hplt : p < length (wgs st)) by (by eapply lookup_lt_Some).
  unfold ServeHTTP_continue, setHandlers, setMiddleware, Submit, WaitGroup_Add.
  mstep. mstep. mstep. mstep. mstep. mstep. rewrite ?bind_assoc.
  match goal with |- context [bind (append ?s ?xs) _ ?S] =>
    destruct (append_Ok s xs S) as (s' & f & Happ) end.
  rewrite (bind_Ok _ _ _ _ _ Happ).
  mrun. eexists _, x, _, p. split; [reflexivity|]. simpl.
  split; [done|]. split; [done|].
  split; [by rewrite !list_insert_insert_eq|]. done.
Qed.

Lemma dispatch_frame rt wr req st c oj st' :
  ready st rt wr →
  ServeHTTP_dispatch rt wr req st = (Ok (c, oj), st') →
  arrived st st' (Router.pool rt) c (counted oj) ∧
  ∀ job, oj = Some job → Job.Context job = Some c.
Proof.
  intros Hready H.
  assert (Hws : ∃ ws, writers st !! wr = Some ws)
    by (destruct Hready as (l & ws & lg & _ & _ & Hws & _); by exists ws).
  destruct Hws as [ws Hws].
  destruct (set_up_frame rt wr req st ws Hready Hws)
    as (c0 & st1 & Hset & Hnodes & Hdisp & Harr).
  unfold ServeHTTP_dispatch in H. rewrite (bind_Ok _ _ _ _ _ Hset) in H.
  unfold bind at 1 in H.
  pose proof (resolve_state rt req st1) as Hst.
  destruct (resolve rt req st1) as [[res|e|] st2]; simpl in Hst; subst st2; [|done..].
  destruct Harr as (Hpools & Hlen & Hother & x1 & Hx1 & Hwg1 & Hwgs1).
  assert (Hfail : ∀ code msg lmsg,
    (Error c0 lmsg lmsg ;;; WriteFailure c0 code msg ;;; ret (c0, None)) st1 = (Ok (c, oj), st') →
    arrived st st' (Router.pool rt) c (counted oj) ∧
    ∀ job, oj = Some job → Job.Context job = Some c).
  { intros code msg lmsg Hrun.
    destruct (failure_frame rt c0 wr _ st1 code msg lmsg lmsg Hdisp)
      as (st2 & Hrun2 & Hc2 & Hw2 & Hp2).
    rewrite Hrun2 in Hrun. injection Hrun as <- <- <-.
    split; [|done]. unfold arrived. rewrite Hc2, Hw2, Hp2.
    split; [done|]. split; [done|]. split; [done|]. by exists x1. }
  destruct res as [| |handler params]; simpl in H.
  - by eapply Hfail.
  - by eapply Hfail.
  - destruct (found_frame rt c0 wr _ st1 handler params Hdisp)
      as (st2 & x & x' & p & Hrun2 & Hp2 & Hx & Hc2 & Hwg' & Hwg & Hw2).
    simpl in Hrun2. rewrite Hrun2 in H. injection H as <- <- <-.
    assert (x = x1) as -> by congruence.
    assert (p = length (wgs st)) as -> by congruence.
    split; [|by intros job [= <-]].
    unfold arrived. rewrite Hc2, Hw2, Hp2.
    split; [done|]. split; [by rewrite length_insert|].
    split; [intros c' Hne; by rewrite list_lookup_insert_ne by done; apply Hother|].
    exists x'. split; [apply list_lookup_insert_eq; by eapply lookup_lt_Some|].
    split; [congruence|].
    rewrite Hwgs1. replace (length (wgs st)) with (length (wgs st) + 0) at 1 by lia.
    by rewrite insert_app_r.
Qed.

Lemma thread_ctx_inj_index (l : list thread) i j a b :
  NoDup (thread_ctx <$> l) → l !! i = Some a → l !! j = Some b →
  thread_ctx a = thread_ctx b → i = j.
Proof.
  intros Hnd Ha Hb Hab.
  eapply (NoDup_lookup _ i j (thread_ctx a) Hnd); rewrite list_lookup_fmap.
  - by rewrite Ha.
  - rewrite Hb. simpl. by rewrite Hab.
Qed.

Lemma elem_of_insert_thread (l : list thread) i old new t :
  NoDup (thread_ctx <$> l) → l !! i = Some old → t ∈ <[i := new]> l →
  t = new ∨ (t ∈ l ∧ thread_ctx t ≠ thread_ctx old).
Proof.
  intros Hnd Hi Ht. apply list_elem_of_lookup in Ht as [j Hj].
  destruct (decide (i = j)) as [->|Hne].
  - left. rewrite list_lookup_insert_eq in Hj by (by eapply lookup_lt_Some). congruence.
  - right. rewrite list_lookup_insert_ne in Hj by done.
    split; [by eapply list_elem_of_lookup_2|].
    intros Heq. apply Hne. symmetry. by eapply thread_ctx_inj_index.
Qed.

Lemma elem_of_delete_thread (l : list thread) i old t :
  NoDup (thread_ctx <$> l) → l !! i = Some old → t ∈ delete i l →
  t ∈ l ∧ thread_ctx t ≠ thread_ctx old.
Proof.
  intros Hnd Hi Ht. apply list_elem_of_lookup in Ht as [j Hj].
  destruct (decide (j < i)) as [Hlt|Hge].
  - rewrite list_lookup_delete_lt in Hj by done.
    split; [by eapply list_elem_of_lookup_2|].
    intros Heq. assert (i = j) by (symmetry; by eapply thread_ctx_inj_index). lia.
  - rewrite list_lookup_delete_ge in Hj by lia.
    split; [by eapply list_elem_of_lookup_2|].
    intros Heq. assert (i = S j) by (symmetry; by eapply thread_ctx_inj_index). lia.
Qed.

Lemma fmap_insert_thread (l : list thread) i old new :
  l !! i = Some old → thread_ctx new = thread_ctx old →
  thread_ctx <$> <[i := new]> l = thread_ctx <$> l.
Proof.
  intros Hi Heq. rewrite list_fmap_insert. apply list_insert_id.
  rewrite list_lookup_fmap, Hi. simpl. by rewrite Heq.
Qed.

Lemma elem_of_thread_ctx (l : list thread) t : t ∈ l → thread_ctx t ∈ thread_ctx <$> l.
Proof. intros H. by apply list_elem_of_fmap_2. Qed.

Lemma not_elem_of_delete_thread (l : list thread) i old c :
  l !! i = Some old → c ∉ thread_ctx <$> delete i l →
  c = thread_ctx old ∨ c ∉ thread_ctx <$> l.
Proof.
  intros Hi Hc. destruct (decide (c = thread_ctx old)) as [|Hne]; [by left|right].
  intros Hin. apply Hc. apply list_elem_of_fmap in Hin as (t & -> & Ht).
  apply list_elem_of_fmap_2.
  apply list_elem_of_lookup in Ht as [j Hj].
  assert (j ≠ i) by (intros ->; congruence).
  destruct (decide (j < i)).
  - apply (list_elem_of_lookup_2 _ j). by rewrite list_lookup_delete_lt.
  - apply (list_elem_of_lookup_2 _ (pred j)). rewrite list_lookup_delete_ge by lia.
    by replace (S (pred j)) with j by lia.
Qed.

(** A thread keeps what it owns when the store changes elsewhere. *)
Lemma owns_transfer s s' t :
  thread_ctx t ∉ mjoin (pools (store s')) →
  (∀ x, ctxs (store s) !! thread_ctx t = Some x →
     ∃ x', ctxs (store s') !! thread_ctx t = Some x' ∧
           APIContext.wg x' = APIContext.wg x) →
  (∀ x p n, ctxs (store s) !! thread_ctx t = Some x → APIContext.wg x = Some p →
     wgs (store s) !! p = Some n → wgs (store s') !! p = Some n) →
  queued s' (thread_ctx t) = queued s (thread_ctx t) →
  owns s t → owns s' t.
Proof.
  intros Hpool Hctx Hwgs Hq (_ & x & p & n & Hx & Hwg & Hn & Ht).
  split; [done|]. destruct (Hctx x Hx) as (x' & Hx' & Hwg').
  exists x', p, n. split; [done|]. split; [congruence|].
  split; [by eapply Hwgs|].
  destruct t as [rt c job|rt c]; simpl in *; by rewrite Hq.
Qed.

Lemma owns_lt s t : owns s t → thread_ctx t < length (ctxs (store s)).
Proof. intros (_ & x & p & n & Hx & _). by eapply lookup_lt_Some. Qed.

(** *** The invariant holds in every reachable state *)

Lemma inv_initial s : initial s → inv s.
Proof.
  intros (Hj & Ht & Hw & Hnd & Hal). split; try done.
  - rewrite Ht. constructor.
  - rewrite Ht. intros t H. by apply elem_of_nil in H.
  - rewrite Ht. intros t1 t2 x1 x2 H. by apply elem_of_nil in H.
  - intros c _. unfold queued. rewrite Hj. simpl. by apply count_None.
Qed.

(** The steps that leave the store, or all of it but the clock, as it is
    and move no job in or out. *)
Lemma inv_same s s' :
  pools (store s') = pools (store s) → ctxs (store s') = ctxs (store s) →
  wgs (store s') = wgs (store s) → threads s' = threads s →
  (∀ c, queued s' c = queued s c) →
  inv s → inv s'.
Proof.
  intros Hp Hc Hw Ht Hq []. split; rewrite ?Hp, ?Hc, ?Ht; try done.
  - intros t Hin. eapply (owns_transfer s); rewrite ?Hp, ?Hc, ?Hw; eauto.
    by destruct (inv_owned0 t Hin).
  - intros c Hc'. rewrite Hq. by apply inv_free0.
Qed.

Lemma inv_tick s d :
  inv s →
  inv (mkSystem (upd_now (fun t => (t + Z.of_N d)%Z) (store s))
         (jobs s) (workers s) (threads s)).
Proof. by apply inv_same. Qed.

Lemma inv_receive s k job rest :
  workers s !! k = Some None → jobs s = job :: rest →
  inv s →
  inv (mkSystem (store s) rest (<[k := Some job]> (workers s)) (threads s)).
Proof.
  intros Hk Hj. apply inv_same; try done.
  intros c. unfold queued. simpl. rewrite Hj. simpl.
  pose proof (count_insert (worker_for c) (workers s) k None (Some job) Hk) as H.
  simpl in H. lia.
Qed.

(** A job is put into the buffer, or handed to a worker. *)
Lemma inv_sent s s' i rt c job :
  threads s !! i = Some (Sending rt c job) →
  store s' = store s → threads s' = <[i := Waiting rt c]> (threads s) →
  (∀ c', queued s' c' = queued s c' + (if job_for c' job then 1 else 0)) →
  inv s → inv s'.
Proof.
  intros Hi Hst Hth Hq Hinv. destruct Hinv.
  assert (Hin : Sending rt c job ∈ threads s) by (by eapply list_elem_of_lookup_2).
  destruct (inv_owned0 _ Hin) as (Hpool & x & p & n & Hx & Hwg & Hn & Hjob & -> & Hq0).
  simpl in *.
  assert (Hfor : ∀ c', job_for c' job = bool_decide (c' = c)).
  { intros c'. unfold job_for. rewrite Hjob.
    apply bool_decide_ext. split; [by intros [= ->]|by intros ->]. }
  assert (Hctxs : thread_ctx <$> threads s' = thread_ctx <$> threads s).
  { rewrite Hth. by eapply fmap_insert_thread. }
  split; rewrite ?Hst, ?Hctxs; try done.
  - intros t Ht. rewrite Hth in Ht.
    apply (elem_of_insert_thread _ _ _ _ _ inv_threads0 Hi) in Ht as [->|[Ht Hne]].
    + split; [by rewrite Hst|]. exists x, p, 1%Z. rewrite Hst. simpl.
      repeat (split; [done|]). rewrite Hq, Hq0, Hfor.
      rewrite bool_decide_eq_true_2 by done. lia.
    + simpl in Hne. eapply (owns_transfer s); rewrite ?Hst; eauto.
      * by destruct (inv_owned0 t Ht).
      * rewrite Hq, Hfor. rewrite bool_decide_eq_false_2 by done. lia.
  - intros t1 t2 x1 x2 Ht1 Ht2 Hx1 Hx2 Heq.
    assert (Hold : ∀ t, t ∈ threads s' → ∃ t0, t0 ∈ threads s ∧ thread_ctx t0 = thread_ctx t).
    { intros t Ht. rewrite Hth in Ht.
      apply (elem_of_insert_thread _ _ _ _ _ inv_threads0 Hi) in Ht as [->|[Ht Hne]].
      - by exists (Sending rt c job).
      - by exists t. }
    destruct (Hold t1 Ht1) as (t1' & Ht1' & E1).
    destruct (Hold t2 Ht2) as (t2' & Ht2' & E2).
    rewrite <- E1, <- E2 in *. by eapply inv_wgs0.
  - intros c' Hc'. rewrite Hq, (inv_free0 c' Hc'), Hfor.
    rewrite bool_decide_eq_false_2; [done|].
    intros ->. apply Hc'. by apply (elem_of_thread_ctx _ (Sending rt c job)).
Qed.

Lemma inv_send s i rt c job :
  threads s !! i = Some (Sending rt c job) →
  inv s →
  inv (mkSystem (store s) (jobs s ++ [job]) (workers s)
         (<[i := Waiting rt c]> (threads s))).
Proof.
  intros Hi. eapply inv_sent; try done.
  intros c'. unfold queued. simpl. rewrite count_app. simpl. lia.
Qed.

Lemma inv_hand s i k rt c job :
  threads s !! i = Some (Sending rt c job) →
  jobs s = [] → workers s !! k = Some None →
  inv s →
  inv (mkSystem (store s) [] (<[k := Some job]> (workers s))
         (<[i := Waiting rt c]> (threads s))).
Proof.
  intros Hi Hj Hk. eapply inv_sent; try done.
  intros c'. unfold queued. simpl. rewrite Hj. simpl.
  pose proof (count_insert (worker_for c') (workers s) k None (Some job) Hk) as H.
  simpl in H. lia.
Qed.

Lemma queued_finish s k job st' c :
  workers s !! k = Some (Some job) →
  queued (mkSystem st' (jobs s) (<[k := None]> (workers s)) (threads s)) c
    + (if job_for c job then 1 else 0) = queued s c.
Proof.
  intros Hk. unfold queued. simpl.
  pose proof (count_insert (worker_for c) (workers s) k (Some job) None Hk) as H.
  simpl in H. lia.
Qed.

Lemma inv_finish s k job st' :
  workers s !! k = Some (Some job) →
  worker job (store s) = (Ok tt, st') →
  inv s →
  inv (mkSystem st' (jobs s) (<[k := None]> (workers s)) (threads s)).
Proof.
  intros Hk Hrun Hinv.
  set (s' := mkSystem st' (jobs s) (<[k := None]> (workers s)) (threads s)).
  assert (Hq : ∀ c, queued s' c + (if job_for c job then 1 else 0) = queued s c)
    by (intros c; by apply queued_finish).
  destruct (Job.Context job) as [c|] eqn:Hjob.
  2: { unfold worker in Hrun. rewrite Hjob in Hrun. injection Hrun as <-.
       apply (inv_same s); try done. intros c. specialize (Hq c).
       unfold job_for in Hq. rewrite Hjob in Hq.
       rewrite bool_decide_eq_false_2 in Hq by done. lia. }
  assert (Hfor : ∀ c', job_for c' job = bool_decide (c' = c)).
  { intros c'. unfold job_for. rewrite Hjob.
    apply bool_decide_ext. split; [by intros [= ->]|by intros ->]. }
  assert (Hqc : queued s' c + 1 = queued s c).
  { specialize (Hq c). rewrite Hfor, bool_decide_eq_true_2 in Hq; done. }
  assert (Hqo : ∀ c', c' ≠ c → queued s' c' = queued s c').
  { intros c' Hne. specialize (Hq c'). rewrite Hfor, bool_decide_eq_false_2 in Hq by done.
    lia. }
  destruct Hinv.
  assert (Howner : c ∈ thread_ctx <$> threads s).
  { destruct (decide (c ∈ thread_ctx <$> threads s)) as [|Hn]; [done|].
    specialize (inv_free0 c Hn). lia. }
  apply list_elem_of_fmap in Howner as (t & Hct & Ht).
  destruct (inv_owned0 t Ht) as (Hpool & x & p & n & Hx & Hwg & Hn & Hkind).
  assert (Htc : thread_ctx t = c) by done. clear Hct.
  rewrite Htc in Hpool, Hx.
  assert (Hge : (1 ≤ n)%Z).
  { destruct t as [rt c0 job0|rt c0]; simpl in *; subst c0.
    - destruct Hkind as (_ & _ & Hz). lia.
    - lia. }
  assert (Hwaiting : ∀ t', t' ∈ threads s → thread_ctx t' = c →
            ∃ rt, t' = Waiting rt c).
  { intros t' Ht' Hc'. destruct (inv_owned0 t' Ht') as (_ & x' & p' & n' & _ & _ & _ & Hk').
    destruct t' as [rt c0 job0|rt c0]; simpl in *; subst c0.
    - destruct Hk' as (_ & _ & Hz). lia.
    - by exists rt. }
  destruct (worker_frame job c (store s) st' x p n Hjob Hx Hwg Hn Hge Hrun)
    as [->|(st1 & Hev & ->)].
  - split; try done.
    + intros t' Ht'. destruct (decide (thread_ctx t' = c)) as [Hc'|Hne].
      * destruct (Hwaiting t' Ht' Hc') as [rt ->].
        destruct (inv_owned0 _ Ht') as (Hpool' & x' & p' & n' & Hx' & Hwg' & Hn' & Hk').
        split; [done|]. exists x', p', n'. repeat (split; [done|]). simpl in *. lia.
      * eapply (owns_transfer s); eauto. by destruct (inv_owned0 t' Ht').
    + intros c' Hc'. assert (c' ≠ c).
      { intros ->. apply Hc'. rewrite <- Htc. by apply elem_of_thread_ctx. }
      rewrite Hqo by done. by apply inv_free0.
  - assert (Hplt : p < length (wgs st1)).
    { rewrite (ev_wgs _ _ _ Hev). by eapply lookup_lt_Some. }
    assert (Hctx' : ∀ t' x', t' ∈ threads s →
              ctxs (store s) !! thread_ctx t' = Some x' →
              ∃ x'', ctxs st1 !! thread_ctx t' = Some x'' ∧
                     APIContext.wg x'' = APIContext.wg x').
    { intros t' x' Ht' Hx'. destruct (decide (thread_ctx t' = c)) as [Hc'|Hne].
      - rewrite Hc' in *. destruct (ev_ctx _ _ _ Hev x' Hx') as (x'' & Hx'' & Hwg'' & _).
        by exists x''.
      - exists x'. by rewrite (ev_other _ _ _ Hev). }
    split; simpl; rewrite ?(ev_pools _ _ _ Hev), ?(ev_len _ _ _ Hev); try done.
    + intros t' Ht'. destruct (decide (thread_ctx t' = c)) as [Hc'|Hne].
      * destruct (Hwaiting t' Ht' Hc') as [rt ->].
        destruct (inv_owned0 _ Ht') as (Hpool' & x' & p' & n' & Hx' & Hwg' & Hn' & Hk').
        simpl in *.
        assert (x' = x) as -> by congruence.
        assert (p' = p) as -> by congruence.
        assert (n' = n) as -> by congruence.
        destruct (ev_ctx _ _ _ Hev x Hx) as (x'' & Hx'' & Hwg'' & _).
        split; [simpl; by rewrite (ev_pools _ _ _ Hev)|].
        exists x'', p, (n - 1)%Z. simpl. split; [done|]. split; [congruence|].
        split; [by apply list_lookup_insert_eq|]. lia.
      * destruct (inv_owned0 t' Ht') as (Hpool' & x' & p' & n' & Hx' & Hwg' & Hn' & Hk').
        assert (Hpne : p' ≠ p).
        { intros ->. apply Hne. rewrite <- Htc.
          apply (inv_wgs0 t' t x' x); try done; [by rewrite Htc|congruence]. }
        eapply (owns_transfer s); simpl; rewrite ?(ev_pools _ _ _ Hev); eauto.
        intros x0 p0 n0 Hx0 Hwg0 Hn0.
        assert (p0 = p') as -> by congruence.
        rewrite list_lookup_insert_ne by done. by rewrite (ev_wgs _ _ _ Hev).
    + intros t1 t2 x1 x2 Ht1 Ht2 Hx1 Hx2 Heq.
      destruct (inv_owned0 t1 Ht1) as (_ & y1 & _ & _ & Hy1 & _).
      destruct (inv_owned0 t2 Ht2) as (_ & y2 & _ & _ & Hy2 & _).
      destruct (Hctx' t1 y1 Ht1 Hy1) as (z1 & Hz1 & Hw1).
      destruct (Hctx' t2 y2 Ht2 Hy2) as (z2 & Hz2 & Hw2).
      apply (inv_wgs0 t1 t2 y1 y2); try done. congruence.
    + intros c' Hc'. assert (c' ≠ c).
      { intros ->. apply Hc'. rewrite <- Htc. by apply elem_of_thread_ctx. }
      rewrite Hqo by done. by apply inv_free0.
Qed.

Lemma inv_release s i rt c st' :
  threads s !! i = Some (Waiting rt c) →
  ServeHTTP_deferred rt c (store s) = (Ok tt, st') →
  inv s →
  inv (mkSystem st' (jobs s) (workers s) (delete i (threads s))).
Proof.
  intros Hi Hrun Hinv. destruct Hinv.
  assert (Hin : Waiting rt c ∈ threads s) by (by eapply list_elem_of_lookup_2).
  destruct (inv_owned0 _ Hin) as (Hpool & x & p & n & Hx & Hwg & Hn & Hle).
  simpl in *.
  destruct (deferred_frame rt c (store s) st' x p n Hx Hwg Hn Hrun)
    as (-> & l & x' & Hl & Hpools & Hctxs & Hwgs).
  assert (Hperm : mjoin (pools st') ≡ₚ c :: mjoin (pools (store s))).
  { rewrite Hpools. by apply pools_insert_perm. }
  assert (Hold : ∀ t, t ∈ delete i (threads s) → t ∈ threads s ∧ thread_ctx t ≠ c).
  { intros t Ht. by apply (elem_of_delete_thread _ _ _ _ inv_threads0 Hi) in Ht. }
  split; simpl.
  - rewrite list_fmap_delete.
    eapply sublist_NoDup; [exact inv_threads0|apply sublist_delete].
  - rewrite Hperm. by apply NoDup_cons.
  - intros c' Hc'. rewrite Hperm in Hc'. rewrite Hctxs, length_insert.
    apply elem_of_cons in Hc' as [->|Hc']; [by eapply lookup_lt_Some|by apply inv_alloc0].
  - intros t Ht. destruct (Hold t Ht) as [Ht' Hne].
    eapply (owns_transfer s); simpl; eauto.
    + rewrite Hperm. intros Hc'. apply elem_of_cons in Hc' as [?|Hc']; [done|].
      by destruct (inv_owned0 t Ht').
    + intros x0 Hx0. exists x0. by rewrite Hctxs, list_lookup_insert_ne.
    + intros x0 p0 n0 _ _ Hn0. rewrite Hwgs.
      rewrite lookup_app_l; [done|by eapply lookup_lt_Some].
  - intros t1 t2 x1 x2 Ht1 Ht2 Hx1 Hx2 Heq.
    destruct (Hold t1 Ht1) as [Ht1' Hne1]. destruct (Hold t2 Ht2) as [Ht2' Hne2].
    rewrite Hctxs in Hx1, Hx2. rewrite list_lookup_insert_ne in Hx1, Hx2 by done.
    by eapply inv_wgs0.
  - intros c' Hc'.
    change (queued s c' = 0).
    apply (not_elem_of_delete_thread _ _ _ _ Hi) in Hc' as [->|Hc'].
    + simpl. lia.
    + by apply inv_free0.
Qed.

Lemma inv_arrive s rt wr req c oj st' :
  ready (store s) rt wr →
  ServeHTTP_dispatch rt wr req (store s) = (Ok (c, oj), st') →
  inv s →
  inv (mkSystem st' (jobs s) (workers s)
         (threads s ++ [match oj with
                        | Some job => Sending rt c job
                        | None => Waiting rt c
                        end])).
Proof.
  intros Hready Hrun Hinv. destruct Hinv.
  destruct (dispatch_frame rt wr req (store s) c oj st' Hready Hrun)
    as ((Hpools & Hlen & Hother & x & Hx & Hwg & Hwgs) & Hjob).
  set (tnew := match oj with Some job => Sending rt c job | None => Waiting rt c end).
  assert (Htnew : thread_ctx tnew = c) by (subst tnew; by destruct oj).
  assert (Hsub : ∀ c', c' ∈ mjoin (pools st') → c' ∈ mjoin (pools (store s))).
  { intros c' Hc'. destruct Hpools as [[Hperm _]|Hperm]; rewrite Hperm; [done|].
    by apply elem_of_cons; right. }
  assert (Hfresh : c ∉ thread_ctx <$> threads s).
  { intros Hin. apply list_elem_of_fmap in Hin as (t & Hct & Ht).
    destruct Hpools as [[_ Hge]|Hperm].
    - pose proof (owns_lt s t (inv_owned0 t Ht)) as Hlt. rewrite <- Hct in Hlt. lia.
    - destruct (inv_owned0 t Ht) as [Hnp _]. apply Hnp. rewrite Hperm, <- Hct.
      by apply elem_of_cons; left. }
  assert (Hcpool : c ∉ mjoin (pools st')).
  { destruct Hpools as [[Hperm Hge]|Hperm].
    - intros Hin. rewrite <- Hperm in Hin. apply inv_alloc0 in Hin. lia.
    - rewrite Hperm in inv_pools0. by apply NoDup_cons in inv_pools0 as [? _]. }
  assert (Hne : ∀ t, t ∈ threads s → thread_ctx t ≠ c).
  { intros t Ht Heq. apply Hfresh. rewrite <- Heq. by apply elem_of_thread_ctx. }
  assert (Hq0 : queued s c = 0) by (by apply inv_free0).
  split; simpl.
  - rewrite fmap_app. simpl. rewrite Htnew. apply NoDup_app. split; [done|].
    split; [|apply NoDup_singleton].
    intros c' Hc' Hin. apply list_elem_of_singleton in Hin as ->. done.
  - destruct Hpools as [[Hperm _]|Hperm].
    + by rewrite <- Hperm.
    + rewrite Hperm in inv_pools0. by apply NoDup_cons in inv_pools0 as [_ ?].
  - intros c' Hc'. apply Hsub, inv_alloc0 in Hc'. lia.
  - intros t Ht. apply elem_of_app in Ht as [Ht|Ht].
    + eapply (owns_transfer s); simpl; eauto.
      * intros Hin. apply Hsub in Hin. by destruct (inv_owned0 t Ht).
      * intros x0 Hx0. exists x0. by rewrite Hother by (by apply Hne).
      * intros x0 p0 n0 _ _ Hn0. rewrite Hwgs.
        rewrite lookup_app_l; [done|by eapply lookup_lt_Some].
    + apply list_elem_of_singleton in Ht as ->.
      split; [by rewrite Htnew|]. rewrite Htnew.
      exists x, (length (wgs (store s))), (counted oj). simpl.
      split; [done|]. split; [done|].
      split; [rewrite Hwgs; by apply list_lookup_middle|].
      subst tnew. destruct oj as [job|]; simpl.
      * split; [by apply Hjob|]. by split.
      * change (Z.of_nat (queued s c) ≤ 0)%Z. lia.
  - intros t1 t2 x1 x2 Ht1 Ht2 Hx1 Hx2 Heq.
    assert (Hnew : ∀ y, ctxs st' !! c = Some y →
              APIContext.wg y = Some (length (wgs (store s)))) by (intros; congruence).
    assert (Hold : ∀ t y, t ∈ threads s → ctxs st' !! thread_ctx t = Some y →
              ctxs (store s) !! thread_ctx t = Some y ∧
              APIContext.wg y ≠ Some (length (wgs (store s)))).
    { intros t y Ht Hy. rewrite Hother in Hy by (by apply Hne). split; [done|].
      destruct (inv_owned0 t Ht) as (_ & y' & p' & n' & Hy' & Hwg' & Hn' & _).
      assert (y' = y) as -> by congruence. rewrite Hwg'. intros [= ->].
      apply lookup_lt_Some in Hn'. lia. }
    apply elem_of_app in Ht1 as [Ht1|Ht1]; apply elem_of_app in Ht2 as [Ht2|Ht2];
      try (apply list_elem_of_singleton in Ht1 as ->);
      try (apply list_elem_of_singleton in Ht2 as ->);
      rewrite ?Htnew in *.
    + destruct (Hold t1 x1 Ht1 Hx1) as [Hy1 _]. destruct (Hold t2 x2 Ht2 Hx2) as [Hy2 _].
      by eapply inv_wgs0.
    + destruct (Hold t1 x1 Ht1 Hx1) as [_ Hy1]. exfalso. apply Hy1.
      rewrite Heq. by apply Hnew.
    + destruct (Hold t2 x2 Ht2 Hx2) as [_ Hy2]. exfalso. apply Hy2.
      rewrite <- Heq. by apply Hnew.
    + done.
  - intros c' Hc'. change (queued s c' = 0). apply inv_free0.
    intros Hin. apply Hc'. rewrite fmap_app. apply elem_of_app. by left.
Qed.

Lemma inv_step queueSize s s' : inv s → step queueSize s s' → inv s'.
Proof.
  intros Hinv Hstep. destruct Hstep.
  - by eapply inv_arrive.
  - by eapply inv_send.
  - by eapply inv_hand.
  - by eapply inv_receive.
  - by eapply inv_finish.
  - by eapply inv_release.
  - by apply inv_tick.
Qed.

Lemma inv_reachable queueSize s : reachable queueSize s → inv s.
Proof.
  induction 1 as [s Hinit|s s' _ IH Hstep]; [by apply inv_initial|by eapply inv_step].
Qed.





Lemma system_running_reachable : reachable 1 system_running.
Proof.
  assert (H0 : reachable 1 system_start).
  { apply reachable_initial. repeat split; simpl.
    - by repeat constructor.
    - vm_compute. constructor.
    - intros c Hc. vm_compute in Hc. by apply elem_of_nil in Hc. }
  assert (H1 : reachable 1 system_dispatched).
  { apply (reachable_step _ _ _ H0).
    apply (step_arrive 1 system_start rt_new 0 request_me 0 (Some job_me)).
    - apply ready_serving.
    - vm_compute. reflexivity. }
  assert (H2 : reachable 1 system_sent).
  { apply (reachable_step _ _ _ H1).
    apply (step_send 1 system_dispatched 0 rt_new 0 job_me); [reflexivity|simpl; lia]. }
  apply (reachable_step _ _ _ H2).
  by apply (step_receive 1 system_sent 0 job_me []).
Qed.



(** ** The send of [Submit] *)






(** * Further properties *)

(** ** Paths and their segments *)

Lemma TrimRight_snoc s c : strings.TrimRight (s +:+ String c EmptyString) c = strings.TrimRight s c.
Proof.
  induction s as [|a s IH]; simpl.
  - by rewrite Ascii.eqb_refl.
  - by rewrite IH.
Qed.

Lemma Trim_cons s c : strings.Trim (String c s) c = strings.Trim s c.
Proof. unfold strings.Trim. simpl. by rewrite Ascii.eqb_refl. Qed.

Lemma Trim_snoc s c : strings.Trim (s +:+ String c EmptyString) c = strings.Trim s c.
Proof.
  unfold strings.Trim. induction s as [|a s IH]; simpl.
  - by rewrite Ascii.eqb_refl.
  - destruct (Ascii.eqb a c); [exact IH|].
    apply (TrimRight_snoc (String a s)).
Qed.

Lemma append_assoc_string (s1 s2 s3 : string) : (s1 +:+ s2) +:+ s3 = s1 +:+ (s2 +:+ s3).
Proof.
  induction s1 as [|a s1 IH]; [reflexivity|].
  change (String a ((s1 +:+ s2) +:+ s3) = String a (s1 +:+ (s2 +:+ s3))). by f_equal.
Qed.

Lemma Split_no_sep sep s x : x ∈ strings.Split s sep → contains sep x = false.
Proof.
  revert x. induction s as [|a s IH]; simpl; intros x Hx.
  - by apply list_elem_of_singleton in Hx as ->.
  - destruct (Ascii.eqb a sep) eqn:Ha.
    + apply elem_of_cons in Hx as [->|Hx]; [done|by apply IH].
    + destruct (strings.Split s sep) as [|x0 xs] eqn:Hs.
      * apply list_elem_of_singleton in Hx as ->. simpl. by rewrite Ha.
      * apply elem_of_cons in Hx as [->|Hx].
        -- simpl. rewrite Ha. simpl. apply IH. by left.
        -- apply IH. by right.
Qed.

Lemma walk_params nd parts : ∀ current params final params',
  walk nd current parts params = Reached final params' →
  ∀ k v, params' !! k = Some v → params !! k = Some v ∨ v ∈ parts.
Proof.
  induction parts as [|part parts IH]; simpl; intros current params final params' Hw k v Hk.
  - injection Hw as <- <-. by left.
  - destruct (nd !! current) as [cur|]; [|done].
    destruct (node.children cur !! part) as [child|].
    + destruct (IH _ _ _ _ Hw k v Hk) as [H|H]; [by left|right; by right].
    + destruct (node.children cur !! "*") as [pc|]; [|done].
      destruct (nd !! pc) as [n|]; [|done].
      destruct (IH _ _ _ _ Hw k v Hk) as [H|H]; [|right; by right].
      destruct (decide (node.paramName n = k)) as [<-|Hne].
      * rewrite lookup_insert_eq in H. injection H as <-. right. by left.
      * rewrite lookup_insert_ne in H by done. by left.
Qed.

(** X1. Leading and trailing slashes of a path do not count: the resolution
    of a request is the same with and without them, and so is the
    registration of a route with and without a trailing slash. *)
Theorem outer_slashes_are_ignored rt m p :
  (∀ st, resolve rt (Req m ("/" +:+ p)) st = resolve rt (Req m p) st) ∧
  (∀ st, resolve rt (Req m (p +:+ "/")) st = resolve rt (Req m p) st) ∧
  (∀ hs st, hs ≠ [] → handle rt m (p +:+ "/") hs st = handle rt m p hs st).
Proof.
  assert (H1 : segments ("/" +:+ p) = segments p).
  { unfold segments. change ("/" +:+ p) with (String "/" p). by rewrite Trim_cons. }
  assert (H2 : ∀ q, segments (q +:+ "/") = segments q)
    by (intros q; unfold segments; by rewrite Trim_snoc).
  split; [|split].
  - intros st. unfold resolve. simpl URLPath. by rewrite H1.
  - intros st. unfold resolve. simpl URLPath. by rewrite H2.
  - intros hs st Hhs. unfold handle.
    case_decide as Hd; [by destruct hs|]. cbv zeta.
    by rewrite <- (append_assoc_string (Router.prefix rt) p "/"), H2.
Qed.

Lemma outer_slashes_are_ignored_witness :
  handle rt_new "GET" ("/users" +:+ "/") [h_me] emptyStore
    = handle rt_new "GET" "/users" [h_me] emptyStore.
Proof.
  apply (proj2 (proj2 (outer_slashes_are_ignored rt_new "GET" "/users"))). done.
Defined.

(** X2. The value of a path parameter is a segment of the request path, and
    it holds no slash. *)
Theorem path_parameters_are_segments rt req st handler params st' k v :
  resolve rt req st = (Ok (Found handler params), st') →
  params !! k = Some v →
  v ∈ segments (URLPath req) ∧ contains "/" v = false.
Proof.
  intros Hr Hk. unfold resolve, bind, get in Hr.
  destruct (walk (nodes st) (Router.root rt) (segments (URLPath req)) ∅)
    as [final ps| |] eqn:Hw; try done.
  assert (ps = params) as ->.
  { unfold deref in Hr. destruct (nodes st !! final) as [cur|]; [|done].
    destruct (node.handler cur ≫= (.!! Method req)); unfold ret in Hr; congruence. }
  destruct (walk_params _ _ _ _ _ _ Hw k v Hk) as [H|H]; [by rewrite lookup_empty in H|].
  split; [done|]. by eapply Split_no_sep.
Qed.

Lemma path_parameters_are_segments_witness :
  "42" ∈ segments "/users/42" ∧ contains "/" "42" = false.
Proof.
  apply (path_parameters_are_segments rt_new (Req "GET" "/users/42") (snd users_routes)
           (Slice 0 1 1) (<["id" := "42"]> ∅) (snd users_routes) "id" "42").
  - vm_compute. reflexivity.
  - reflexivity.
Defined.

(** ** The values of a request context *)

(** X9. [Value] reads back what [Set] has stored under the key, the last
    value when the key was set before; the other keys, the deadline and the
    cancellation state are as they were. *)
Theorem Set_then_Value c key value st x cx :
  ctxs st !! c = Some x → APIContext.ctx x = Some cx →
  ∃ st',
    Set_ c key value st = (Ok tt, st') ∧
    Value c key st' = (Ok (Some value), st') ∧
    (∀ key', key' ≠ key → fst (Value c key' st') = fst (Value c key' st)) ∧
    fst (Deadline c st') = fst (Deadline c st) ∧
    ∀ t, fst (Err c (upd_now (fun _ => t) st')) = fst (Err c (upd_now (fun _ => t) st)).
Proof.
  intros Hx Hcx.
  assert (Hlt : c < length (ctxs st)) by (by eapply lookup_lt_Some).
  eexists. split; [by eapply Set_spec|].
  assert (Hx' : ∀ f, ctxs (f (upd_ctxs (<[c := set_ctx (Some (valueCtx cx key value)) x]>) st)) =
                       <[c := set_ctx (Some (valueCtx cx key value)) x]> (ctxs st) →
            ctxs (f (upd_ctxs (<[c := set_ctx (Some (valueCtx cx key value)) x]>) st)) !! c
              = Some (set_ctx (Some (valueCtx cx key value)) x)).
  { intros f ->. by apply list_lookup_insert_eq. }
  split; [|split; [|split]].
  - unfold Value. erewrite bind_Ok by (eapply field_Ok; [by apply (Hx' id)|reflexivity]).
    unfold ret. simpl. by rewrite String.eqb_refl.
  - intros key' Hne. unfold Value.
    erewrite bind_Ok by (eapply field_Ok; [by apply (Hx' id)|reflexivity]).
    erewrite (bind_Ok _ _ st) by (by eapply field_Ok).
    unfold ret. simpl. destruct (String.eqb_spec key key'); [congruence|done].
  - unfold Deadline.
    erewrite bind_Ok by (eapply field_Ok; [by apply (Hx' id)|reflexivity]).
    erewrite (bind_Ok _ _ st) by (by eapply field_Ok). done.
  - intros t.
    erewrite Err_Ok by (first [by apply (Hx' (upd_now (fun _ => t)))|reflexivity]).
    erewrite (Err_Ok c (upd_now _ st)) by (simpl; eassumption). done.
Qed.

Lemma Set_then_Value_witness :
  ∃ st',
    Set_ 0 "user" "7" used_store = (Ok tt, st') ∧
    Value 0 "user" st' = (Ok (Some "7"), st') ∧
    (∀ key', key' ≠ "user" → fst (Value 0 key' st') = fst (Value 0 key' used_store)) ∧
    fst (Deadline 0 st') = fst (Deadline 0 used_store) ∧
    ∀ t, fst (Err 0 (upd_now (fun _ => t) st')) = fst (Err 0 (upd_now (fun _ => t) used_store)).
Proof.
  exact (Set_then_Value 0 "user" "7" used_store used_context _ eq_refl eq_refl).
Defined.

(** ** Chains that stop *)

Lemma bind_modify {B} f (k : unit → M B) st : bind (modify f) k st = k tt (f st).
Proof. reflexivity. Qed.

Lemma bind_ret {A B} (a : A) (k : A → M B) st : bind (ret a) k st = k a st.
Proof. reflexivity. Qed.

Lemma response_Some st c x wr ws :
  ctxs st !! c = Some x → APIContext.w x = Some wr → writers st !! wr = Some ws →
  response st c = Some ws.
Proof. intros Hx Hw Hws. unfold response. rewrite Hx. simpl. rewrite Hw. simpl. done. Qed.

Lemma range_handlers_cons h hs c :
  range_handlers (h :: hs) c =
    (e <- Err c ;;
     match e with
     | Some _ => Error c "context canceled" "context timeout" ;;;
                 WriteFailure c 504 "request timeout"
     | None => call_func h c ;;; range_handlers hs c
     end).
Proof. reflexivity. Qed.

(** The chain at a handler whose turn comes after the cancellation. *)
Lemma range_handlers_cancelled h rest c st x wr ws lg cell :
  ctxs st !! c = Some x → APIContext.w x = Some wr → writers st !! wr = Some ws →
  APIContext.log x = Some lg → APIContext.cancel x = Some cell →
  is_done st c →
  range_handlers (h :: rest) c st =
    (Ok tt,
     upd_cells (<[cell := true]>)
       (upd_writers (<[wr := ws ++ timeout_response]>)
          (upd_logs (fun ls => ls ++ [Log LevelError lg "context canceled" "error" "context timeout"])
             st))).
Proof.
  intros Hx Hw Hws Hlg Hcell [e He]. simpl.
  rewrite (bind_Ok _ _ _ _ _ He). unfold Error.
  rewrite (bind_Ok _ _ _ _ _ (log_entry_Ok c _ _ _ _ st x lg Hx Hlg)).
  by erewrite WriteFailure_spec by (simpl; eassumption).
Qed.

(** X11. A handler that answers with [WriteFailure] and is not the last of its
    chain: the next handler is not called, and the chain writes a second
    status and a second payload, those of the timeout, after the ones of
    the handler. When the handler is the last of the chain, the response is
    the one of the handler. *)
Theorem WriteFailure_before_the_end_writes_twice st c code msg :
  attended st c → Err c st = (Ok None, st) →
  (∀ h rest, ∃ st',
     range_handlers (Some (CallWriteFailure code msg Return) :: h :: rest) c st = (Ok tt, st') ∧
     response st' c =
       (fun ws => ws ++ [WriteHeader code; Write (JSONError msg)] ++ timeout_response)
         <$> response st c ∧
     invoked st' = invoked st ++ [(c, Some (CallWriteFailure code msg Return))]) ∧
  ∃ st',
    range_handlers [Some (CallWriteFailure code msg Return)] c st = (Ok tt, st') ∧
    response st' c =
      (fun ws => ws ++ [WriteHeader code; Write (JSONError msg)]) <$> response st c.
Proof.
  intros [(x & wr & ws & cx & cell & Hx & Hw & Hws & Hcx & Hcancel & Hcov & Hcell)
          (x' & lg & req & Hx' & Hlg & _)] Herr.
  rewrite Hx in Hx'. injection Hx' as <-.
  assert (Hwlt : wr < length (writers st)) by (by eapply lookup_lt_Some).
  set (st0 := upd_invoked (fun l => l ++ [(c, Some (CallWriteFailure code msg Return))]) st).
  set (st1 := upd_cells (<[cell := true]>)
                (upd_writers (<[wr := ws ++ [WriteHeader code; Write (JSONError msg)]]>) st0)).
  assert (Hcall : call_func (Some (CallWriteFailure code msg Return)) c st = (Ok tt, st1)).
  { unfold call_func. rewrite bind_modify. fold st0. simpl call.
    erewrite bind_Ok by (by eapply (WriteFailure_spec c code msg st0 x wr ws cell)). done. }
  assert (Hdone : is_done st1 c).
  { assert (Hne : context.Err (cells st1) (now st1) cx ≠ None).
    { eapply Err_covers; [done|]. simpl. by apply list_lookup_insert_eq. }
    destruct (context.Err (cells st1) (now st1) cx) as [e|] eqn:He; [|done].
    exists e. erewrite Err_Ok by (simpl; eassumption). by rewrite He. }
  split.
  - intros h rest. eexists. split.
    + rewrite range_handlers_cons.
      rewrite (bind_Ok _ _ _ _ _ Herr). rewrite (bind_Ok _ _ _ _ _ Hcall).
      eapply (range_handlers_cancelled h rest c st1 x wr); try done.
      simpl. by apply list_lookup_insert_eq.
    + split; [|reflexivity].
      erewrite response_Some; [|simpl; eassumption|eassumption|lookup_solver].
      erewrite (response_Some st) by eassumption. simpl. by rewrite <- app_assoc.
  - exists st1. split.
    + simpl. rewrite (bind_Ok _ _ _ _ _ Herr). by rewrite (bind_Ok _ _ _ _ _ Hcall).
    + erewrite response_Some; [|simpl; eassumption|eassumption|simpl; by apply list_lookup_insert_eq].
      by erewrite (response_Some st) by eassumption.
Qed.

Lemma attended_fresh : attended fresh_store 0.
Proof.
  split; [exact live_fresh|]. exists fresh_context, [], (Req "GET" "/"). by repeat split.
Qed.

Lemma WriteFailure_before_the_end_writes_twice_witness :
  ∃ st',
    range_handlers [Some (CallWriteFailure 401 "no token" Return)] 0 fresh_store = (Ok tt, st') ∧
    response st' 0 =
      (fun ws => ws ++ [WriteHeader 401; Write (JSONError "no token")]) <$> response fresh_store 0.
Proof.
  exact (proj2 (WriteFailure_before_the_end_writes_twice fresh_store 0 401 "no token"
                  attended_fresh eq_refl)).
Defined.

(** X12. A handler that arms a timeout of [d] and then takes the time [e]. When
    [d] has elapsed by then, the next handler is not called and the chain
    answers with the timeout response; when it has not, the next handler is
    called. *)
Theorem timeout_between_handlers st c x cx d e h rest :
  attended st c → ctxs st !! c = Some x → APIContext.ctx x = Some cx →
  context.Deadline cx = None → Err c st = (Ok None, st) →
  ((d ≤ Z.of_N e)%Z →
   ∃ st',
     range_handlers (Some (CallWithTimeout d (Sleep e Return)) :: h :: rest) c st = (Ok tt, st') ∧
     response st' c = (fun ws => ws ++ timeout_response) <$> response st c ∧
     invoked st' = invoked st ++ [(c, Some (CallWithTimeout d (Sleep e Return)))]) ∧
  ((Z.of_N e < d)%Z →
   ∀ o st',
     range_handlers (Some (CallWithTimeout d (Sleep e Return)) :: h :: rest) c st = (o, st') →
     ∃ more,
       invoked st' =
         invoked st ++ [(c, Some (CallWithTimeout d (Sleep e Return))); (c, h)] ++ more).
Proof.
  intros [(x0 & wr & ws & cx0 & cell & Hx0 & Hw & Hws & Hcx0 & Hcancel & Hcov & Hcell)
          (x' & lg & req & Hx' & Hlg & _)] Hx Hcx Hdl Herr.
  rewrite Hx in Hx0, Hx'. injection Hx0 as <-. injection Hx' as <-.
  rewrite Hcx in Hcx0. injection Hcx0 as <-.
  assert (Hlt : c < length (ctxs st)) by (by eapply lookup_lt_Some).
  set (h0 := Some (CallWithTimeout d (Sleep e Return))).
  set (st0 := upd_invoked (fun l => l ++ [(c, h0)]) st).
  set (new := length (cells st)).
  set (x1 := set_cancel (Some new) (set_ctx (Some (timerCtx cx (now st + d) new)) x)).
  set (st2 := upd_now (fun t => (t + Z.of_N e)%Z)
                (upd_ctxs (<[c := x1]>) (upd_cells (fun cs => cs ++ [false]) st0))).
  assert (Hcall : call_func h0 c st = (Ok tt, st2)).
  { unfold call_func. rewrite bind_modify. fold st0. unfold h0. simpl call.
    rewrite (bind_Ok _ _ _ _ _ (WithTimeout_spec c d st0 x cx Hx Hcx)).
    rewrite Hdl. by rewrite bind_modify. }
  assert (Hx2 : ctxs st2 !! c = Some x1) by (simpl; by apply list_lookup_insert_eq).
  assert (Herr0 : context.Err (cells st) (now st) cx = None).
  { rewrite (Err_Ok c st x cx Hx Hcx) in Herr. congruence. }
  assert (Herr2 : Err c st2 =
                    (Ok (if (now st + d <=? now st + Z.of_N e)%Z then Some DeadlineExceeded
                         else None), st2)).
  { rewrite (Err_Ok c st2 x1 _ Hx2 eq_refl). simpl.
    rewrite Err_alloc, (Err_no_deadline _ _ (now st) cx Hdl), Herr0.
    rewrite lookup_app_r by done. by replace (new - length (cells st)) with 0 by (unfold new; lia). }
  rewrite range_handlers_cons, (bind_Ok _ _ _ _ _ Herr), (bind_Ok _ _ _ _ _ Hcall).
  split.
  - intros Hle. destruct (Z.leb_spec (now st + d) (now st + Z.of_N e)); [|lia].
    eexists. split.
    + eapply (range_handlers_cancelled h rest c st2 x1 wr ws lg new); try done.
      by eexists.
    + split; [|reflexivity].
      erewrite response_Some; [|simpl; lookup_solver|eassumption|simpl; lookup_solver].
      by erewrite (response_Some st) by eassumption.
  - intros Hlt' o st' Hrun. destruct (Z.leb_spec (now st + d) (now st + Z.of_N e)); [lia|].
    rewrite range_handlers_cons, (bind_Ok _ _ _ _ _ Herr2) in Hrun.
    destruct (call_func h c st2) as [o1 st3] eqn:Hh.
    destruct (call_func_invoked _ _ _ _ _ Hh) as (Hi & _ & _).
    unfold bind in Hrun. rewrite Hh in Hrun.
    destruct o1 as [[]|p|].
    + destruct (range_handlers_prefix _ _ _ _ _ Hrun) as [more Hmore].
      exists more. rewrite Hmore, Hi. simpl. by rewrite <- !app_assoc.
    + injection Hrun as <- <-. exists []. rewrite Hi. simpl. by rewrite <- !app_assoc.
    + injection Hrun as <- <-. exists []. rewrite Hi. simpl. by rewrite <- !app_assoc.
Qed.

Lemma timeout_between_handlers_witness :
  ∃ st',
    range_handlers [Some (CallWithTimeout 3 (Sleep 5 Return)); h_me] 0 fresh_store = (Ok tt, st') ∧
    response st' 0 = (fun ws => ws ++ timeout_response) <$> response fresh_store 0 ∧
    invoked st' = invoked fresh_store ++ [(0, Some (CallWithTimeout 3 (Sleep 5 Return)))].
Proof.
  apply (proj1 (timeout_between_handlers fresh_store 0 fresh_context (cancelCtx Background 0)
                  3 5 h_me [] attended_fresh eq_refl eq_refl eq_refl eq_refl)).
  vm_compute. discriminate.
Defined.

(** ** Chains that run to their end *)

Lemma calm_frame st st' c :
  calm st c → ctxs st' = ctxs st → cells st' = cells st →
  (∀ wr, is_Some (writers st !! wr) → is_Some (writers st' !! wr)) →
  calm st' c.
Proof.
  intros (x & wr & ws & cx & cell & lg & req & Hx & Hw & Hws & Hr & Hlg & Hcx & Hc & Hcov &
          Hlt & Hdl & Herr) Hctxs Hcells Hwr.
  destruct (Hwr wr ltac:(by eexists)) as [ws' Hws'].
  exists x, wr, ws', cx, cell, lg, req. rewrite Hctxs, Hcells.
  repeat split; try done.
  by rewrite (Err_no_deadline _ _ (now st)).
Qed.

Lemma calm_Err st c : calm st c → Err c st = (Ok None, st).
Proof.
  intros (x & wr & ws & cx & cell & lg & req & Hx & Hw & Hws & Hr & Hlg & Hcx & Hc & Hcov &
          Hlt & Hdl & Herr).
  by rewrite (Err_Ok c st x cx Hx Hcx), Herr.
Qed.

(** A quiet handler returns and leaves the context as calm as it was. *)
Lemma quiet_call h : ∀ c st,
  quiet h → calm st c →
  ∃ st', call h c st = (Ok tt, st') ∧ calm st' c ∧
         invoked st' = invoked st ∧ arrays st' = arrays st ∧ wgs st' = wgs st ∧
         pools st' = pools st ∧ nodes st' = nodes st.
Proof.
  assert (Hnext : ∀ k c st st1,
    (∀ c st, quiet k → calm st c →
       ∃ st', call k c st = (Ok tt, st') ∧ calm st' c ∧
              invoked st' = invoked st ∧ arrays st' = arrays st ∧ wgs st' = wgs st ∧
              pools st' = pools st ∧ nodes st' = nodes st) →
    quiet k → calm st1 c →
    invoked st1 = invoked st → arrays st1 = arrays st → wgs st1 = wgs st →
    pools st1 = pools st → nodes st1 = nodes st →
    ∃ st', call k c st1 = (Ok tt, st') ∧ calm st' c ∧
           invoked st' = invoked st ∧ arrays st' = arrays st ∧ wgs st' = wgs st ∧
           pools st' = pools st ∧ nodes st' = nodes st).
  { intros k c st st1 IH Hq Hc1 Hi1 Ha1 Hg1 Hp1 Hn1.
    destruct (IH c st1 Hq Hc1) as (st' & Hrun & Hc' & Hi & Ha & Hg & Hp & Hn).
    exists st'. repeat split; try done; congruence. }
  induction h as [|code msg k IH|data k IH|d k IH|key value k IH|key k IH|key k IH|k IH|k IH
                 |msg err k IH|msg key value k IH|d k IH|msg];
    intros c st Hq Hcalm; simpl in Hq; try done.
  - exists st. by repeat split.
  - pose proof Hcalm as (x & wr & ws & cx & cell & lg & req & Hx & Hw & Hws & _).
    simpl. rewrite (bind_Ok _ _ _ _ _ (SuccessWithData_spec c data st x wr ws Hx Hw Hws)).
    apply Hnext; try done.
    eapply (calm_frame st); [done|reflexivity|reflexivity|].
    intros wr' [ws' H']. apply lookup_lt_is_Some. simpl. rewrite length_insert.
    by eapply lookup_lt_Some.
  - pose proof Hcalm as (x & wr & ws & cx & cell & lg & req & Hx & Hw & Hws & Hr & Hlg & Hcx &
                         Hc & Hcov & Hlt & Hdl & Herr).
    simpl. rewrite (bind_Ok _ _ _ _ _ (Set_spec c key value st x cx Hx Hcx)).
    apply Hnext; try done.
    exists (set_ctx (Some (valueCtx cx key value)) x), wr, ws, (valueCtx cx key value),
      cell, lg, req.
    repeat split; try done.
    simpl. apply list_lookup_insert_eq. by eapply lookup_lt_Some.
  - pose proof Hcalm as (x & wr & ws & cx & cell & lg & req & Hx & Hw & Hws & Hr & Hlg & Hcx & _).
    simpl. unfold Value. rewrite bind_assoc.
    rewrite (bind_Ok _ _ _ _ _ (field_Ok c APIContext.ctx st x cx Hx Hcx)).
    rewrite bind_ret. by apply IH.
  - pose proof Hcalm as (x & wr & ws & cx & cell & lg & req & Hx & Hw & Hws & Hr & Hlg & Hcx & _).
    simpl. unfold GetFromPath. rewrite !bind_assoc.
    rewrite (bind_Ok _ _ _ _ _ (deref_Ok ctxs c st x Hx)). rewrite bind_assoc.
    rewrite (bind_Ok _ _ _ _ _ (unwrap_Ok _ req st Hr)).
    destruct (String.eqb (Method req) "GET");
      rewrite bind_ret; by apply IH.
  - simpl. rewrite (bind_Ok _ _ _ _ _ (calm_Err st c Hcalm)). by apply IH.
  - pose proof Hcalm as (x & wr & ws & cx & cell & lg & req & Hx & Hw & Hws & Hr & Hlg & Hcx & _).
    simpl. unfold Deadline. rewrite bind_assoc.
    rewrite (bind_Ok _ _ _ _ _ (field_Ok c APIContext.ctx st x cx Hx Hcx)).
    rewrite bind_ret. by apply IH.
  - pose proof Hcalm as (x & wr & ws & cx & cell & lg & req & Hx & Hw & Hws & Hr & Hlg & _).
    simpl. unfold Error. rewrite (bind_Ok _ _ _ _ _ (log_entry_Ok c _ _ _ _ st x lg Hx Hlg)).
    apply Hnext; first [done|by eapply (calm_frame st)].
  - pose proof Hcalm as (x & wr & ws & cx & cell & lg & req & Hx & Hw & Hws & Hr & Hlg & _).
    simpl. unfold Info. rewrite (bind_Ok _ _ _ _ _ (log_entry_Ok c _ _ _ _ st x lg Hx Hlg)).
    apply Hnext; first [done|by eapply (calm_frame st)].
  - simpl. rewrite bind_modify.
    apply Hnext; first [done|by eapply (calm_frame st)].
Qed.

Lemma quiet_chain hs : ∀ c st,
  calm st c → Forall quiet_func hs →
  ∃ st',
    range_handlers hs c st = (Ok tt, st') ∧ calm st' c ∧
    invoked st' = invoked st ++ ((fun h => (c, h)) <$> hs) ∧
    arrays st' = arrays st ∧ wgs st' = wgs st ∧ pools st' = pools st ∧ nodes st' = nodes st.
Proof.
  induction hs as [|h hs IH]; intros c st Hcalm Hq.
  - exists st. simpl. rewrite app_nil_r. by repeat split.
  - apply Forall_cons in Hq as [Hh Hq]. destruct h as [f|]; [|done].
    rewrite range_handlers_cons, (bind_Ok _ _ _ _ _ (calm_Err st c Hcalm)).
    unfold call_func. rewrite bind_assoc, bind_modify.
    set (st0 := upd_invoked (fun l => l ++ [(c, Some f)]) st).
    assert (Hcalm0 : calm st0 c) by exact Hcalm.
    destruct (quiet_call f c st0 Hh Hcalm0) as (st1 & Hrun & Hc1 & Hi1 & Ha1 & Hg1 & Hp1 & Hn1).
    rewrite (bind_Ok _ _ _ _ _ Hrun).
    destruct (IH c st1 Hc1 Hq) as (st' & Hrest & Hc' & Hi & Ha & Hg & Hp & Hn).
    exists st'. split; [exact Hrest|]. split; [done|].
    split; [rewrite Hi, Hi1; simpl; by rewrite <- app_assoc|].
    repeat split; [by rewrite Ha, Ha1|by rewrite Hg, Hg1|by rewrite Hp, Hp1|by rewrite Hn, Hn1].
Qed.

Lemma worker_quiet job c st x p n :
  Job.Context job = Some c → calm st c →
  ctxs st !! c = Some x → APIContext.wg x = Some p → wgs st !! p = Some n → (1 ≤ n)%Z →
  Forall quiet_func (elems st (Job.HandlerFunc job)) →
  ∃ st',
    worker job st = (Ok tt, st') ∧
    invoked st' = invoked st ++ ((fun h => (c, h)) <$> elems st (Job.HandlerFunc job)) ∧
    wgs st' = <[p := (n - 1)%Z]> (wgs st) ∧ calm st' c.
Proof.
  intros Hjob Hcalm Hx Hwg Hn Hge Hq.
  destruct (quiet_chain _ c st Hcalm Hq) as (st1 & Hrun & Hc1 & Hi & Ha & Hg & Hp & Hnd).
  assert (Hn1 : wgs st1 !! p = Some n) by (by rewrite Hg).
  exists (upd_wgs (<[p := (n - 1)%Z]>) st1).
  split; [|split; [done|split; [simpl; by rewrite Hg|]]].
  - unfold worker. rewrite Hjob. rewrite (bind_Ok _ _ _ _ _ (calm_Err st c Hcalm)).
    unfold wrappedHandler. rewrite (bind_Ok _ _ _ _ _ (field_Ok c APIContext.wg st x p Hx Hwg)).
    unfold defer.
    change ((hs <- get (fun st0 => elems st0 (Job.HandlerFunc job)) ;; range_handlers hs c) st)
      with (range_handlers (elems st (Job.HandlerFunc job)) c st).
    rewrite Hrun. unfold WaitGroup_Done, WaitGroup_Add.
    rewrite bind_assoc, (bind_Ok _ _ _ _ _ (deref_Ok wgs p st1 n Hn1)).
    destruct (Z.ltb_spec (n + -1) 0); [lia|].
    rewrite bind_modify. by replace (n + -1)%Z with (n - 1)%Z by lia.
  - by eapply (calm_frame st1).
Qed.

(** X13. A worker that receives a job whose context is calm and whose handlers
    are quiet calls every handler of the chain once, in the order of the
    chain, and then takes one from the counter of the WaitGroup. *)
Theorem worker_runs_the_chain_in_order job c st x p n :
  Job.Context job = Some c → calm st c →
  ctxs st !! c = Some x → APIContext.wg x = Some p → wgs st !! p = Some n → (1 ≤ n)%Z →
  Forall quiet_func (elems st (Job.HandlerFunc job)) →
  ∃ st',
    worker job st = (Ok tt, st') ∧
    invoked st' = invoked st ++ ((fun h => (c, h)) <$> elems st (Job.HandlerFunc job)) ∧
    wgs st' = <[p := (n - 1)%Z]> (wgs st) ∧ calm st' c.
Proof. apply worker_quiet. Qed.

Lemma calm_fresh : calm one_handler_store 0.
Proof.
  exists fresh_context, 0, [], (cancelCtx Background 0), 0, [], (Req "GET" "/").
  repeat split; try done. by left. simpl. lia.
Qed.

Lemma worker_runs_the_chain_in_order_witness :
  ∃ st',
    worker (Job.mk (Some 0) (Slice 0 1 1)) (upd_wgs (fun _ => [1%Z]) one_handler_store)
      = (Ok tt, st') ∧
    invoked st' = [(0, h_me)] ∧ wgs st' = [0%Z] ∧
    calm st' 0.
Proof.
  apply (worker_runs_the_chain_in_order (Job.mk (Some 0) (Slice 0 1 1)) 0
           (upd_wgs (fun _ => [1%Z]) one_handler_store) fresh_context 0 1%Z);
    try reflexivity.
  - exact calm_fresh.
  - repeat constructor.
Defined.

(** ** Registration, step by step *)

Lemma upd_nodes_upd_nodes f g st : upd_nodes g (upd_nodes f st) = upd_nodes (fun nd => g (f nd)) st.
Proof. by apply store_eq. Qed.

Lemma handle_part_exact current part st cur :
  nodes st !! current = Some cur →
  handle_part current part st =
    match node.children cur !! canon part with
    | Some next => (Ok next, st)
    | None =>
        (Ok (length (nodes st)),
         upd_nodes (fun nd => alter (add_child (canon part) (length (nodes st))) current
                                (nd ++ [new_node part])) st)
    end.
Proof.
  intros Hcur.
  assert (Hlt : current < length (nodes st)) by (by eapply lookup_lt_Some).
  unfold handle_part, canon, new_node.
  destruct (strings.CutColon part) as [name|];
    rewrite (bind_Ok _ _ _ _ _ (deref_Ok nodes current st cur Hcur)).
  - destruct (node.children cur !! "*") as [next|] eqn:Hc.
    + rewrite bind_ret, (bind_Ok _ _ _ _ _ (deref_Ok nodes current st cur Hcur)).
      by rewrite Hc.
    + unfold allocNode. rewrite !bind_assoc. unfold bind at 1. rewrite bind_modify.
      rewrite upd_nodes_upd_nodes.
      erewrite bind_Ok; [|apply deref_Ok; simpl; rewrite list_lookup_alter_eq, lookup_app_l, Hcur by done; reflexivity].
      simpl. by rewrite lookup_insert_eq.
  - destruct (node.children cur !! part) as [next|] eqn:Hc.
    + rewrite bind_ret, (bind_Ok _ _ _ _ _ (deref_Ok nodes current st cur Hcur)).
      by rewrite Hc.
    + unfold allocNode. rewrite !bind_assoc. unfold bind at 1. rewrite bind_modify.
      rewrite upd_nodes_upd_nodes.
      erewrite bind_Ok; [|apply deref_Ok; simpl; rewrite list_lookup_alter_eq, lookup_app_l, Hcur by done; reflexivity].
      simpl. by rewrite lookup_insert_eq.
Qed.

Lemma nodes_keep_refl nd : nodes_keep nd nd.
Proof. intros l n Hl. by exists n. Qed.

Lemma nodes_keep_trans nd1 nd2 nd3 :
  nodes_keep nd1 nd2 → nodes_keep nd2 nd3 → nodes_keep nd1 nd3.
Proof.
  intros H12 H23 l n Hl.
  destruct (H12 l n Hl) as (n2 & Hl2 & Hh2 & Hp2 & Hc2).
  destruct (H23 l n2 Hl2) as (n3 & Hl3 & Hh3 & Hp3 & Hc3).
  exists n3. repeat split; [done|congruence|congruence|by etrans].
Qed.

Lemma nodes_keep_ext nd nd' : nodes_keep nd nd' → nodes_ext nd nd'.
Proof.
  intros H l n Hl. destruct (H l n Hl) as (n' & Hl' & Hh & Hp & Hc).
  exists n'. repeat split; [done|by rewrite Hh|done|done].
Qed.

(** The trie after a child was made below [current]. *)
Lemma add_child_keep nd current cur key new :
  nd !! current = Some cur → node.children cur !! key = None →
  nodes_keep nd (alter (add_child key (length nd)) current (nd ++ [new])).
Proof.
  intros Hcur Hkey l n Hl. assert (Hlt : l < length nd) by (by eapply lookup_lt_Some).
  destruct (decide (l = current)) as [->|Hne].
  - exists (add_child key (length nd) n).
    rewrite list_lookup_alter_eq, lookup_app_l, Hl by done.
    repeat split; try done. simpl. apply insert_subseteq. congruence.
  - exists n. rewrite list_lookup_alter_ne, lookup_app_l by done. done.
Qed.

Lemma add_child_wf nd current cur key new :
  wf_nodes nd → nd !! current = Some cur → node.handler new ≠ None →
  node.children new = ∅ →
  wf_nodes (alter (add_child key (length nd)) current (nd ++ [new])).
Proof.
  intros Hwf Hcur Hnew Hempty l n k c Hl Hc.
  assert (Hcurlt : current < length nd) by (by eapply lookup_lt_Some).
  assert (Hold : ∀ c', valid_child nd c' →
            valid_child (alter (add_child key (length nd)) current (nd ++ [new])) c').
  { intros c' (n' & Hn' & Hh'). assert (c' < length nd) by (by eapply lookup_lt_Some).
    destruct (decide (c' = current)) as [->|Hne].
    - exists (add_child key (length nd) n').
      by rewrite list_lookup_alter_eq, lookup_app_l, Hn' by done.
    - exists n'. by rewrite list_lookup_alter_ne, lookup_app_l by done. }
  destruct (decide (l = current)) as [->|Hne].
  - rewrite list_lookup_alter_eq, lookup_app_l, Hcur in Hl by done.
    simpl in Hl. injection Hl as <-. simpl in Hc.
    destruct (decide (k = key)) as [->|Hk].
    + rewrite lookup_insert_eq in Hc. injection Hc as <-.
      exists new. by rewrite list_lookup_alter_ne, list_lookup_middle by lia.
    + rewrite lookup_insert_ne in Hc by done. apply Hold. by eapply Hwf.
  - rewrite list_lookup_alter_ne in Hl by done.
    destruct (decide (l < length nd)) as [Hlt|Hge].
    + rewrite lookup_app_l in Hl by done. apply Hold. by eapply Hwf.
    + apply lookup_lt_Some in Hl as Hl'. rewrite length_app in Hl'. simpl in Hl'.
      assert (l = length nd) as -> by lia.
      rewrite list_lookup_middle in Hl by done. injection Hl as <-.
      by rewrite Hempty, lookup_empty in Hc.
Qed.

Lemma add_child_labelled nd current cur key new :
  wf_nodes nd → nd !! current = Some cur → node.children cur !! key = None →
  node.children new = ∅ → labelled nd →
  labelled (alter (add_child key (length nd)) current (nd ++ [new])).
Proof.
  intros Hwf Hcur Hkey Hempty [lab Hlab].
  assert (Hcurlt : current < length nd) by (by eapply lookup_lt_Some).
  exists (fun l => if decide (l = length nd) then lab current ++ [key] else lab l).
  intros l n k c Hl Hc.
  assert (Hchild : ∀ l0 n0 k0 c0, nd !! l0 = Some n0 → node.children n0 !! k0 = Some c0 →
                     c0 < length nd).
  { intros l0 n0 k0 c0 H0 H1. destruct (Hwf l0 n0 k0 c0 H0 H1) as (nc & Hnc & _).
    by eapply lookup_lt_Some. }
  destruct (decide (l = current)) as [->|Hne].
  - rewrite list_lookup_alter_eq, lookup_app_l, Hcur in Hl by done.
    simpl in Hl. injection Hl as <-. simpl in Hc.
    rewrite (decide_False (P := current = length nd)) by lia.
    destruct (decide (k = key)) as [->|Hk].
    + rewrite lookup_insert_eq in Hc. injection Hc as <-. by rewrite decide_True.
    + rewrite lookup_insert_ne in Hc by done.
      pose proof (Hchild _ _ _ _ Hcur Hc). rewrite decide_False by lia. by eapply Hlab.
  - rewrite list_lookup_alter_ne in Hl by done.
    destruct (decide (l < length nd)) as [Hlt|Hge].
    + rewrite lookup_app_l in Hl by done.
      pose proof (Hchild _ _ _ _ Hl Hc).
      rewrite !decide_False by lia. by eapply Hlab.
    + apply lookup_lt_Some in Hl as Hl'. rewrite length_app in Hl'. simpl in Hl'.
      assert (l = length nd) as -> by lia.
      rewrite list_lookup_middle in Hl by done. injection Hl as <-.
      by rewrite Hempty, lookup_empty in Hc.
Qed.

Lemma path_in_keep nd nd' keys : ∀ current final,
  nodes_keep nd nd' → path_in nd current keys final → path_in nd' current keys final.
Proof. intros current final Hk. apply path_in_ext. by apply nodes_keep_ext. Qed.

Lemma labelled_path nd lab keys : ∀ current final,
  (∀ l n k c, nd !! l = Some n → node.children n !! k = Some c → lab c = lab l ++ [k]) →
  path_in nd current keys final → lab final = lab current ++ keys.
Proof.
  induction keys as [|k keys IH]; simpl; intros current final Hlab Hp.
  - subst. by rewrite app_nil_r.
  - destruct Hp as (cur & next & Hcur & Hnext & Hp).
    rewrite (IH _ _ Hlab Hp), (Hlab _ _ _ _ Hcur Hnext). by rewrite <- app_assoc.
Qed.

(** In a trie, two lists of keys that lead from one node to the same node
    are the same. *)
Lemma path_in_inj nd current keys1 keys2 final :
  labelled nd → path_in nd current keys1 final → path_in nd current keys2 final →
  keys1 = keys2.
Proof.
  intros [lab Hlab] H1 H2.
  pose proof (labelled_path _ _ _ _ _ Hlab H1) as E1.
  pose proof (labelled_path _ _ _ _ _ Hlab H2) as E2.
  rewrite E1 in E2. by apply app_inv_head in E2.
Qed.

Lemma upd_nodes_const f st : upd_nodes f st = upd_nodes (fun _ => f (nodes st)) st.
Proof. by apply store_eq. Qed.

Lemma upd_nodes_same st : st = upd_nodes (fun _ => nodes st) st.
Proof. by apply store_eq. Qed.

Lemma new_node_fresh part :
  node.handler (new_node part) ≠ None ∧ node.children (new_node part) = ∅.
Proof. unfold new_node. by destruct (strings.CutColon part). Qed.

Lemma handle_part_trie current part st cur :
  wf_nodes (nodes st) → labelled (nodes st) → nodes st !! current = Some cur →
  ∃ next nd',
    handle_part current part st = (Ok next, upd_nodes (fun _ => nd') st) ∧
    nodes_keep (nodes st) nd' ∧ wf_nodes nd' ∧ labelled nd' ∧
    (∃ cur', nd' !! current = Some cur' ∧ node.children cur' !! canon part = Some next) ∧
    valid_child nd' next.
Proof.
  intros Hwf Hlab Hcur. rewrite (handle_part_exact current part st cur Hcur).
  assert (Hlt : current < length (nodes st)) by (by eapply lookup_lt_Some).
  destruct (new_node_fresh part) as [Hh He].
  destruct (node.children cur !! canon part) as [next|] eqn:Hc.
  - exists next, (nodes st). split; [by rewrite <- upd_nodes_same|].
    split; [apply nodes_keep_refl|]. split; [done|]. split; [done|].
    split; [by exists cur|]. by eapply Hwf.
  - eexists _, _. split; [by rewrite upd_nodes_const|].
    split; [by eapply add_child_keep|].
    split; [by eapply add_child_wf|].
    split; [by eapply add_child_labelled|].
    split.
    + exists (add_child (canon part) (length (nodes st)) cur).
      rewrite list_lookup_alter_eq, lookup_app_l, Hcur by done.
      split; [done|]. simpl. by rewrite lookup_insert_eq.
    + exists (new_node part). by rewrite list_lookup_alter_ne, list_lookup_middle by lia.
Qed.

Lemma handle_loop_trie parts : ∀ current st,
  wf_nodes (nodes st) → labelled (nodes st) → is_Some (nodes st !! current) →
  ∃ final nd',
    handle_loop current parts st = (Ok final, upd_nodes (fun _ => nd') st) ∧
    nodes_keep (nodes st) nd' ∧ wf_nodes nd' ∧ labelled nd' ∧
    path_in nd' current (canon <$> parts) final ∧
    (parts ≠ [] → valid_child nd' final).
Proof.
  induction parts as [|part parts IH]; intros current st Hwf Hlab [cur Hcur]; simpl.
  - exists current, (nodes st). split; [by rewrite <- upd_nodes_same|].
    split; [apply nodes_keep_refl|]. by repeat split.
  - destruct (handle_part_trie current part st cur Hwf Hlab Hcur)
      as (next & nd1 & Hpart & Hk1 & Hwf1 & Hlab1 & (cur' & Hcur' & Hnext) & Hv).
    rewrite (bind_Ok _ _ _ _ _ Hpart).
    destruct (IH next (upd_nodes (fun _ => nd1) st) Hwf1 Hlab1)
      as (final & nd' & Hloop & Hk & Hwf' & Hlab' & Hpath & Hvalid).
    { destruct Hv as (n & Hn & _). by exists n. }
    exists final, nd'. split; [rewrite Hloop; by rewrite upd_nodes_upd_nodes|].
    split; [by eapply nodes_keep_trans|]. split; [done|]. split; [done|].
    split.
    + destruct (Hk current cur' Hcur') as (cur'' & Hcur'' & _ & _ & Hsub).
      exists cur'', next. split; [done|]. split; [|done].
      by eapply lookup_weaken.
    + intros _. destruct parts as [|p' parts'].
      * simpl in Hloop. injection Hloop as <- _.
        destruct Hv as (n & Hn & Hh). destruct (Hk next n Hn) as (n' & Hn' & Hh' & _).
        exists n'. split; [done|]. by rewrite Hh'.
      * by apply Hvalid.
Qed.

(** What [handle] does, in one piece: the nodes after the loop over the
    segments, the node reached, and the slice and the arrays of the
    chain. *)
Lemma handle_exact rt method p hs st :
  router_ok st rt → hs ≠ [] →
  ∃ final nd' n hm,
    handle rt method p hs st =
      (Ok tt,
       upd_nodes (fun _ => alter (set_handler method
                                   (chain_slice st (Router.middleware rt) (length hs)) hm)
                             final nd')
         (upd_arrays (fun _ => chain_arrays st (Router.middleware rt) hs) st)) ∧
    nodes_keep (nodes st) nd' ∧ wf_nodes nd' ∧ labelled nd' ∧
    path_in nd' (Router.root rt) (canon <$> segments (Router.prefix rt +:+ p)) final ∧
    nd' !! final = Some n ∧ node.handler n = Some hm.
Proof.
  intros [(Hwf & Hroot & Hmw) Hlab] Hhs. unfold handle.
  case_decide as Hz; [by destruct hs|].
  rewrite (bind_Ok _ _ _ _ _ (make_slice_spec hs st Hhs)).
  set (st1 := upd_arrays (fun a => a ++ [hs]) st).
  set (hsl := Slice (length (arrays st)) (length hs) (length hs)).
  assert (Hhsl : elems st1 hsl = hs).
  { unfold elems, st1, hsl. simpl. rewrite list_lookup_middle by done. simpl.
    by rewrite firstn_all. }
  destruct (handle_loop_trie (segments (Router.prefix rt +:+ p)) (Router.root rt) st1)
    as (final & nd' & Hloop & Hkeep & Hwf' & Hlab' & Hpath & Hvalid); [done|done|done|].
  cbv zeta. rewrite (bind_Ok _ _ _ _ _ Hloop).
  set (st2 := upd_nodes (fun _ => nd') st1).
  destruct (Hvalid (segments_not_nil _)) as (n & Hn & Hh).
  destruct (node.handler n) as [hm|] eqn:Hhm; [|done].
  exists final, nd', n, hm. split; [|by repeat split].
  assert (Hfin : ∀ s st3, nodes st3 = nd' →
     (cur <- deref nodes final ;;
      match node.handler cur with
      | None => panic NilMapAssignment
      | Some hm0 =>
          modify (upd_nodes (alter (fun n0 =>
            node.mk (node.path n0) (Some (<[method := s]> hm0))
                    (node.children n0) (node.isParam n0) (node.paramName n0)) final))
      end) st3 = (Ok tt, upd_nodes (alter (set_handler method s hm) final) st3)).
  { intros s st3 H3. rewrite (bind_Ok _ _ _ _ _ (deref_Ok nodes final st3 n ltac:(by rewrite H3))).
    by rewrite Hhm. }
  unfold chain_slice, chain_arrays.
  case_decide as Hlen.
  - assert (Hget : ∀ B (k : list HandlerFunc → M B),
              (hs0 <- get (fun st0 => elems st0 hsl) ;; k hs0) st2 = k hs st2).
    { intros B k. unfold bind, get. change (elems st2 hsl) with (elems st1 hsl). by rewrite Hhsl. }
    rewrite bind_assoc, Hget. unfold append. case_decide as Hroom.
    + rewrite bind_assoc, bind_modify, bind_ret. by rewrite Hfin.
    + erewrite bind_Ok by reflexivity. rewrite Hfin by done. f_equal.
      apply store_eq; simpl; try done.
      * rewrite length_app. simpl. by rewrite Nat.add_1_r.
      * rewrite <- app_assoc. simpl. do 4 f_equal.
        change (elems st2 (Router.middleware rt)) with (elems st1 (Router.middleware rt)).
        by apply elems_alloc.
  - rewrite bind_ret. by rewrite Hfin.
Qed.

(** ** The invariant of registration *)

Lemma arrays_grow_refl ar : arrays_grow ar ar.
Proof. intros i a Hi. by exists a. Qed.

Lemma arrays_grow_trans ar1 ar2 ar3 :
  arrays_grow ar1 ar2 → arrays_grow ar2 ar3 → arrays_grow ar1 ar3.
Proof.
  intros H12 H23 i a Hi. destruct (H12 i a Hi) as (a2 & Hi2 & Hl2).
  destruct (H23 i a2 Hi2) as (a3 & Hi3 & Hl3). exists a3. split; [done|lia].
Qed.

Lemma arrays_grow_app ar more : arrays_grow ar (ar ++ more).
Proof.
  intros i a Hi. exists a. split; [|done].
  rewrite lookup_app_l; [done|by eapply lookup_lt_Some].
Qed.

Lemma arrays_grow_write ar i n xs :
  arrays_grow ar (alter (fun a => take n a ++ xs ++ drop (n + length xs) a) i ar).
Proof.
  intros j a Hj. destruct (decide (j = i)) as [->|Hne].
  - eexists. rewrite list_lookup_alter_eq, Hj. split; [reflexivity|].
    rewrite !length_app, length_take, length_drop. lia.
  - exists a. by rewrite list_lookup_alter_ne.
Qed.

Lemma slice_ok_grow st st' s :
  arrays_grow (arrays st) (arrays st') → slice_ok st s → slice_ok st' s.
Proof.
  intros Hg [H|(a & Ha & Hle)]; [by left|].
  destruct (Hg _ _ Ha) as (a' & Ha' & Hl). right. exists a'. split; [done|lia].
Qed.

Lemma elems_length st s : slice_ok st s → length (elems st s) = len s.
Proof.
  intros [[Hl _]|(a & Ha & Hle)]; unfold elems.
  - by rewrite Hl.
  - rewrite Ha. simpl. rewrite length_take. lia.
Qed.

Lemma append_ok s xs st :
  slice_ok st s →
  ∃ s' st',
    append s xs st = (Ok s', st') ∧ slice_ok st' s' ∧
    arrays_grow (arrays st) (arrays st') ∧ nodes st' = nodes st ∧
    elems st' s' = elems st s ++ xs.
Proof.
  intros Hok.
  destruct (append_spec s xs st Hok) as (s' & ar' & Happ & Hel).
  exists s', (upd_arrays (fun _ => ar') st). split; [done|].
  split; [|split; [|by split]].
  - unfold append in Happ. case_decide as Hroom.
    + injection Happ as <- <-.
      destruct Hok as [[Hl Hc]|(a & Ha & Hle)].
      * left. simpl. split; [lia|done].
      * right. eexists. simpl. rewrite list_lookup_alter_eq, Ha. split; [reflexivity|].
        rewrite !length_app, length_take. lia.
    + injection Happ as <- <-.
      right. eexists. simpl. rewrite list_lookup_middle by done. split; [reflexivity|].
      rewrite !length_app, (elems_length st s Hok). lia.
  - unfold append in Happ. case_decide as Hroom.
    + injection Happ as _ <-.
      simpl. apply arrays_grow_write.
    + injection Happ as _ <-.
      simpl. apply arrays_grow_app.
Qed.

Lemma chain_arrays_grow st mw hs : arrays_grow (arrays st) (chain_arrays st mw hs).
Proof.
  unfold chain_arrays. repeat case_decide; try apply arrays_grow_app.
  eapply arrays_grow_trans; [apply (arrays_grow_app _ [hs])|apply arrays_grow_write].
Qed.

Lemma router_ok_frame st st' rt :
  router_ok st rt → nodes_ext (nodes st) (nodes st') → wf_nodes (nodes st') →
  labelled (nodes st') → arrays_grow (arrays st) (arrays st') → router_ok st' rt.
Proof.
  intros [(Hwf & [r Hroot] & Hmw) Hlab] Hkeep Hwf' Hlab' Hgrow.
  split; [|done]. split; [done|]. split; [|by eapply slice_ok_grow].
  destruct (Hkeep _ _ Hroot) as (r' & Hr' & _). by exists r'.
Qed.

Lemma set_handler_labelled nd final method s hm :
  labelled nd → labelled (alter (set_handler method s hm) final nd).
Proof.
  intros [lab Hlab]. exists lab. intros l n k c Hl Hc.
  destruct (decide (l = final)) as [->|Hne].
  - rewrite list_lookup_alter_eq in Hl. destruct (nd !! final) as [n0|] eqn:Hn0; [|done].
    simpl in Hl. injection Hl as <-. by eapply Hlab.
  - rewrite list_lookup_alter_ne in Hl by done. by eapply Hlab.
Qed.

Lemma nodes_keep_app nd new : nodes_keep nd (nd ++ [new]).
Proof.
  intros l n Hl. exists n. rewrite lookup_app_l by (by eapply lookup_lt_Some). done.
Qed.

Lemma wf_nodes_root nd new : wf_nodes nd → node.children new = ∅ → wf_nodes (nd ++ [new]).
Proof.
  intros Hwf Hempty l n k c Hl Hc.
  destruct (decide (l < length nd)) as [Hlt|Hge].
  - rewrite lookup_app_l in Hl by done. destruct (Hwf l n k c Hl Hc) as (nc & Hnc & Hh).
    exists nc. rewrite lookup_app_l by (by eapply lookup_lt_Some). done.
  - apply lookup_lt_Some in Hl as Hl'. rewrite length_app in Hl'. simpl in Hl'.
    assert (l = length nd) as -> by lia.
    rewrite list_lookup_middle in Hl by done. injection Hl as <-.
    by rewrite Hempty, lookup_empty in Hc.
Qed.

Lemma labelled_root nd new : labelled nd → node.children new = ∅ → labelled (nd ++ [new]).
Proof.
  intros [lab Hlab] Hempty. exists lab. intros l n k c Hl Hc.
  destruct (decide (l < length nd)) as [Hlt|Hge].
  - rewrite lookup_app_l in Hl by done. by eapply Hlab.
  - apply lookup_lt_Some in Hl as Hl'. rewrite length_app in Hl'. simpl in Hl'.
    assert (l = length nd) as -> by lia.
    rewrite list_lookup_middle in Hl by done. injection Hl as <-.
    by rewrite Hempty, lookup_empty in Hc.
Qed.

Lemma handle_keeps_ok rt method p hs st st' :
  router_ok st rt → hs ≠ [] → handle rt method p hs st = (Ok tt, st') →
  ∀ rt0, router_ok st rt0 → router_ok st' rt0.
Proof.
  intros Hok Hhs Hrun'.
  destruct (handle_exact rt method p hs st Hok Hhs)
    as (final & nd' & n & hm & Hrun & Hkeep & Hwf' & Hlab' & Hpath & Hn & Hhm).
  rewrite Hrun in Hrun'. injection Hrun' as <-.
  intros rt0 H0. eapply router_ok_frame; [exact H0| | | |]; simpl.
  - eapply nodes_ext_trans; [apply nodes_keep_ext, Hkeep|apply set_handler_ext].
  - by apply set_handler_wf.
  - by apply set_handler_labelled.
  - apply chain_arrays_grow.
Qed.

(** X3. Routers made by [NewRouter], [Use], [Group] and [handle] stay in
    order: on them none of the four panics, as long as [handle] is given a
    handler. [Use] puts the middleware after the ones the router has, and a
    group has the root and the middleware of its parent and the prefix of
    the parent followed by its own. *)
Theorem registration_never_panics :
  (∀ log st, wf_nodes (nodes st) → labelled (nodes st) →
     ∃ rt st', NewRouter log st = (Ok rt, st') ∧ router_ok st' rt ∧
               ∀ rt0, router_ok st rt0 → router_ok st' rt0) ∧
  (∀ rt mw st, router_ok st rt →
     ∃ rt' st', Use rt mw st = (Ok rt', st') ∧ router_ok st' rt' ∧
                elems st' (Router.middleware rt') = elems st (Router.middleware rt) ++ [mw] ∧
                ∀ rt0, router_ok st rt0 → router_ok st' rt0) ∧
  (∀ rt prefix st, router_ok st rt →
     ∃ g st', Group rt prefix st = (Ok g, st') ∧ router_ok st' g ∧
              Router.root g = Router.root rt ∧
              Router.middleware g = Router.middleware rt ∧
              Router.prefix g = Router.prefix rt +:+ prefix ∧
              ∀ rt0, router_ok st rt0 → router_ok st' rt0) ∧
  (∀ rt method p hs st, router_ok st rt → hs ≠ [] →
     ∃ st', handle rt method p hs st = (Ok tt, st') ∧
            ∀ rt0, router_ok st rt0 → router_ok st' rt0).
Proof.
  split; [|split; [|split]].
  - intros log st Hwf Hlab. eexists _, _. split; [reflexivity|].
    assert (Hwf' : wf_nodes (nodes st ++ [node.mk EmptyString None ∅ false EmptyString]))
      by (by apply wf_nodes_root).
    assert (Hlab' : labelled (nodes st ++ [node.mk EmptyString None ∅ false EmptyString]))
      by (by apply labelled_root).
    split.
    + split; [|done]. split; [done|]. split; [|by left].
      simpl. rewrite list_lookup_middle by done. by eexists.
    + intros rt0 H0. eapply router_ok_frame; [exact H0| | | |]; simpl;
        [apply nodes_keep_ext, nodes_keep_app|done|done|apply arrays_grow_refl].
  - intros rt mw st Hok. pose proof Hok as [(Hwf & Hroot & Hmw) Hlab].
    destruct (append_ok (Router.middleware rt) [mw] st Hmw)
      as (s' & st' & Happ & Hok' & Hgrow & Hnodes & Hel).
    eexists _, st'. unfold Use. rewrite (bind_Ok _ _ _ _ _ Happ).
    split; [reflexivity|]. split; [|split; [done|]].
    + split; [|by rewrite Hnodes]. split; [by rewrite Hnodes|].
      split; [by rewrite Hnodes|done].
    + intros rt0 H0. eapply router_ok_frame; [exact H0| | | |done]; rewrite Hnodes;
        [apply nodes_ext_refl|done|done].
  - intros rt prefix st Hok. eexists _, _. split; [reflexivity|].
    split; [exact Hok|]. repeat split; try done.
    all: try (by destruct Hok as [(? & ? & ?) ?]).
    all: intros; by destruct H as [(? & ? & ?) ?].
  - intros rt method p hs st Hok Hhs.
    destruct (handle_exact rt method p hs st Hok Hhs)
      as (final & nd' & n & hm & Hrun & _).
    eexists. split; [exact Hrun|]. by eapply handle_keeps_ok.
Qed.

Lemma registration_never_panics_witness :
  ∃ st', handle rt_new "GET" "/" [h_me] (snd (NewRouter (Some []) emptyStore)) = (Ok tt, st') ∧
         ∀ rt0, router_ok (snd (NewRouter (Some []) emptyStore)) rt0 → router_ok st' rt0.
Proof.
  apply (proj2 (proj2 (proj2 registration_never_panics))); [|done].
  destruct (proj1 registration_never_panics (Some []) emptyStore) as (rt & st' & Hrun & Hok & _).
  - by intros l n k c Hl.
  - exists (fun _ => []). by intros l n k c Hl.
  - injection Hrun as <- <-. exact Hok.
Defined.

(** ** Two routes on one router *)

Lemma two_routes rt m1 p1 hs1 m2 p2 hs2 st :
  router_ok st rt → hs1 ≠ [] → hs2 ≠ [] →
  (m1 ≠ m2 ∨
   canon <$> segments (Router.prefix rt +:+ p1) ≠ canon <$> segments (Router.prefix rt +:+ p2)) →
  ∃ st1 st2,
    handle rt m1 p1 hs1 st = (Ok tt, st1) ∧ handle rt m2 p2 hs2 st1 = (Ok tt, st2) ∧
    arrays st1 = chain_arrays st (Router.middleware rt) hs1 ∧
    arrays st2 = chain_arrays st1 (Router.middleware rt) hs2 ∧
    ∀ reqpath,
      instance_of (nodes st2) (Router.root rt)
        (segments (Router.prefix rt +:+ p1)) (segments reqpath) →
      resolve rt (Req m1 reqpath) st2 =
        (Ok (Found (chain_slice st (Router.middleware rt) (length hs1))
               (bindings (segments (Router.prefix rt +:+ p1)) (segments reqpath) ∅)),
         st2).
Proof.
  intros Hok Hhs1 Hhs2 Hdiff.
  destruct (handle_exact rt m1 p1 hs1 st Hok Hhs1)
    as (final1 & nd1 & n1 & hm1 & Hrun1 & Hkeep1 & Hwf1 & Hlab1 & Hpath1 & Hn1 & Hhm1).
  set (s1 := chain_slice st (Router.middleware rt) (length hs1)) in *.
  set (st1 := upd_nodes (fun _ => alter (set_handler m1 s1 hm1) final1 nd1)
                (upd_arrays (fun _ => chain_arrays st (Router.middleware rt) hs1) st)) in *.
  assert (Hok1 : router_ok st1 rt) by (by eapply (handle_keeps_ok rt m1 p1 hs1 st)).
  destruct (handle_exact rt m2 p2 hs2 st1 Hok1 Hhs2)
    as (final2 & nd2 & n2 & hm2 & Hrun2 & Hkeep2 & Hwf2 & Hlab2 & Hpath2 & Hn2 & Hhm2).
  eexists st1, _. split; [exact Hrun1|]. split; [exact Hrun2|].
  split; [reflexivity|]. split; [reflexivity|].
  intros reqpath Hinst.
  (* the node of the first route after the second registration *)
  assert (Hf1 : nodes st1 !! final1 = Some (set_handler m1 s1 hm1 n1))
    by (simpl; by rewrite list_lookup_alter_eq, Hn1).
  destruct (Hkeep2 _ _ Hf1) as (n1' & Hn1' & Hh1' & _).
  assert (Hp1 : path_in nd2 (Router.root rt)
                  (canon <$> segments (Router.prefix rt +:+ p1)) final1).
  { eapply path_in_keep; [exact Hkeep2|]. simpl.
    eapply path_in_ext; [apply set_handler_ext|done]. }
  assert (Hfinal : ∃ n hm, alter (set_handler m2 (chain_slice st1 (Router.middleware rt)
                                                   (length hs2)) hm2) final2 nd2 !! final1
                            = Some n ∧ node.handler n = Some hm ∧ hm !! m1 = Some s1).
  { destruct (decide (final1 = final2)) as [Heq|Hne].
    - subst final2. rewrite Hn1' in Hn2. injection Hn2 as <-.
      destruct Hdiff as [Hm|Hkeys]; [|by destruct Hkeys; eapply path_in_inj].
      eexists _, _. rewrite list_lookup_alter_eq, Hn1'. split; [reflexivity|].
      split; [reflexivity|]. rewrite lookup_insert_ne by done.
      rewrite Hh1' in Hhm2. simpl in Hhm2. injection Hhm2 as <-. by rewrite lookup_insert_eq.
    - eexists n1', _. rewrite list_lookup_alter_ne by done. split; [done|].
      split; [by rewrite Hh1'|]. by rewrite lookup_insert_eq. }
  destruct Hfinal as (n & hm & Hn & Hh & Hm).
  eapply resolve_Found; [|exact Hn|exact Hh|exact Hm].
  apply walk_instance; [exact Hinst|]. simpl.
  eapply path_in_ext; [apply set_handler_ext|done].
Qed.

Lemma chain_kept st st1 st2 mw hs1 hs2 :
  slice_ok st mw →
  arrays st1 = chain_arrays st mw hs1 → arrays st2 = chain_arrays st1 mw hs2 →
  len mw = 0 ∨ cap mw < len mw + length hs1 ∨ cap mw < len mw + length hs2 →
  elems st2 (chain_slice st mw (length hs1)) = elems st mw ++ hs1.
Proof.
  intros Hok H1 H2 Hcase. pose proof (elems_length st mw Hok) as Hlen.
  unfold chain_slice, elems at 1. rewrite H2. unfold chain_arrays at 1. rewrite H1.
  unfold chain_arrays.
  destruct (decide (0 < len mw)) as [Hpos|Hzero].
  - destruct Hok as [[Hl _]|(a & Ha & Hle)]; [lia|].
    assert (Hlt : array mw < length (arrays st)) by (by eapply lookup_lt_Some).
    assert (Hel : elems st mw = take (len mw) a) by (unfold elems; by rewrite Ha).
    destruct (decide (len mw + length hs1 ≤ cap mw)) as [Hroom1|Hno1].
    + destruct (decide (len mw + length hs2 ≤ cap mw)) as [Hroom2|Hno2]; [lia|].
      simpl. rewrite lookup_app_l by (rewrite length_alter, length_app; lia).
      rewrite list_lookup_alter_eq, lookup_app_l, Ha by done. simpl.
      rewrite Hel, app_assoc, take_app_le by (rewrite length_app, length_take; lia).
      by rewrite take_ge by (rewrite length_app, length_take; lia).
    + simpl.
      assert (Hat : ∀ l : list (list HandlerFunc),
                l !! S (length (arrays st)) =
                  (arrays st ++ [hs1; elems st mw ++ hs1 ++
                     replicate (runtime.growslice (len mw + length hs1) (cap mw)
                                - (len mw + length hs1)) None]) !! S (length (arrays st)) →
                take (len mw + length hs1) (default [] (l !! S (length (arrays st))))
                  = elems st mw ++ hs1).
      { intros l ->. rewrite lookup_app_r by lia.
        replace (S (length (arrays st)) - length (arrays st)) with 1 by lia. simpl.
        rewrite app_assoc, take_app_le by (rewrite length_app; lia).
        by rewrite take_ge by (rewrite length_app; lia). }
      apply Hat. destruct (decide (len mw + length hs2 ≤ cap mw)).
      * rewrite list_lookup_alter_ne by lia.
        rewrite lookup_app_l; [done|]. rewrite length_app. simpl. lia.
      * rewrite lookup_app_l; [done|]. rewrite length_app. simpl. lia.
  - simpl. rewrite lookup_app_l by (rewrite length_app; simpl; lia).
    rewrite list_lookup_middle by done. simpl. rewrite firstn_all.
    assert (elems st mw = []) as ->; [|done].
    apply length_zero_iff_nil. lia.
Qed.

Lemma chain_written st st1 st2 mw hs1 hs2 :
  slice_ok st mw →
  arrays st1 = chain_arrays st mw hs1 → arrays st2 = chain_arrays st1 mw hs2 →
  0 < len mw → len mw + length hs2 ≤ cap mw → length hs1 ≤ length hs2 →
  elems st2 (chain_slice st mw (length hs1)) = elems st mw ++ take (length hs1) hs2.
Proof.
  intros Hok H1 H2 Hpos Hroom2 Hle12. pose proof (elems_length st mw Hok) as Hlen.
  unfold chain_slice, elems at 1. rewrite H2. unfold chain_arrays at 1. rewrite H1.
  unfold chain_arrays.
  destruct Hok as [[Hl _]|(a & Ha & Hle)]; [lia|].
  assert (Hlt : array mw < length (arrays st)) by (by eapply lookup_lt_Some).
  assert (Hel : elems st mw = take (len mw) a) by (unfold elems; by rewrite Ha).
  rewrite !decide_True by lia. simpl.
  rewrite list_lookup_alter_eq.
  rewrite lookup_app_l by (rewrite length_alter, length_app; lia).
  rewrite list_lookup_alter_eq, lookup_app_l, Ha by done. simpl.
  assert (Hin : take (len mw) (take (len mw) a ++ hs1 ++ drop (len mw + length hs1) a)
                = take (len mw) a).
  { rewrite take_app_le by (rewrite length_take; lia). by rewrite take_take, Nat.min_id. }
  rewrite Hin.
  rewrite take_app_ge by (rewrite length_take; lia).
  rewrite length_take, Nat.min_l by done.
  replace (len mw + length hs1 - len mw) with (length hs1) by lia.
  rewrite take_app_le by done. by rewrite Hel.
Qed.

(** X5. A route keeps its chain when another route is registered, with
    another method or another path, on a router without middleware or whose
    middleware slice has no room for the handlers of one of the two: the
    requests of the first route still find the middleware followed by its
    own handlers. *)
Theorem later_route_leaves_chain rt m1 p1 hs1 m2 p2 hs2 st :
  router_ok st rt → hs1 ≠ [] → hs2 ≠ [] →
  (m1 ≠ m2 ∨
   canon <$> segments (Router.prefix rt +:+ p1) ≠ canon <$> segments (Router.prefix rt +:+ p2)) →
  (len (Router.middleware rt) = 0 ∨
   cap (Router.middleware rt) < len (Router.middleware rt) + length hs1 ∨
   cap (Router.middleware rt) < len (Router.middleware rt) + length hs2) →
  ∃ st1 st2,
    handle rt m1 p1 hs1 st = (Ok tt, st1) ∧ handle rt m2 p2 hs2 st1 = (Ok tt, st2) ∧
    ∀ reqpath,
      instance_of (nodes st2) (Router.root rt)
        (segments (Router.prefix rt +:+ p1)) (segments reqpath) →
      ∃ handler,
        resolve rt (Req m1 reqpath) st2 =
          (Ok (Found handler
                 (bindings (segments (Router.prefix rt +:+ p1)) (segments reqpath) ∅)),
           st2) ∧
        elems st2 handler = elems st (Router.middleware rt) ++ hs1.
Proof.
  intros Hok Hhs1 Hhs2 Hdiff Hcase.
  destruct (two_routes rt m1 p1 hs1 m2 p2 hs2 st Hok Hhs1 Hhs2 Hdiff)
    as (st1 & st2 & Hrun1 & Hrun2 & Ha1 & Ha2 & Hres).
  exists st1, st2. split; [done|]. split; [done|].
  intros reqpath Hinst. eexists. split; [by apply Hres|].
  eapply chain_kept; try done. by destruct Hok as [(_ & _ & Hmw) _].
Qed.

Lemma single_root :
  wf_nodes [node.mk EmptyString None ∅ false EmptyString] ∧
  labelled [node.mk EmptyString None ∅ false EmptyString].
Proof.
  split; [|exists (fun _ => [])]; intros l n k c Hl Hc; (destruct l as [|l]; [|done]);
    injection Hl as <-; simpl in Hc; by rewrite lookup_empty in Hc.
Qed.

Lemma router_ok_new : router_ok (snd (NewRouter (Some []) emptyStore)) rt_new.
Proof.
  destruct single_root as [Hwf Hlab].
  split; [split; [exact Hwf|split]|exact Hlab].
  - by eexists.
  - by left.
Qed.

Lemma later_route_leaves_chain_witness :
  ∃ st1 st2,
    handle rt_new "GET" "/users/:id" [h_user] (snd (NewRouter (Some []) emptyStore))
      = (Ok tt, st1) ∧
    handle rt_new "GET" "/users/me" [h_me] st1 = (Ok tt, st2) ∧
    ∃ handler,
      resolve rt_new (Req "GET" "/users/42") st2 =
        (Ok (Found handler (<["id" := "42"]> ∅)), st2) ∧
      elems st2 handler = [h_user].
Proof.
  destruct (later_route_leaves_chain rt_new "GET" "/users/:id" [h_user]
              "GET" "/users/me" [h_me] (snd (NewRouter (Some []) emptyStore)))
    as (st1 & st2 & Hrun1 & Hrun2 & Hres);
    [exact router_ok_new|done|done|right; vm_compute; discriminate|by left|].
  exists st1, st2. split; [exact Hrun1|]. split; [exact Hrun2|].
  apply (Hres "/users/42").
  vm_compute in Hrun1. injection Hrun1 as <-.
  vm_compute in Hrun2. injection Hrun2 as <-.
  simpl. eexists _, 1. split; [reflexivity|]. split; [vm_compute; reflexivity|].
  split; [done|].
  eexists _, 2. split; [reflexivity|]. split; [vm_compute; reflexivity|].
  split; [|done]. split; [vm_compute; reflexivity|].
  eexists. split; [reflexivity|]. reflexivity.
Defined.

(** X6. When the middleware slice has room for the handlers of a route,
    [handle] writes them into the array of the middleware: two routes of
    one router then share that array, and once the second is registered,
    the requests of the first find the middleware followed by the handlers
    of the second in the place of its own. *)
Theorem later_route_overwrites_chain rt m1 p1 hs1 m2 p2 hs2 st :
  router_ok st rt → hs1 ≠ [] → hs2 ≠ [] →
  (m1 ≠ m2 ∨
   canon <$> segments (Router.prefix rt +:+ p1) ≠ canon <$> segments (Router.prefix rt +:+ p2)) →
  0 < len (Router.middleware rt) →
  len (Router.middleware rt) + length hs2 ≤ cap (Router.middleware rt) →
  length hs1 ≤ length hs2 →
  ∃ st1 st2,
    handle rt m1 p1 hs1 st = (Ok tt, st1) ∧ handle rt m2 p2 hs2 st1 = (Ok tt, st2) ∧
    ∀ reqpath,
      instance_of (nodes st2) (Router.root rt)
        (segments (Router.prefix rt +:+ p1)) (segments reqpath) →
      ∃ handler,
        resolve rt (Req m1 reqpath) st2 =
          (Ok (Found handler
                 (bindings (segments (Router.prefix rt +:+ p1)) (segments reqpath) ∅)),
           st2) ∧
        elems st2 handler = elems st (Router.middleware rt) ++ take (length hs1) hs2.
Proof.
  intros Hok Hhs1 Hhs2 Hdiff Hpos Hroom Hle.
  destruct (two_routes rt m1 p1 hs1 m2 p2 hs2 st Hok Hhs1 Hhs2 Hdiff)
    as (st1 & st2 & Hrun1 & Hrun2 & Ha1 & Ha2 & Hres).
  exists st1, st2. split; [done|]. split; [done|].
  intros reqpath Hinst. eexists. split; [by apply Hres|].
  eapply chain_written; try done. by destruct Hok as [(_ & _ & Hmw) _].
Qed.

Lemma three_middleware_eq : fst three_middleware = Ok rt_three.
Proof. reflexivity. Qed.

Lemma router_ok_three : router_ok (snd three_middleware) rt_three.
Proof.
  destruct single_root as [Hwf Hlab].
  split; [split; [exact Hwf|split]|exact Hlab].
  - by eexists.
  - right. eexists. split; [reflexivity|]. simpl. lia.
Qed.

Lemma later_route_overwrites_chain_witness :
  ∃ st1 st2,
    handle rt_three "GET" "/users" [h_user] (snd three_middleware) = (Ok tt, st1) ∧
    handle rt_three "GET" "/me" [h_me] st1 = (Ok tt, st2) ∧
    ∃ handler,
      resolve rt_three (Req "GET" "/users") st2 = (Ok (Found handler ∅), st2) ∧
      elems st2 handler = [mw_log; mw_log; mw_log; h_me].
Proof.
  destruct (later_route_overwrites_chain rt_three "GET" "/users" [h_user]
              "GET" "/me" [h_me] (snd three_middleware))
    as (st1 & st2 & Hrun1 & Hrun2 & Hres);
    [exact router_ok_three|done|done|right; vm_compute; discriminate
    |simpl; lia|simpl; lia|simpl; lia|].
  exists st1, st2. split; [exact Hrun1|]. split; [exact Hrun2|].
  apply (Hres "/users").
  vm_compute in Hrun1. injection Hrun1 as <-.
  vm_compute in Hrun2. injection Hrun2 as <-.
  simpl. eexists _, 1. split; [reflexivity|]. split; [vm_compute; reflexivity|].
  split; [done|]. done.
Defined.

(** ** Requests, step by step *)

Lemma setup_exact rt wr req st l ws lg :
  pools st !! Router.pool rt = Some l →
  (∀ c, head l = Some c → is_Some (ctxs st !! c)) →
  writers st !! wr = Some ws → Router.log rt = Some lg →
  ∃ c st1,
    ServeHTTP_setup rt wr req st = (Ok c, st1) ∧
    ctxs st1 !! c = Some (served_context st wr req lg) ∧
    (head l = Some c ∨ (l = [] ∧ c = length (ctxs st))) ∧
    pools st1 = <[Router.pool rt := tail l]> (pools st) ∧
    cells st1 = cells st ++ [false] ∧ wgs st1 = wgs st ++ [0%Z] ∧
    writers st1 = <[wr := ws ++ [content_type]]> (writers st) ∧
    nodes st1 = nodes st ∧ arrays st1 = arrays st ∧ now st1 = now st ∧
    invoked st1 = invoked st ∧
    (∀ c', c' ≠ c → c' < length (ctxs st) → ctxs st1 !! c' = ctxs st !! c').
Proof.
  intros Hp Hhead Hws Hlog.
  destruct rt as [root mw pool lg0 prefix]. simpl in *. subst lg0.
  assert (Hwlt : wr < length (writers st)) by (by eapply lookup_lt_Some).
  assert (Hplt : pool < length (pools st)) by (by eapply lookup_lt_Some).
  assert (Hwr : alter (fun l0 => l0 ++ [content_type]) wr (writers st)
                = <[wr := ws ++ [content_type]]> (writers st)).
  { apply list_eq. intros i. destruct (decide (i = wr)) as [->|Hne].
    - by rewrite list_lookup_alter_eq, Hws, list_lookup_insert_eq.
    - by rewrite list_lookup_alter_ne, list_lookup_insert_ne. }
  unfold ServeHTTP_setup, Pool_Get. simpl.
  destruct l as [|c l].
  - eexists _, _. split; [mrun; reflexivity|].
    split; [lookup_solver|]. split; [by right|]. simpl.
    split; [by rewrite list_insert_id|].
    split; [done|]. split; [done|]. split; [done|].
    split; [done|]. split; [done|]. split; [done|]. split; [done|].
    intros c' Hne Hlt. rewrite !list_lookup_insert_ne by done. by rewrite lookup_app_l.
  - destruct (Hhead c eq_refl) as [x Hx].
    assert (Hclt : c < length (ctxs st)) by (by eapply lookup_lt_Some).
    eexists _, _. split; [mrun; reflexivity|].
    split; [lookup_solver|]. split; [by left|]. simpl.
    split; [done|].
    split; [done|]. split; [done|]. split; [done|].
    split; [done|]. split; [done|]. split; [done|]. split; [done|].
    intros c' Hne Hlt. by rewrite !list_lookup_insert_ne.
Qed.

Lemma continue_found rt c handler params st x p :
  ctxs st !! c = Some x → APIContext.wg x = Some p → wgs st !! p = Some 0%Z →
  ∃ s' st2,
    ServeHTTP_continue rt c (Found handler params) st
      = (Ok (c, Some (Job.mk (Some c) handler)), st2) ∧
    ctxs st2 = <[c := set_handlers s' (set_pathParams params x)]> (ctxs st) ∧
    wgs st2 = <[p := 1%Z]> (wgs st) ∧
    cells st2 = cells st ∧ writers st2 = writers st ∧ now st2 = now st ∧
    invoked st2 = invoked st ∧ nodes st2 = nodes st ∧ pools st2 = pools st ∧
    arrays st2 = appended st (Router.middleware rt) (elems st handler).
Proof.
  intros Hx Hwg Hp.
  assert (Hclt : c < length (ctxs st)) by (by eapply lookup_lt_Some).
  assert (Hplt : p < length (wgs st)) by (by eapply lookup_lt_Some).
  unfold ServeHTTP_continue, setHandlers, setMiddleware, Submit, WaitGroup_Add.
  mstep. mstep. mstep. mstep. mstep. mstep. rewrite ?bind_assoc.
  unfold append, appended.
  change (elems (upd_ctxs _ (upd_ctxs _ st)) ?s) with (elems st s).
  simpl APIContext.handlers. case_decide as Hroom.
  - mrun. eexists _, _. split; [reflexivity|]. simpl.
    rewrite ?list_insert_insert_eq. by repeat split.
  - mrun. eexists _, _. split; [reflexivity|]. simpl.
    rewrite ?list_insert_insert_eq. by repeat split.
Qed.

Lemma dispatch_found rt wr req st l ws lg cur n params handler :
  pools st !! Router.pool rt = Some l →
  (∀ c, head l = Some c → is_Some (ctxs st !! c)) →
  writers st !! wr = Some ws → Router.log rt = Some lg →
  walk (nodes st) (Router.root rt) (segments (URLPath req)) ∅ = Reached cur params →
  nodes st !! cur = Some n → node.handler n ≫= (.!! Method req) = Some handler →
  ∃ c s' st2,
    ServeHTTP_dispatch rt wr req st = (Ok (c, Some (Job.mk (Some c) handler)), st2) ∧
    ctxs st2 !! c =
      Some (set_handlers s' (set_pathParams params (served_context st wr req lg))) ∧
    (head l = Some c ∨ (l = [] ∧ c = length (ctxs st))) ∧
    pools st2 = <[Router.pool rt := tail l]> (pools st) ∧
    cells st2 = cells st ++ [false] ∧ wgs st2 = wgs st ++ [1%Z] ∧
    writers st2 = <[wr := ws ++ [content_type]]> (writers st) ∧
    nodes st2 = nodes st ∧ now st2 = now st ∧ invoked st2 = invoked st ∧
    arrays st2 = appended st (Router.middleware rt) (elems st handler).
Proof.
  intros Hp Hhead Hws Hlog Hwalk Hn Hh.
  destruct (setup_exact rt wr req st l ws lg Hp Hhead Hws Hlog)
    as (c & st1 & Hset & Hx1 & Hc & Hpools1 & Hcells1 & Hwgs1 & Hwr1 & Hnodes1 & Harr1 &
        Hnow1 & Hinv1 & _).
  assert (Hres : resolve rt req st1 = (Ok (Found handler params), st1)).
  { destruct (node.handler n) as [hm|] eqn:Hhm; [|done].
    apply (resolve_Found rt req st1 cur params n hm handler); rewrite ?Hnodes1; done. }
  destruct (continue_found rt c handler params st1 _ (length (wgs st)) Hx1 eq_refl)
    as (s' & st2 & Hcont & Hctxs2 & Hwgs2 & Hcells2 & Hwr2 & Hnow2 & Hinv2 & Hnodes2 &
        Hpools2 & Harr2).
  { rewrite Hwgs1. by apply list_lookup_middle. }
  exists c, s', st2. split.
  { unfold ServeHTTP_dispatch. rewrite (bind_Ok _ _ _ _ _ Hset).
    by rewrite (bind_Ok _ _ _ _ _ Hres). }
  split. { rewrite Hctxs2. apply list_lookup_insert_eq. by eapply lookup_lt_Some. }
  split; [done|]. split; [congruence|]. split; [congruence|].
  split. { rewrite Hwgs2, Hwgs1. by rewrite insert_app_r_alt, Nat.sub_diag by done. }
  split; [congruence|]. split; [congruence|]. split; [congruence|]. split; [congruence|].
  rewrite Harr2. unfold appended, elems. by rewrite Harr1.
Qed.

(** X10. The handlers of a route read the segments that the request has in the
    places of the captures: after the dispatch of a request that resolves,
    [GetFromPath] returns the bound segment, or the empty string for a name
    that is not bound, when the method is GET; for every other method it
    returns the error and the empty string. *)
Theorem handlers_read_path_parameters rt wr req st cur n params handler :
  ready st rt wr →
  walk (nodes st) (Router.root rt) (segments (URLPath req)) ∅ = Reached cur params →
  nodes st !! cur = Some n → node.handler n ≫= (.!! Method req) = Some handler →
  ∃ c st2,
    ServeHTTP_dispatch rt wr req st = (Ok (c, Some (Job.mk (Some c) handler)), st2) ∧
    ∀ key,
      GetFromPath c key st2 =
        (Ok (if String.eqb (Method req) "GET"
             then (default EmptyString (params !! key), false)
             else (EmptyString, true)), st2).
Proof.
  intros (l & ws & lg & Hp & Hhead & Hws & Hlog) Hwalk Hn Hh.
  destruct (dispatch_found rt wr req st l ws lg cur n params handler Hp Hhead Hws Hlog
              Hwalk Hn Hh) as (c & s' & st2 & Hrun & Hx2 & _).
  exists c, st2. split; [exact Hrun|]. intros key. unfold GetFromPath.
  rewrite (bind_Ok _ _ _ _ _ (deref_Ok ctxs c st2 _ Hx2)). simpl.
  rewrite bind_ret. by destruct (String.eqb (Method req) "GET").
Qed.

Lemma handlers_read_path_parameters_witness :
  ∃ c st2,
    ServeHTTP_dispatch rt_new 0 (Req "GET" "/users/42") serving_store
      = (Ok (c, Some (Job.mk (Some c) (Slice 0 1 1))), st2) ∧
    ∀ key,
      GetFromPath c key st2 =
        (Ok (default EmptyString ((<["id" := "42"]> ∅ : gmap string string) !! key), false), st2).
Proof.
  eapply (handlers_read_path_parameters rt_new 0 (Req "GET" "/users/42") serving_store 2
           _ (<["id" := "42"]> ∅) (Slice 0 1 1) ready_serving);
    [vm_compute; reflexivity|reflexivity|vm_compute; reflexivity].
Defined.

Lemma bind_inv {A B} (m : M A) (f : A → M B) st b st' :
  bind m f st = (Ok b, st') → ∃ a st1, m st = (Ok a, st1) ∧ f a st1 = (Ok b, st').
Proof.
  unfold bind. destruct (m st) as [[a|e|] st1]; intros H; try done. by exists a, st1.
Qed.

Lemma continue_ctx rt c res st c' oj st' :
  ServeHTTP_continue rt c res st = (Ok (c', oj), st') → c' = c.
Proof.
  intros H. destruct res; simpl in H.
  - apply bind_inv in H as (? & ? & _ & H). apply bind_inv in H as (? & ? & _ & H).
    by injection H.
  - apply bind_inv in H as (? & ? & _ & H). apply bind_inv in H as (? & ? & _ & H).
    by injection H.
  - apply bind_inv in H as (? & ? & _ & H). apply bind_inv in H as (? & ? & _ & H).
    apply bind_inv in H as (? & ? & _ & H). apply bind_inv in H as (? & ? & _ & H).
    by injection H.
Qed.

(** [ServeHTTP] after its dispatch: the job, if any, is run, and the
    deferred func follows. *)
Lemma ServeHTTP_after_dispatch rt wr req st c oj st2 :
  ServeHTTP_dispatch rt wr req st = (Ok (c, oj), st2) →
  ServeHTTP rt wr req st =
    defer (ServeHTTP_deferred rt c)
      (match oj with Some job => worker job | None => ret tt end) st2.
Proof.
  unfold ServeHTTP_dispatch, ServeHTTP. intros H.
  apply bind_inv in H as (c0 & st1 & Hset & H).
  apply bind_inv in H as (res & st1' & Hres & H).
  pose proof (continue_ctx _ _ _ _ _ _ _ H) as ->.
  rewrite (bind_Ok _ _ _ _ _ Hset). unfold defer.
  rewrite (bind_Ok _ _ _ _ _ Hres), (bind_Ok _ _ _ _ _ H). done.
Qed.

Lemma deferred_exact rt c st x p l :
  ctxs st !! c = Some x → APIContext.wg x = Some p → wgs st !! p = Some 0%Z →
  pools st !! Router.pool rt = Some l →
  ServeHTTP_deferred rt c st =
    (Ok tt,
     upd_pools (<[Router.pool rt := c :: l]>)
       (upd_ctxs (<[c := reset_context st x]>) (upd_wgs (fun h => h ++ [0%Z]) st))).
Proof.
  intros Hx Hwg Hp Hl. unfold ServeHTTP_deferred, wait, WaitGroup_Wait, Pool_Put.
  rewrite bind_assoc, (bind_Ok _ _ _ _ _ (field_Ok c APIContext.wg st x p Hx Hwg)).
  rewrite bind_assoc, (bind_Ok _ _ _ _ _ (deref_Ok wgs p st 0%Z Hp)). simpl.
  rewrite bind_ret, (bind_Ok _ _ _ _ _ (reset_spec c st x Hx)).
  erewrite bind_Ok by (apply deref_Ok; simpl; exact Hl).
  reflexivity.
Qed.

Lemma reset_context_observes st st0 c x :
  ctxs st !! c = Some (reset_context st0 x) → observes_nothing st c.
Proof.
  intros Hx. split; [|split].
  - intros key. unfold Value. by rewrite (bind_Ok _ _ _ _ _ (field_Ok c APIContext.ctx st _ _ Hx eq_refl)).
  - unfold Deadline. by rewrite (bind_Ok _ _ _ _ _ (field_Ok c APIContext.ctx st _ _ Hx eq_refl)).
  - by eexists.
Qed.

Lemma elems_more st st' s more :
  slice_ok st s → arrays st' = arrays st ++ more → elems st' s = elems st s.
Proof.
  intros [[Hl _]|(a & Ha & _)] Hmore; unfold elems; rewrite Hmore.
  - by rewrite Hl.
  - by rewrite lookup_app_l by (by eapply lookup_lt_Some).
Qed.

(** ** Requests from start to end *)

(** X15. A request that resolves to a chain of quiet handlers is served:
    [ServeHTTP], with the job run by a worker, returns; every handler of
    the chain has been called once, in order, on the context of the
    request; the context is back in the pool, reset; the trie is as it
    was. The middleware slice of the router has no room for the chain, as
    is the case for a slice grown by [Use]. *)
Theorem ServeHTTP_serves_the_request rt wr req st cur n params handler :
  ready st rt wr →
  walk (nodes st) (Router.root rt) (segments (URLPath req)) ∅ = Reached cur params →
  nodes st !! cur = Some n → node.handler n ≫= (.!! Method req) = Some handler →
  slice_ok st handler →
  cap (Router.middleware rt) < len (Router.middleware rt) + len handler →
  Forall quiet_func (elems st handler) →
  ∃ c st',
    ServeHTTP rt wr req st = (Ok tt, st') ∧
    invoked st' = invoked st ++ ((fun h => (c, h)) <$> elems st handler) ∧
    pooled st' c ∧ observes_nothing st' c ∧ nodes st' = nodes st.
Proof.
  intros (l & ws & lg & Hp & Hhead & Hws & Hlog) Hwalk Hn Hh Hok Hno Hq.
  destruct (dispatch_found rt wr req st l ws lg cur n params handler Hp Hhead Hws Hlog
              Hwalk Hn Hh)
    as (c & s' & st2 & Hrun & Hx2 & Hc & Hpools2 & Hcells2 & Hwgs2 & Hwr2 & Hnodes2 & Hnow2 &
        Hinv2 & Harr2).
  assert (Hel : elems st2 handler = elems st handler).
  { eapply elems_more; [done|]. rewrite Harr2. unfold appended.
    rewrite decide_False; [done|]. rewrite (elems_length st handler Hok). lia. }
  assert (Hwlt : wr < length (writers st)) by (by eapply lookup_lt_Some).
  assert (Hplt : Router.pool rt < length (pools st)) by (by eapply lookup_lt_Some).
  assert (Hcalm : calm st2 c).
  { eexists _, wr, _, _, (length (cells st)), _, req. split; [exact Hx2|]. simpl.
    split; [done|]. split; [rewrite Hwr2; by apply list_lookup_insert_eq|].
    split; [done|]. split; [done|]. split; [done|]. split; [done|].
    split; [by left|]. split; [rewrite Hcells2, length_app; simpl; lia|].
    split; [done|]. rewrite Hcells2. simpl. by rewrite list_lookup_middle. }
  destruct (worker_quiet (Job.mk (Some c) handler) c st2 _ (length (wgs st)) 1%Z
              eq_refl Hcalm Hx2 eq_refl)
    as (st3 & Hwork & Hinv3 & Hwgs3 & Hcalm3); [by rewrite Hwgs2, list_lookup_middle|lia| |].
  { simpl. by rewrite Hel. }
  (* the context after the chain *)
  assert (Hx3 : ∃ x3, ctxs st3 !! c = Some x3 ∧ APIContext.wg x3 = Some (length (wgs st)) ∧
                      pools st3 = pools st2 ∧ nodes st3 = nodes st2).
  { unfold worker in Hwork. simpl in Hwork.
    rewrite (bind_Ok _ _ _ _ _ (calm_Err st2 c Hcalm)) in Hwork.
    destruct (wrappedHandler_frame handler c st2 st3 _ (length (wgs st)) 1%Z Hx2 eq_refl)
      as (st1' & Hev & ->); [by rewrite Hwgs2, list_lookup_middle|lia|done|].
    destruct (ev_ctx _ _ _ Hev _ Hx2) as (x3 & Hx3 & Hwg3 & _).
    exists x3. simpl. split; [done|]. split; [by rewrite Hwg3|].
    split; [apply (ev_pools _ _ _ Hev)|apply (ev_nodes _ _ _ Hev)]. }
  destruct Hx3 as (x3 & Hx3 & Hwg3 & Hpools3 & Hnodes3).
  assert (Hdef : ServeHTTP_deferred rt c st3 =
                   (Ok tt, upd_pools (<[Router.pool rt := c :: tail l]>)
                             (upd_ctxs (<[c := reset_context st3 x3]>)
                                (upd_wgs (fun h => h ++ [0%Z]) st3)))).
  { apply (deferred_exact rt c st3 x3 (length (wgs st)) (tail l)); try done.
    - rewrite Hwgs3, Hwgs2. simpl.
      rewrite list_lookup_insert_eq by (rewrite length_app; simpl; lia). done.
    - rewrite Hpools3, Hpools2. by apply list_lookup_insert_eq. }
  eexists c, _. split.
  { rewrite (ServeHTTP_after_dispatch _ _ _ _ _ _ _ Hrun). unfold defer.
    rewrite Hwork. by rewrite (bind_Ok _ _ _ _ _ Hdef). }
  assert (Hclt : c < length (ctxs st3)) by (by eapply lookup_lt_Some).
  split; [simpl in *; by rewrite Hinv3, Hinv2, Hel|].
  split.
  { unfold pooled. simpl. rewrite pools_insert_perm with (l := tail l).
    - by left.
    - rewrite Hpools3, Hpools2. by apply list_lookup_insert_eq. }
  split.
  { eapply reset_context_observes. simpl. by apply list_lookup_insert_eq. }
  simpl. by rewrite Hnodes3, Hnodes2.
Qed.

Lemma ServeHTTP_serves_the_request_witness :
  ∃ c st',
    ServeHTTP rt_new 0 (Req "GET" "/users/42") serving_store = (Ok tt, st') ∧
    invoked st' = [(c, h_user)] ∧
    pooled st' c ∧ observes_nothing st' c ∧ nodes st' = nodes serving_store.
Proof.
  eapply (ServeHTTP_serves_the_request rt_new 0 (Req "GET" "/users/42") serving_store 2
            _ (<["id" := "42"]> ∅) (Slice 0 1 1) ready_serving);
    [vm_compute; reflexivity|reflexivity|vm_compute; reflexivity| | |].
  - right. eexists. split; [reflexivity|]. simpl. lia.
  - simpl. lia.
  - by repeat constructor.
Defined.

(** X16. A request that does not resolve, for want of a route or of the
    method, calls no handler. The dispatch takes a context [c], sets it up
    on the writer and the request and answers on it. When [ServeHTTP]
    returns, that context is at the head of the router's pool and it is
    reset: writer, request and logger are nil, the [ctx] is
    [context.Background()], there are no path parameters and no handlers,
    and the WaitGroup is a new one with nothing counted on it. The trie
    and the chains are as they were. *)
Theorem failed_request_releases_the_context rt wr req st res :
  ready st rt wr → fst (resolve rt req st) = Ok res →
  res = RouteNotFound ∨ res = MethodNotAllowed →
  ∃ c st1 st' x1 x' l p,
    ServeHTTP_dispatch rt wr req st = (Ok (c, None), st1) ∧
    ctxs st1 !! c = Some x1 ∧
    APIContext.w x1 = Some wr ∧ APIContext.r x1 = Some req ∧
    ServeHTTP rt wr req st = (Ok tt, st') ∧ invoked st' = invoked st ∧
    pools st' !! Router.pool rt = Some (c :: l) ∧ pooled st' c ∧
    ctxs st' !! c = Some x' ∧
    APIContext.w x' = None ∧ APIContext.r x' = None ∧ APIContext.log x' = None ∧
    APIContext.ctx x' = Some Background ∧
    APIContext.pathParams x' = ∅ ∧ APIContext.handlers x' = nil_slice ∧
    APIContext.wg x' = Some p ∧ APIContext.wg x' ≠ APIContext.wg x1 ∧
    wgs st' !! p = Some 0%Z ∧
    observes_nothing st' c ∧
    nodes st' = nodes st ∧ arrays st' = arrays st.
Proof.
  intros (l & ws & lg & Hp & Hhead & Hws & Hlog) Hres Hfail.
  destruct (setup_exact rt wr req st l ws lg Hp Hhead Hws Hlog)
    as (c & st1 & Hset & Hx1 & Hc & Hpools1 & Hcells1 & Hwgs1 & Hwr1 & Hnodes1 & Harr1 &
        Hnow1 & Hinv1 & _).
  assert (Hwlt : wr < length (writers st)) by (by eapply lookup_lt_Some).
  assert (Hplt : Router.pool rt < length (pools st)) by (by eapply lookup_lt_Some).
  assert (Hclt : c < length (ctxs st1)) by (by eapply lookup_lt_Some).
  assert (Hcont : ∃ st2,
            ServeHTTP_continue rt c res st1 = (Ok (c, None), st2) ∧
            ctxs st2 = ctxs st1 ∧ wgs st2 = wgs st1 ∧ pools st2 = pools st1 ∧
            nodes st2 = nodes st1 ∧ arrays st2 = arrays st1 ∧ invoked st2 = invoked st1).
  { assert (H : ∀ code msg lmsg, ∃ st2,
              (Error c lmsg lmsg ;;; WriteFailure c code msg ;;; ret (c, @None Job.t)) st1
                = (Ok (c, None), st2) ∧
              ctxs st2 = ctxs st1 ∧ wgs st2 = wgs st1 ∧ pools st2 = pools st1 ∧
              nodes st2 = nodes st1 ∧ arrays st2 = arrays st1 ∧ invoked st2 = invoked st1).
    { intros code msg lmsg. unfold Error.
      rewrite (bind_Ok _ _ _ _ _ (log_entry_Ok c _ _ _ _ st1 _ _ Hx1 eq_refl)).
      erewrite bind_Ok.
      2:{ eapply (WriteFailure_spec c code msg _ _ wr (ws ++ [content_type]));
          [exact Hx1|reflexivity| |reflexivity].
          simpl. rewrite Hwr1. by apply list_lookup_insert_eq. }
      eexists. split; [reflexivity|]. by repeat split. }
    destruct Hfail as [-> | ->]; apply H. }
  destruct Hcont as (st2 & Hcont & Hctxs2 & Hwgs2 & Hpools2 & Hnodes2 & Harr2 & Hinv2).
  assert (Hrun : ServeHTTP_dispatch rt wr req st = (Ok (c, None), st2)).
  { unfold ServeHTTP_dispatch. rewrite (bind_Ok _ _ _ _ _ Hset).
    by rewrite (bind_Ok _ _ _ _ _ (resolve_at rt req st st1 res Hnodes1 Hres)). }
  assert (Hdef : ServeHTTP_deferred rt c st2 =
                   (Ok tt, upd_pools (<[Router.pool rt := c :: tail l]>)
                             (upd_ctxs (<[c := reset_context st2 (served_context st wr req lg)]>)
                                (upd_wgs (fun h => h ++ [0%Z]) st2)))).
  { apply (deferred_exact rt c st2 _ (length (wgs st)) (tail l)).
    - by rewrite Hctxs2.
    - reflexivity.
    - rewrite Hwgs2, Hwgs1. by apply list_lookup_middle.
    - rewrite Hpools2, Hpools1. by apply list_lookup_insert_eq. }
  assert (Hplt2 : Router.pool rt < length (pools st2)) by (by rewrite Hpools2, Hpools1, length_insert).
  eexists c, st2, _, (served_context st wr req lg),
    (reset_context st2 (served_context st wr req lg)), (tail l), (length (wgs st2)).
  split; [exact Hrun|].
  split; [by rewrite Hctxs2|].
  split; [reflexivity|]. split; [reflexivity|].
  split.
  { rewrite (ServeHTTP_after_dispatch _ _ _ _ _ _ _ Hrun). unfold defer.
    unfold ret at 1. by rewrite (bind_Ok _ _ _ _ _ Hdef). }
  split; [simpl; congruence|].
  split; [simpl; by apply list_lookup_insert_eq|].
  split.
  { unfold pooled. simpl. rewrite pools_insert_perm with (l := tail l).
    - by left.
    - rewrite Hpools2, Hpools1. by apply list_lookup_insert_eq. }
  split; [simpl; apply list_lookup_insert_eq; by rewrite Hctxs2|].
  do 7 (split; [reflexivity|]).
  split.
  { simpl. rewrite Hwgs2, Hwgs1, length_app. simpl. intros [=]. lia. }
  split; [simpl; by apply list_lookup_middle|].
  split.
  { eapply reset_context_observes. simpl. apply list_lookup_insert_eq. by rewrite Hctxs2. }
  simpl. split; congruence.
Qed.

Lemma failed_request_releases_the_context_witness :
  ∃ c st1 st' x1 x' l p,
    ServeHTTP_dispatch rt_new 0 (Req "POST" "/users/42") serving_store = (Ok (c, None), st1) ∧
    ctxs st1 !! c = Some x1 ∧
    APIContext.w x1 = Some 0 ∧ APIContext.r x1 = Some (Req "POST" "/users/42") ∧
    ServeHTTP rt_new 0 (Req "POST" "/users/42") serving_store = (Ok tt, st') ∧
    invoked st' = invoked serving_store ∧
    pools st' !! Router.pool rt_new = Some (c :: l) ∧ pooled st' c ∧
    ctxs st' !! c = Some x' ∧
    APIContext.w x' = None ∧ APIContext.r x' = None ∧ APIContext.log x' = None ∧
    APIContext.ctx x' = Some Background ∧
    APIContext.pathParams x' = ∅ ∧ APIContext.handlers x' = nil_slice ∧
    APIContext.wg x' = Some p ∧ APIContext.wg x' ≠ APIContext.wg x1 ∧
    wgs st' !! p = Some 0%Z ∧
    observes_nothing st' c ∧
    nodes st' = nodes serving_store ∧ arrays st' = arrays serving_store.
Proof.
  apply (failed_request_releases_the_context rt_new 0 (Req "POST" "/users/42") serving_store
           MethodNotAllowed ready_serving);
    [vm_compute; reflexivity|by right].
Defined.

(** ** Routes and their keys *)

(** X4. A route is stored under the keys of its segments, and every capture
    has the key "*": a path registered over another path with the same
    keys takes its place, whatever the captures are called. The requests of
    the path that is replaced find the new chain, with the segments bound
    to the names that the trie has for the captures. *)
Theorem route_is_replaced_under_the_same_keys rt method p1 p2 hs st :
  wf_router st rt → hs ≠ [] →
  canon <$> segments (Router.prefix rt +:+ p1) = canon <$> segments (Router.prefix rt +:+ p2) →
  ∃ st',
    handle rt method p2 hs st = (Ok tt, st') ∧
    ∀ reqpath,
      instance_of (nodes st') (Router.root rt)
        (segments (Router.prefix rt +:+ p1)) (segments reqpath) →
      ∃ handler,
        resolve rt (Req method reqpath) st' =
          (Ok (Found handler
                 (bindings (segments (Router.prefix rt +:+ p1)) (segments reqpath) ∅)),
           st') ∧
        elems st' handler = elems st (Router.middleware rt) ++ hs.
Proof.
  intros Hwf Hhs Hkeys.
  destruct (handle_spec rt method p2 hs st Hwf Hhs)
    as (st' & final & n & hm & s & Hrun & Hpath & Hn & Hh & Hm & Hel & _).
  exists st'. split; [done|]. intros reqpath Hinst.
  exists s. split; [|done].
  eapply resolve_Found; [|done..].
  apply walk_instance; [done|]. by rewrite Hkeys.
Qed.

Lemma users_routes_ok : router_ok (snd users_routes) rt_new.
Proof.
  pose proof router_ok_new as H0.
  destruct (handle_exact rt_new "GET" "/users/:id" [h_user] _ H0 ltac:(done))
    as (f1 & nd1 & n1 & hm1 & Hrun1 & _).
  pose proof (handle_keeps_ok rt_new "GET" "/users/:id" [h_user] _ _ H0 ltac:(done) Hrun1
                rt_new H0) as H1.
  destruct (handle_exact rt_new "GET" "/users/me" [h_me] _ H1 ltac:(done))
    as (f2 & nd2 & n2 & hm2 & Hrun2 & _).
  pose proof (handle_keeps_ok rt_new "GET" "/users/me" [h_me] _ _ H1 ltac:(done) Hrun2
                rt_new H1) as H2.
  unfold users_routes, GET.
  rewrite (bind_Ok (NewRouter (Some [])) _ emptyStore rt_new _ eq_refl).
  rewrite (bind_Ok _ _ _ _ _ Hrun1), (bind_Ok _ _ _ _ _ Hrun2). exact H2.
Qed.

Lemma route_is_replaced_under_the_same_keys_witness :
  ∃ st',
    handle rt_new "GET" "/users/:name" [h_me] (snd users_routes) = (Ok tt, st') ∧
    ∃ handler,
      resolve rt_new (Req "GET" "/users/42") st' =
        (Ok (Found handler (<["id" := "42"]> ∅)), st') ∧
      elems st' handler = [h_me].
Proof.
  destruct (route_is_replaced_under_the_same_keys rt_new "GET" "/users/:id" "/users/:name"
              [h_me] (snd users_routes)) as (st' & Hrun & Hres);
    [exact (proj1 users_routes_ok)|done|vm_compute; reflexivity|].
  exists st'. split; [exact Hrun|]. apply (Hres "/users/42").
  vm_compute in Hrun. injection Hrun as <-.
  simpl. eexists _, 1. split; [reflexivity|]. split; [vm_compute; reflexivity|].
  split; [done|].
  eexists _, 2. split; [reflexivity|]. split; [vm_compute; reflexivity|].
  split; [|done]. split; [vm_compute; reflexivity|].
  eexists. split; [reflexivity|]. reflexivity.
Defined.

(** ** Groups *)

Lemma Use_ok rt mw st :
  router_ok st rt →
  ∃ s' st',
    Use rt mw st =
      (Ok (Router.mk (Router.root rt) s' (Router.pool rt) (Router.log rt) (Router.prefix rt)),
       st') ∧
    append (Router.middleware rt) [mw] st = (Ok s', st') ∧
    slice_ok st' s' ∧ nodes st' = nodes st ∧
    arrays_grow (arrays st) (arrays st') ∧
    elems st' s' = elems st (Router.middleware rt) ++ [mw].
Proof.
  intros [(Hwf & Hroot & Hmw) Hlab].
  destruct (append_ok (Router.middleware rt) [mw] st Hmw)
    as (s' & st' & Happ & Hok' & Hgrow & Hnodes & Hel).
  exists s', st'. unfold Use. rewrite (bind_Ok _ _ _ _ _ Happ). by repeat split.
Qed.

(** X7. A group with a middleware of its own: a route registered on the
    group is found by the parent router, under the prefix of the parent
    followed by the prefix of the group and the path, and its chain is the
    middleware of the parent, then the middleware of the group, then the
    handlers. *)
Theorem group_route_is_served_by_the_parent rt prefix mw method p hs st :
  router_ok st rt → hs ≠ [] →
  ∃ g g' st1 st2 st3,
    Group rt prefix st = (Ok g, st1) ∧ Use g mw st1 = (Ok g', st2) ∧
    handle g' method p hs st2 = (Ok tt, st3) ∧
    ∀ reqpath,
      instance_of (nodes st3) (Router.root rt)
        (segments ((Router.prefix rt +:+ prefix) +:+ p)) (segments reqpath) →
      ∃ handler,
        resolve rt (Req method reqpath) st3 =
          (Ok (Found handler
                 (bindings (segments ((Router.prefix rt +:+ prefix) +:+ p))
                    (segments reqpath) ∅)),
           st3) ∧
        elems st3 handler = elems st (Router.middleware rt) ++ mw :: hs.
Proof.
  intros Hok Hhs.
  set (g := Router.mk (Router.root rt) (Router.middleware rt) (length (pools st))
              (Router.log rt) (Router.prefix rt +:+ prefix)).
  set (st1 := upd_pools (fun h => h ++ [[]]) st).
  assert (Hg : router_ok st1 g) by exact Hok.
  destruct (Use_ok g mw st1 Hg) as (s' & st2 & Huse & _ & Hs' & Hnodes2 & Hgrow2 & Hel2).
  set (g' := Router.mk (Router.root g) s' (Router.pool g) (Router.log g) (Router.prefix g)) in *.
  assert (Hg' : wf_router st2 g').
  { destruct Hg as [(Hwf & Hroot & _) _]. split; [by rewrite Hnodes2|].
    split; [by rewrite Hnodes2|done]. }
  destruct (handle_spec g' method p hs st2 Hg' Hhs)
    as (st3 & final & n & hm & s & Hrun & Hpath & Hn & Hh & Hm & Hel & _).
  exists g, g', st1, st2, st3. split; [reflexivity|]. split; [exact Huse|].
  split; [exact Hrun|]. intros reqpath Hinst.
  exists s. split.
  - apply (resolve_Found rt _ st3 final _ n hm s); try done.
    by apply (walk_instance (nodes st3)).
  - rewrite Hel. simpl. rewrite Hel2. by rewrite <- app_assoc.
Qed.

Lemma group_route_is_served_by_the_parent_witness :
  ∃ g g' st1 st2 st3,
    Group rt_new "/api" (snd (NewRouter (Some []) emptyStore)) = (Ok g, st1) ∧
    Use g mw_log st1 = (Ok g', st2) ∧
    handle g' "GET" "/me" [h_me] st2 = (Ok tt, st3) ∧
    ∃ handler,
      resolve rt_new (Req "GET" "/api/me") st3 = (Ok (Found handler ∅), st3) ∧
      elems st3 handler = [mw_log; h_me].
Proof.
  destruct (group_route_is_served_by_the_parent rt_new "/api" mw_log "GET" "/me" [h_me]
              (snd (NewRouter (Some []) emptyStore)) router_ok_new ltac:(done))
    as (g & g' & st1 & st2 & st3 & Hg & Huse & Hrun & Hres).
  exists g, g', st1, st2, st3. split; [exact Hg|]. split; [exact Huse|].
  split; [exact Hrun|]. apply (Hres "/api/me").
  vm_compute in Hg. injection Hg as <- <-.
  vm_compute in Huse. injection Huse as <- <-.
  vm_compute in Hrun. injection Hrun as <-.
  simpl. eexists _, 1. split; [reflexivity|]. split; [vm_compute; reflexivity|].
  split; [done|].
  eexists _, 2. split; [reflexivity|]. split; [vm_compute; reflexivity|].
  split; [done|]. done.
Defined.

(** X8. A group made while the middleware slice of the parent has room: the
    group and the parent share the array, and both put their next
    middleware at the same place. A middleware that the parent adds after
    the group has added its own takes the place of that of the group. *)
Theorem parent_Use_overwrites_group_middleware rt prefix x y st :
  router_ok st rt →
  len (Router.middleware rt) + 1 ≤ cap (Router.middleware rt) →
  ∃ g g' rt' st1 st2 st3,
    Group rt prefix st = (Ok g, st1) ∧ Use g x st1 = (Ok g', st2) ∧
    Use rt y st2 = (Ok rt', st3) ∧
    elems st2 (Router.middleware g') = elems st (Router.middleware rt) ++ [x] ∧
    elems st3 (Router.middleware g') = elems st (Router.middleware rt) ++ [y].
Proof.
  intros [(Hwf & Hroot & Hmw) Hlab] Hroom.
  destruct Hmw as [[Hl Hc]|(a & Ha & Hle)]; [lia|].
  assert (Hlt : array (Router.middleware rt) < length (arrays st)) by (by eapply lookup_lt_Some).
  eexists _, _, _, _, _, _. split; [reflexivity|].
  unfold Use, append. simpl. rewrite !decide_True by (simpl; lia).
  split; [reflexivity|]. split; [reflexivity|].
  unfold elems. simpl. rewrite !list_lookup_alter_eq, Ha. simpl.
  set (n := len (Router.middleware rt)) in *.
  assert (Hone : ∀ z (rest : list HandlerFunc),
            take (n + 1) (take n a ++ z :: rest) = take n a ++ [z]).
  { intros z rest. rewrite take_app_ge by (rewrite length_take; lia).
    rewrite length_take, Nat.min_l by done.
    by replace (n + 1 - n) with 1 by lia. }
  split; [apply Hone|].
  assert (HA : take n (take n a ++ x :: drop (n + 1) a) = take n a).
  { rewrite take_app_le by (rewrite length_take; lia). by rewrite take_take, Nat.min_id. }
  rewrite HA. apply Hone.
Qed.

Lemma parent_Use_overwrites_group_middleware_witness :
  ∃ g g' rt' st1 st2 st3,
    Group rt_three "/api" (snd three_middleware) = (Ok g, st1) ∧
    Use g h_user st1 = (Ok g', st2) ∧ Use rt_three h_me st2 = (Ok rt', st3) ∧
    elems st2 (Router.middleware g') = [mw_log; mw_log; mw_log] ++ [h_user] ∧
    elems st3 (Router.middleware g') = [mw_log; mw_log; mw_log] ++ [h_me].
Proof.
  apply (parent_Use_overwrites_group_middleware rt_three "/api" h_user h_me
           (snd three_middleware) router_ok_three).
  simpl. lia.
Defined.

(** ** Requests served together *)

Lemma count_pos {A} (f : A → bool) l x : x ∈ l → f x = true → 1 ≤ count f l.
Proof.
  induction l as [|z l IH]; simpl; intros Hx Hf; [by apply elem_of_nil in Hx|].
  apply elem_of_cons in Hx as [->|Hx].
  - rewrite Hf. lia.
  - specialize (IH Hx Hf). lia.
Qed.

Lemma queued_counted s c :
  inv s → 1 ≤ queued s c →
  ∃ x p n, ctxs (store s) !! c = Some x ∧ APIContext.wg x = Some p ∧
           wgs (store s) !! p = Some n ∧ (1 ≤ n)%Z.
Proof.
  intros Hinv Hq. destruct Hinv.
  destruct (decide (c ∈ thread_ctx <$> threads s)) as [Hin|Hout].
  - apply list_elem_of_fmap in Hin as (t & -> & Ht).
    destruct (inv_owned0 t Ht) as (_ & x & p & n & Hx & Hwg & Hn & Ht').
    exists x, p, n. repeat split; try done.
    destruct t as [rt c job|rt c]; simpl in *.
    + destruct Ht' as (_ & _ & Hz). lia.
    + lia.
  - specialize (inv_free0 c Hout). lia.
Qed.

(** X19. While requests are served together, no two of them have the same
    context, and the context of a request is not in a pool. The job of a
    request, in the buffer or with a worker, is counted on the WaitGroup of
    its context: the counter is at least 1, and the [Done] of the job does
    not make it negative. *)
Theorem requests_do_not_share_contexts queueSize s :
  reachable queueSize s →
  NoDup (thread_ctx <$> threads s) ∧
  (∀ t, t ∈ threads s → ¬ pooled (store s) (thread_ctx t)) ∧
  (∀ job c,
     job ∈ jobs s ∨ Some job ∈ workers s → Job.Context job = Some c →
     ∃ x p n, ctxs (store s) !! c = Some x ∧ APIContext.wg x = Some p ∧
              wgs (store s) !! p = Some n ∧ (1 ≤ n)%Z).
Proof.
  intros Hreach. pose proof (inv_reachable _ _ Hreach) as Hinv.
  split; [by destruct Hinv|]. split.
  - intros t Ht. by destruct (inv_owned _ Hinv t Ht).
  - intros job c Hjob Hc. apply (queued_counted s c Hinv). unfold queued.
    destruct Hjob as [Hj|Hj].
    + pose proof (count_pos (job_for c) _ _ Hj) as H.
      unfold job_for in H at 1. rewrite bool_decide_eq_true_2 in H by done.
      specialize (H eq_refl). lia.
    + pose proof (count_pos (worker_for c) _ _ Hj) as H. simpl in H.
      unfold job_for in H at 1. rewrite bool_decide_eq_true_2 in H by done.
      specialize (H eq_refl). lia.
Qed.

Lemma requests_do_not_share_contexts_witness :
  ∃ x p n, ctxs (store system_running) !! 0 = Some x ∧ APIContext.wg x = Some p ∧
           wgs (store system_running) !! p = Some n ∧ (1 ≤ n)%Z.
Proof.
  apply (proj2 (proj2 (requests_do_not_share_contexts 1 system_running
                         system_running_reachable)) job_me 0).
  - right. by apply list_elem_of_singleton.
  - reflexivity.
Defined.

(** ** Requests that write into the array of the middleware *)

(** X17. [ServeHTTP] appends the chain of the request to the middleware of the
    router. When the middleware slice has room for the chain, the chain is
    written into its array, after the middleware: a chain of [k] handlers
    that [handle] has stored there for a route then reads the first [k]
    handlers of the chain of the request in the place of its own. *)
Theorem serving_a_request_can_overwrite_a_chain rt wr req st cur n params handler k :
  ready st rt wr →
  walk (nodes st) (Router.root rt) (segments (URLPath req)) ∅ = Reached cur params →
  nodes st !! cur = Some n → node.handler n ≫= (.!! Method req) = Some handler →
  slice_ok st handler → slice_ok st (Router.middleware rt) →
  0 < len (Router.middleware rt) →
  len (Router.middleware rt) + len handler ≤ cap (Router.middleware rt) →
  k ≤ len handler →
  ∃ c st2,
    ServeHTTP_dispatch rt wr req st = (Ok (c, Some (Job.mk (Some c) handler)), st2) ∧
    nodes st2 = nodes st ∧
    elems st2 (Slice (array (Router.middleware rt)) (len (Router.middleware rt) + k)
                 (cap (Router.middleware rt)))
      = elems st (Router.middleware rt) ++ take k (elems st handler).
Proof.
  intros (l & ws & lg & Hp & Hhead & Hws & Hlog) Hwalk Hn Hh Hok Hmw Hpos Hroom Hk.
  destruct (dispatch_found rt wr req st l ws lg cur n params handler Hp Hhead Hws Hlog
              Hwalk Hn Hh)
    as (c & s' & st2 & Hrun & _ & _ & _ & _ & _ & _ & Hnodes & _ & _ & Harr).
  exists c, st2. split; [exact Hrun|]. split; [exact Hnodes|].
  pose proof (elems_length st handler Hok) as Hlen.
  destruct Hmw as [[Hl _]|(a & Ha & Hle)]; [lia|].
  unfold elems at 1. rewrite Harr. unfold appended. rewrite decide_True by lia. simpl.
  rewrite list_lookup_alter_eq, Ha. simpl.
  rewrite take_app_ge by (rewrite length_take; lia).
  rewrite length_take, Nat.min_l by done.
  replace (len (Router.middleware rt) + k - len (Router.middleware rt)) with k by lia.
  rewrite take_app_le by lia. unfold elems at 2. by rewrite Ha.
Qed.

Lemma mixed_routes_eq : fst mixed_routes = Ok rt_mixed.
Proof. vm_compute. reflexivity. Qed.

Lemma serving_a_request_can_overwrite_a_chain_witness :
  resolve rt_mixed (Req "GET" "/y") (snd mixed_routes)
    = (Ok (Found (Slice 3 4 4) ∅), snd mixed_routes) ∧
  elems (snd mixed_routes) (Slice 3 4 4) = [mw_log; mw_log; mw_log; h_me] ∧
  ∃ c st2,
    ServeHTTP_dispatch rt_mixed 0 (Req "GET" "/x") (snd mixed_routes)
      = (Ok (c, Some (Job.mk (Some c) (Slice 0 1 1))), st2) ∧
    nodes st2 = nodes (snd mixed_routes) ∧
    elems st2 (Slice 3 4 4) = [mw_log; mw_log; mw_log] ++ [h_user].
Proof.
  split; [vm_compute; reflexivity|]. split; [vm_compute; reflexivity|].
  eapply (serving_a_request_can_overwrite_a_chain rt_mixed 0 (Req "GET" "/x")
            (snd mixed_routes) 1 _ ∅ (Slice 0 1 1) 1).
  - exists [], [], []. repeat split; try (vm_compute; reflexivity). intros c Hc. done.
  - vm_compute. reflexivity.
  - vm_compute. reflexivity.
  - vm_compute. reflexivity.
  - right. eexists. split; [vm_compute; reflexivity|]. simpl. lia.
  - right. eexists. split; [vm_compute; reflexivity|]. simpl. lia.
  - simpl. lia.
  - simpl. lia.
  - simpl. lia.
Defined.

(** ** Panics *)

Lemma quiet_chain_panics hs : ∀ c st h rest e,
  calm st c → Forall quiet_func hs →
  (h = None ∧ e = NilFuncCall) ∨ (∃ msg, h = Some (Crash msg) ∧ e = HandlerPanic msg) →
  ∃ st1,
    range_handlers (hs ++ h :: rest) c st
      = (Panic e, upd_invoked (fun l => l ++ [(c, h)]) st1) ∧
    invoked st1 = invoked st ++ ((fun h0 => (c, h0)) <$> hs) ∧ wgs st1 = wgs st.
Proof.
  induction hs as [|h0 hs IH]; intros c st h rest e Hcalm Hq He.
  - exists st. simpl app.
    rewrite range_handlers_cons, (bind_Ok _ _ _ _ _ (calm_Err st c Hcalm)).
    unfold call_func. rewrite bind_assoc, bind_modify.
    split; [by destruct He as [[-> ->]|(msg & -> & ->)]|].
    simpl. by rewrite app_nil_r.
  - apply Forall_cons in Hq as [Hq0 Hq]. destruct h0 as [f|]; [|done].
    simpl app. rewrite range_handlers_cons, (bind_Ok _ _ _ _ _ (calm_Err st c Hcalm)).
    unfold call_func at 1. rewrite bind_assoc, bind_modify.
    set (st0 := upd_invoked (fun l => l ++ [(c, Some f)]) st).
    assert (Hcalm0 : calm st0 c) by exact Hcalm.
    destruct (quiet_call f c st0 Hq0 Hcalm0) as (sta & Hcall & Hca & Hia & _ & Hga & _).
    rewrite (bind_Ok _ _ _ _ _ Hcall).
    destruct (IH c sta h rest e Hca Hq He) as (st1 & Hrun & Hi1 & Hg1).
    exists st1. split; [exact Hrun|]. split.
    + rewrite Hi1, Hia. simpl. by rewrite <- app_assoc.
    + by rewrite Hg1, Hga.
Qed.

(** X14. A panic in a handler, or a nil func in the chain, is not recovered by
    the worker: the handlers before it have been called, none after it is,
    the deferred [Done] has taken one from the counter of the WaitGroup, and
    the panic leaves the worker. *)
Theorem handler_panic_leaves_the_worker job c st x p n hs h rest e :
  Job.Context job = Some c → calm st c →
  ctxs st !! c = Some x → APIContext.wg x = Some p → wgs st !! p = Some n → (1 ≤ n)%Z →
  elems st (Job.HandlerFunc job) = hs ++ h :: rest → Forall quiet_func hs →
  (h = None ∧ e = NilFuncCall) ∨ (∃ msg, h = Some (Crash msg) ∧ e = HandlerPanic msg) →
  ∃ st',
    worker job st = (Panic e, st') ∧
    invoked st' = invoked st ++ ((fun h0 => (c, h0)) <$> hs ++ [h]) ∧
    wgs st' = <[p := (n - 1)%Z]> (wgs st).
Proof.
  intros Hjob Hcalm Hx Hwg Hn Hge Hel Hq He.
  destruct (quiet_chain_panics hs c st h rest e Hcalm Hq He) as (st1 & Hchain & Hi & Hg).
  set (st2 := upd_invoked (fun l => l ++ [(c, h)]) st1) in *.
  exists (upd_wgs (<[p := (n - 1)%Z]>) st2). split; [|split].
  - unfold worker. rewrite Hjob. rewrite (bind_Ok _ _ _ _ _ (calm_Err st c Hcalm)).
    unfold wrappedHandler. rewrite (bind_Ok _ _ _ _ _ (field_Ok c APIContext.wg st x p Hx Hwg)).
    unfold defer.
    change ((hs0 <- get (fun st0 => elems st0 (Job.HandlerFunc job)) ;; range_handlers hs0 c) st)
      with (range_handlers (elems st (Job.HandlerFunc job)) c st).
    rewrite Hel, Hchain. unfold WaitGroup_Done, WaitGroup_Add.
    erewrite bind_Ok by (apply deref_Ok; simpl; rewrite Hg; exact Hn).
    destruct (Z.ltb_spec (n + -1) 0); [lia|].
    unfold modify. by replace (n + -1)%Z with (n - 1)%Z by lia.
  - simpl. rewrite Hi, fmap_app. simpl. by rewrite <- app_assoc.
  - simpl. by rewrite Hg.
Qed.

Lemma handler_panic_leaves_the_worker_witness :
  ∃ st',
    worker (Job.mk (Some 0) (Slice 0 1 1))
        (upd_wgs (fun _ => [1%Z]) (upd_arrays (fun _ => [[None]]) one_handler_store))
      = (Panic NilFuncCall, st') ∧
    invoked st' = [(0, None)] ∧ wgs st' = [0%Z].
Proof.
  apply (handler_panic_leaves_the_worker (Job.mk (Some 0) (Slice 0 1 1)) 0
           (upd_wgs (fun _ => [1%Z]) (upd_arrays (fun _ => [[None]]) one_handler_store))
           fresh_context 0 1%Z [] None []); try reflexivity.
  - exact calm_fresh.
  - constructor.
  - by left.
Defined.

(** X18. A router made with a nil logger panics on every request: [ServeHTTP]
    dereferences the logger before it writes anything and before its
    [defer], so that the context taken from the pool is not put back and no
    handler is called. *)
Theorem nil_logger_panics_before_the_defer rt wr req st l ws :
  pools st !! Router.pool rt = Some l →
  (∀ c, head l = Some c → is_Some (ctxs st !! c)) →
  writers st !! wr = Some ws → Router.log rt = None →
  ∃ st',
    ServeHTTP rt wr req st = (Panic NilDereference, st') ∧
    pools st' = <[Router.pool rt := tail l]> (pools st) ∧
    writers st' = writers st ∧ invoked st' = invoked st.
Proof.
  intros Hp Hhead Hws Hlog.
  destruct rt as [root mw pool lg0 prefix]. simpl in *. subst lg0.
  assert (Hplt : pool < length (pools st)) by (by eapply lookup_lt_Some).
  assert (Hpanic : ∀ c st1 x,
            ctxs st1 !! c = Some x → APIContext.log x = None →
            ∀ B (k : Logger → M B), (lg <- field c APIContext.log ;; k lg) st1
                                    = (Panic NilDereference, st1)).
  { intros c st1 x Hx Hl B k. unfold field. rewrite bind_assoc.
    rewrite (bind_Ok _ _ _ _ _ (deref_Ok ctxs c st1 x Hx)). by rewrite Hl. }
  unfold ServeHTTP, ServeHTTP_setup, Pool_Get. simpl.
  destruct l as [|c l].
  - mrun. eexists. split.
    + erewrite Hpanic; [reflexivity|lookup_solver|reflexivity].
    + simpl. split; [by rewrite list_insert_id|done].
  - destruct (Hhead c eq_refl) as [x Hx].
    assert (Hclt : c < length (ctxs st)) by (by eapply lookup_lt_Some).
    mrun. eexists. split.
    + erewrite Hpanic; [reflexivity|lookup_solver|reflexivity].
    + simpl. by split.
Qed.

Lemma nil_logger_panics_before_the_defer_witness :
  ∃ st',
    ServeHTTP (Router.mk 0 nil_slice 0 None EmptyString) 0 (Req "GET" "/users/me") serving_store
      = (Panic NilDereference, st') ∧
    pools st' = <[0 := tail []]> (pools serving_store) ∧
    writers st' = writers serving_store ∧ invoked st' = invoked serving_store.
Proof.
  apply (nil_logger_panics_before_the_defer (Router.mk 0 nil_slice 0 None EmptyString) 0
           (Req "GET" "/users/me") serving_store [] []); try reflexivity.
  intros c Hc. done.
Defined.
